(** * shaka.util.StreamUtils: restriction, compatibility and preference filters

    A shallow embedding of [lib/util/stream_utils.js] and the properties of
    its filters, selectors and projections.

    Conventions of the embedding.
    - A JavaScript [number] is a value of [JS.number]: an exact rational, the
      two infinities or NaN.  Rounding of IEEE doubles is not modelled.
    - A field typed [(T|undefined)] or [?T] is an [option T]; [None] stands
      for [undefined] and [null] alike, which the functions below never tell
      apart.
    - Arrays are lists and objects are records, compared by value.
      [applyRestrictions] writes a flag of every variant of the period: it
      returns the period with the updated variants.  [filterNewPeriod]
      assigns two fields of the period: it returns the new period.  The
      selectors only write to arrays they have made themselves.
    - [goog.asserts.assert] is a failure of the computation ([None]).
    - [shaka.log] output is not part of the model.
    - The lookups that compare objects by identity, at the end of the file,
      are over references; the [trickModeVideo] link of a video stream, which
      only they read, is a function of the reference there and not a field
      of the record. *)

From Stdlib Require Import QArith Lqa Ascii String.
From stdpp Require Import base option list strings.

Local Open Scope string_scope.
Local Open Scope list_scope.

(** ** JavaScript values *)

Module JS.

Inductive number : Type :=
| NaN
| NegInf
| Fin (q : Q)
| PosInf.

(** [a < b] *)
Definition lt (a b : number) : bool :=
  match a, b with
  | NaN, _ | _, NaN => false
  | _, NegInf => false
  | NegInf, _ => true
  | PosInf, _ => false
  | Fin _, PosInf => true
  | Fin x, Fin y => negb (Qle_bool y x)
  end.

(** [a > b] *)
Definition gt (a b : number) : bool := lt b a.

(** [a >= b] *)
Definition ge (a b : number) : bool :=
  match a, b with
  | NaN, _ | _, NaN => false
  | _, _ => negb (lt a b)
  end.

(** [a <= b] *)
Definition le (a b : number) : bool := ge b a.

(** [a + b] *)
Definition add (a b : number) : number :=
  match a, b with
  | NaN, _ | _, NaN => NaN
  | PosInf, NegInf | NegInf, PosInf => NaN
  | PosInf, _ | _, PosInf => PosInf
  | NegInf, _ | _, NegInf => NegInf
  | Fin x, Fin y => Fin (x + y)
  end.

Definition scale (q : Q) (pos neg : number) : number :=
  if Qle_bool q 0 then (if Qle_bool 0 q then NaN else neg) else pos.

(** [a * b] *)
Definition mul (a b : number) : number :=
  match a, b with
  | NaN, _ | _, NaN => NaN
  | Fin x, Fin y => Fin (x * y)
  | Fin x, PosInf | PosInf, Fin x => scale x PosInf NegInf
  | Fin x, NegInf | NegInf, Fin x => scale x NegInf PosInf
  | PosInf, PosInf | NegInf, NegInf => PosInf
  | PosInf, NegInf | NegInf, PosInf => NegInf
  end.

(** [ToNumber] of a possibly undefined number *)
Definition toNumber (x : option number) : number :=
  match x with Some n => n | None => NaN end.

(** [ToBoolean] of a number, and of a string *)
Definition truthy (n : number) : bool :=
  match n with
  | NaN => false
  | Fin q => negb (Qeq_bool q 0)
  | _ => true
  end.

Definition nonEmpty (s : string) : bool :=
  match s with EmptyString => false | String _ _ => true end.

(** [x || null] *)
Definition numberOrNull (x : option number) : option number :=
  match x with
  | Some n => if truthy n then Some n else None
  | None => None
  end.

Definition stringOrNull (x : option string) : option string :=
  match x with
  | Some s => if nonEmpty s then Some s else None
  | None => None
  end.

(** [s.split('.')[0]] *)
Fixpoint splitDotHead (s : string) : string :=
  match s with
  | EmptyString => EmptyString
  | String c s' =>
      if Ascii.eqb c "."%char then EmptyString else String c (splitDotHead s')
  end.

(** [parts.join(sep)] *)
Definition join (sep : string) (parts : list string) : string :=
  String.concat sep parts.

(** [goog.asserts.assert(cond)] *)
Definition assert (cond : bool) : option unit :=
  if cond then Some tt else None.

(** The mathematical order that [lt] decides. *)
Inductive Lt : number -> number -> Prop :=
| Lt_fin x y : (x < y)%Q -> Lt (Fin x) (Fin y)
| Lt_fin_inf x : Lt (Fin x) PosInf
| Lt_inf_fin y : Lt NegInf (Fin y)
| Lt_inf_inf : Lt NegInf PosInf.

End JS.

(** ** Data model (shakaExtern) *)

Inductive ContentType : Type := VIDEO | AUDIO | TEXT.

Global Instance ContentType_eq_dec : EqDecision ContentType.
Proof. solve_decision. Defined.

Module Stream.
Record t : Type := mk {
    id : Z;
    type : ContentType;
    language : string;
    codecs : string;
    mimeType : string;
    bandwidth : option JS.number;
    roles : list string;
    primary : bool;
    encrypted : bool;
    kind : option string;
    label : option string;
    width : option JS.number;
    height : option JS.number;
    frameRate : option JS.number;
    channelsCount : option JS.number
  }.
End Stream.

Module Variant.
Record t : Type := mk {
    id : Z;
    bandwidth : JS.number;
    language : string;
    primary : bool;
    audio : option Stream.t;
    video : option Stream.t;
    allowedByApplication : bool;
    allowedByKeySystem : bool
  }.

Definition setAllowedByApplication (v : t) (b : bool) : t :=
    mk (id v) (bandwidth v) (language v) (primary v) (audio v) (video v)
       b (allowedByKeySystem v).
End Variant.

Module Period.
Record t : Type := mk {
    startTime : JS.number;
    variants : list Variant.t;
    textStreams : list Stream.t
  }.
End Period.

Module Manifest.
Record t : Type := mk {
    periods : list Period.t;
    minBufferTime : JS.number
  }.
End Manifest.

Module Restrictions.
Record t : Type := mk {
    minWidth : JS.number;
    maxWidth : JS.number;
    minHeight : JS.number;
    maxHeight : JS.number;
    minPixels : JS.number;
    maxPixels : JS.number;
    minBandwidth : JS.number;
    maxBandwidth : JS.number
  }.
End Restrictions.

Module Resolution.
Record t : Type := mk { width : JS.number; height : JS.number }.
End Resolution.

Module Track.
Record t : Type := mk {
    id : Z;
    active : bool;
    type : string;
    bandwidth : JS.number;
    language : string;
    label : option string;
    kind : option string;
    width : option JS.number;
    height : option JS.number;
    frameRate : option JS.number;
    mimeType : option string;
    codecs : option string;
    audioCodec : option string;
    videoCodec : option string;
    primary : bool;
    roles : list string;
    videoId : option Z;
    audioId : option Z;
    channelsCount : option JS.number;
    audioBandwidth : option JS.number;
    videoBandwidth : option JS.number
  }.
End Track.

(** The DRM engine, as far as this file queries it. *)
Module DrmEngine.
Record t : Type := mk {
    initialized : bool;
    isSupportedByKeySystem : Variant.t -> bool;
    getSupportedTypes : list string
  }.
End DrmEngine.

(** ** Restriction filter *)

Definition meetsRestrictions (variant : Variant.t)
    (restrictions : Restrictions.t) (maxHwRes : Resolution.t) : bool :=
  let violatesVideo :=
    match Variant.video variant with
    | Some video =>
        let width := JS.toNumber (Stream.width video) in
        let height := JS.toNumber (Stream.height video) in
        JS.lt width (Restrictions.minWidth restrictions) ||
        JS.gt width (Restrictions.maxWidth restrictions) ||
        JS.gt width (Resolution.width maxHwRes) ||
        JS.lt height (Restrictions.minHeight restrictions) ||
        JS.gt height (Restrictions.maxHeight restrictions) ||
        JS.gt height (Resolution.height maxHwRes) ||
        JS.lt (JS.mul width height) (Restrictions.minPixels restrictions) ||
        JS.gt (JS.mul width height) (Restrictions.maxPixels restrictions)
    | None => false
    end in
  if violatesVideo then false
  else if JS.lt (Variant.bandwidth variant) (Restrictions.minBandwidth restrictions) ||
          JS.gt (Variant.bandwidth variant) (Restrictions.maxBandwidth restrictions)
  then false
  else true.

(** The loop body of [applyRestrictions]: the state is the variants already
    visited, as they are after the visit, and [tracksChanged]. *)
Definition applyRestrictionsStep (restrictions : Restrictions.t)
    (maxHwRes : Resolution.t) (st : list Variant.t * bool)
    (variant : Variant.t) : list Variant.t * bool :=
  let originalAllowed := Variant.allowedByApplication variant in
  let variant' :=
    Variant.setAllowedByApplication variant
      (meetsRestrictions variant restrictions maxHwRes) in
  (st.1 ++ [variant'],
   if negb (eqb originalAllowed (Variant.allowedByApplication variant'))
   then true else st.2).

Definition applyRestrictions (period : Period.t)
    (restrictions : Restrictions.t) (maxHwRes : Resolution.t)
    : Period.t * bool :=
  let st := foldl (applyRestrictionsStep restrictions maxHwRes)
                  ([], false) (Period.variants period) in
  (Period.mk (Period.startTime period) st.1 (Period.textStreams period), st.2).

(** ** External collaborators

    The functions below are required from other files of the player
    ([goog.require]); they are interfaces here. *)

(** [shaka.util.LanguageUtils.MatchType] *)
Inductive MatchType : Type :=
| EXACT
| BASE_LANGUAGE_OKAY
| OTHER_SUB_LANGUAGE_OKAY.

(** [shaka.util.LanguageUtils] *)
Class LanguageUtils : Type := {
  normalize : string -> string;
  languageMatch : MatchType -> string -> string -> bool
}.

(** [shaka.media.MediaSourceEngine.isStreamSupported],
    [shaka.text.TextEngine.isTypeSupported] and
    [shaka.util.MimeUtils.getFullType] *)
Class Platform : Type := {
  isStreamSupported : Stream.t -> bool;
  isTypeSupported : string -> bool;
  getFullType : string -> string -> string
}.

(** [shaka.util.ManifestParserUtils] *)
Class ManifestParserUtils : Type := {
  GAP_OVERLAP_TOLERANCE_SECONDS : JS.number
}.

(** Modelled from the spec: [shaka.util.ArrayUtils.removeDuplicates] is not
    in [stream_utils.js]; the spec has "duplicates removed while preserving
    first-seen order".  [seen] is the result built so far. *)
Fixpoint removeDuplicatesFrom (seen array : list string) : list string :=
  match array with
  | [] => seen
  | x :: rest =>
      if bool_decide (x ∈ seen) then removeDuplicatesFrom seen rest
      else removeDuplicatesFrom (seen ++ [x]) rest
  end.

Definition removeDuplicates (array : list string) : list string :=
  removeDuplicatesFrom [] array.

(** Modelled from the spec: [shaka.util.Functional.collapseArrays] is not
    in [stream_utils.js]; the spec has "collect the union of all roles present
    across the current selection ... pick the first role encountered", so
    the reducer appends each part to what was collected. *)
Definition collapseArrays (all part : list string) : list string :=
  all ++ part.

(** ** Compatibility filter *)

Definition isAudio (stream : Stream.t) : bool :=
  bool_decide (Stream.type stream = AUDIO).

Definition isVideo (stream : Stream.t) : bool :=
  bool_decide (Stream.type stream = VIDEO).

(** [drmEngine && drmEngine.initialized()] *)
Definition drmInitialized (drmEngine : option DrmEngine.t) : bool :=
  match drmEngine with
  | Some drm => DrmEngine.initialized drm
  | None => false
  end.

Definition isStreamCompatible_ `{Platform} (stream : option Stream.t)
    (drmEngine : option DrmEngine.t) (activeStream : option Stream.t)
    : option bool :=
  match stream with
  | None => Some true
  | Some stream =>
      _ ← JS.assert (bool_decide (Stream.type stream ≠ TEXT));
      let drmSupportedMimeTypes :=
        match drmEngine with
        | Some drm =>
            if DrmEngine.initialized drm
            then Some (DrmEngine.getSupportedTypes drm) else None
        | None => None
        end in
      let fullMimeType :=
        getFullType (Stream.mimeType stream) (Stream.codecs stream) in
      if negb (isStreamSupported stream) then Some false
      else if match drmSupportedMimeTypes with
              | Some types =>
                  Stream.encrypted stream &&
                  negb (bool_decide (fullMimeType ∈ types))
              | None => false
              end
      then Some false
      else match activeStream with
           | Some activeStream =>
               if bool_decide
                    (Stream.mimeType stream ≠ Stream.mimeType activeStream) ||
                  bool_decide
                    (JS.splitDotHead (Stream.codecs stream) ≠
                     JS.splitDotHead (Stream.codecs activeStream))
               then Some false
               else Some true
           | None => Some true
           end
  end.

Definition isVariantCompatible_ `{Platform} (variant : Variant.t)
    (drmEngine : option DrmEngine.t) (activeAudio activeVideo : option Stream.t)
    : option bool :=
  if match drmEngine with
     | Some drm =>
         DrmEngine.initialized drm &&
         negb (DrmEngine.isSupportedByKeySystem drm variant)
     | None => false
     end
  then Some false
  else
    isStreamCompatible_ (Variant.audio variant) drmEngine activeAudio
    ≫= λ audioOk : bool,
    if audioOk
    then isStreamCompatible_ (Variant.video variant) drmEngine activeVideo
    else Some false.

(** [array.filter(callback)] for a callback that may fail an assertion *)
Fixpoint filterM {A : Type} (callback : A -> option bool) (array : list A)
    : option (list A) :=
  match array with
  | [] => Some []
  | x :: rest =>
      callback x ≫= λ keep : bool,
      kept ← filterM callback rest;
      Some (if keep then x :: kept else kept)
  end.

Definition filterNewPeriod `{Platform} (drmEngine : option DrmEngine.t)
    (activeAudio activeVideo : option Stream.t) (period : Period.t)
    : option Period.t :=
  _ ← match activeAudio with
      | Some activeAudio => JS.assert (isAudio activeAudio)
      | None => Some tt
      end;
  _ ← match activeVideo with
      | Some activeVideo => JS.assert (isVideo activeVideo)
      | None => Some tt
      end;
  variants ← filterM
    (λ variant, isVariantCompatible_ variant drmEngine activeAudio activeVideo)
    (Period.variants period);
  let textStreams :=
    filter (λ stream,
              isTypeSupported
                (getFullType (Stream.mimeType stream) (Stream.codecs stream)))
           (Period.textStreams period) in
  Some (Period.mk (Period.startTime period) variants textStreams).

(** ** Track projection *)

Definition variantToTrack (variant : Variant.t) : Track.t :=
  let audio := Variant.audio variant in
  let video := Variant.video variant in
  let audioCodec := Stream.codecs <$> audio in
  let videoCodec := Stream.codecs <$> video in
  let codecs :=
    match JS.stringOrNull videoCodec with Some c => [c] | None => [] end ++
    match JS.stringOrNull audioCodec with Some c => [c] | None => [] end in
  let mimeTypes :=
    match video with Some video => [Stream.mimeType video] | None => [] end ++
    match audio with Some audio => [Stream.mimeType audio] | None => [] end in
  let mimeType := JS.stringOrNull (head mimeTypes) in
  let kinds :=
    match audio with Some audio => [Stream.kind audio] | None => [] end ++
    match video with Some video => [Stream.kind video] | None => [] end in
  let kind := JS.stringOrNull (mjoin (head kinds)) in
  let roles :=
    match audio with Some audio => Stream.roles audio | None => [] end ++
    match video with Some video => Stream.roles video | None => [] end in
  let roles := removeDuplicates roles in
  {| Track.id := Variant.id variant;
     Track.active := false;
     Track.type := "variant";
     Track.bandwidth := Variant.bandwidth variant;
     Track.language := Variant.language variant;
     Track.label := audio ≫= Stream.label;
     Track.kind := kind;
     Track.width := video ≫= (λ video, JS.numberOrNull (Stream.width video));
     Track.height := video ≫= (λ video, JS.numberOrNull (Stream.height video));
     Track.frameRate :=
       video ≫= (λ video, JS.numberOrNull (Stream.frameRate video));
     Track.mimeType := mimeType;
     Track.codecs := Some (JS.join ", " codecs);
     Track.audioCodec := audioCodec;
     Track.videoCodec := videoCodec;
     Track.primary := Variant.primary variant;
     Track.roles := roles;
     Track.videoId := Stream.id <$> video;
     Track.audioId := Stream.id <$> audio;
     Track.channelsCount := audio ≫= Stream.channelsCount;
     Track.audioBandwidth :=
       audio ≫= (λ audio, JS.numberOrNull (Stream.bandwidth audio));
     Track.videoBandwidth :=
       video ≫= (λ video, JS.numberOrNull (Stream.bandwidth video)) |}.

(** ** Playable variants *)

Definition isPlayable (variant : Variant.t) : bool :=
  Variant.allowedByApplication variant && Variant.allowedByKeySystem variant.

Definition getPlayableVariants (variants : list Variant.t) : list Variant.t :=
  filter (λ variant, isPlayable variant) variants.

(** ** Language and role selector *)

(** The variables of the language search: [chosen], [pref],
    [betterLangMatchFound], and whether the entry of [opt_languageMatches]
    has been set. *)
Record Selection (A : Type) : Type := mkSelection {
  chosen : list A;
  pref : string;
  betterLangMatchFound : bool;
  languageMatches : bool
}.
Arguments mkSelection {A} _ _ _ _.
Arguments chosen {A} _.
Arguments pref {A} _.
Arguments betterLangMatchFound {A} _.
Arguments languageMatches {A} _.

(** The tiers, in the order in which the search visits them. *)
Definition matchTypes : list MatchType :=
  [OTHER_SUB_LANGUAGE_OKAY; BASE_LANGUAGE_OKAY; EXACT].

(** [variant.audio && variant.audio.roles.indexOf(role) >= 0] *)
Definition streamHasRole (stream : option Stream.t) (role : string) : bool :=
  match stream with
  | Some stream => bool_decide (role ∈ Stream.roles stream)
  | None => false
  end.

Definition variantHasRole (role : string) (variant : Variant.t) : bool :=
  streamHasRole (Variant.audio variant) role ||
  streamHasRole (Variant.video variant) role.

Definition filterVariantsByRole_ (variants : list Variant.t)
    (preferredRole : string) : list Variant.t :=
  filter (λ variant, variantHasRole preferredRole variant) variants.

Definition textStreamHasRole (role : string) (stream : Stream.t) : bool :=
  bool_decide (role ∈ Stream.roles stream).

Definition filterTextStreamsByRole_ (textStreams : list Stream.t)
    (preferredRole : string) : list Stream.t :=
  filter (λ stream, textStreamHasRole preferredRole stream) textStreams.

(** Body of [playable.forEach] inside [filterVariantsByLanguageAndRole].
    [chosen.push] writes to the array that [chosen = [variant]] made earlier
    in the same tier, never to [playable]. *)
Definition visitVariant `{LanguageUtils} (matchType : MatchType)
    (st : Selection Variant.t) (variant : Variant.t) : Selection Variant.t :=
  let pref := normalize (pref st) in
  let lang := normalize (Variant.language variant) in
  if languageMatch matchType pref lang
  then mkSelection
         (if betterLangMatchFound st then chosen st ++ [variant] else [variant])
         pref true true
  else mkSelection (chosen st) pref (betterLangMatchFound st)
         (languageMatches st).

(** Body of the [forEach] over the match types. *)
Definition visitMatchType `{LanguageUtils} (playable : list Variant.t)
    (st : Selection Variant.t) (matchType : MatchType) : Selection Variant.t :=
  foldl (visitVariant matchType)
        (mkSelection (chosen st) (pref st) false (languageMatches st))
        playable.

(** [filterVariantsByLanguageAndRole] up to the role preference: the
    primary set, its reduction to one language, the language search. *)
Definition selectVariantsByLanguage `{LanguageUtils}
    (variants : list Variant.t) (preferredLanguage : string)
    : Selection Variant.t :=
  let playable := getPlayableVariants variants in
  let chosen := playable in
  let primary := filter (λ variant, Variant.primary variant) playable in
  let chosen := match primary with [] => chosen | _ :: _ => primary end in
  let firstLanguage :=
    match chosen with variant :: _ => Variant.language variant | [] => "" end in
  let chosen :=
    filter (λ variant, Variant.language variant = firstLanguage) chosen in
  if JS.nonEmpty preferredLanguage
  then foldl (visitMatchType playable)
             (mkSelection chosen (normalize preferredLanguage) false false)
             matchTypes
  else mkSelection chosen preferredLanguage false false.

(** The end of [filterVariantsByLanguageAndRole]: an arbitrary role, if
    there are any, and no other roles. *)
Definition chooseArbitraryVariantRole (chosen : list Variant.t)
    : list Variant.t :=
  let allRoles :=
    foldl collapseArrays []
      (map (λ variant,
              let audioRoles :=
                match Variant.audio variant with
                | Some audio => Stream.roles audio | None => [] end in
              let videoRoles :=
                match Variant.video variant with
                | Some video => Stream.roles video | None => [] end in
              audioRoles ++ videoRoles)
           chosen) in
  match allRoles with
  | [] => chosen
  | role :: _ => filterVariantsByRole_ chosen role
  end.

(** [filterVariantsByLanguageAndRole] from the role preference on. *)
Definition refineVariantsByRole (chosen : list Variant.t)
    (preferredRole : string) : list Variant.t :=
  if JS.nonEmpty preferredRole
  then
    let roleMatches := filterVariantsByRole_ chosen preferredRole in
    match roleMatches with
    | _ :: _ => roleMatches
    | [] => chooseArbitraryVariantRole chosen
    end
  else chooseArbitraryVariantRole chosen.

Definition filterVariantsByLanguageAndRole `{LanguageUtils}
    (variants : list Variant.t) (preferredLanguage preferredRole : string)
    : list Variant.t :=
  refineVariantsByRole
    (chosen (selectVariantsByLanguage variants preferredLanguage))
    preferredRole.

(** Body of [streams.forEach] inside [filterStreamsByLanguageAndRole]. *)
Definition visitStream `{LanguageUtils} (matchType : MatchType)
    (st : Selection Stream.t) (stream : Stream.t) : Selection Stream.t :=
  let lang := normalize (Stream.language stream) in
  if languageMatch matchType (pref st) lang
  then mkSelection
         (if betterLangMatchFound st then chosen st ++ [stream] else [stream])
         (pref st) true true
  else st.

Definition visitStreamMatchType `{LanguageUtils} (streams : list Stream.t)
    (st : Selection Stream.t) (matchType : MatchType) : Selection Stream.t :=
  foldl (visitStream matchType)
        (mkSelection (chosen st) (pref st) false (languageMatches st))
        streams.

Definition selectStreamsByLanguage `{LanguageUtils}
    (streams : list Stream.t) (preferredLanguage : string)
    : Selection Stream.t :=
  let chosen := streams in
  let primary := filter (λ stream, Stream.primary stream) streams in
  let chosen := match primary with [] => chosen | _ :: _ => primary end in
  let firstLanguage :=
    match chosen with stream :: _ => Stream.language stream | [] => "" end in
  let chosen :=
    filter (λ stream, Stream.language stream = firstLanguage) chosen in
  if JS.nonEmpty preferredLanguage
  then foldl (visitStreamMatchType streams)
             (mkSelection chosen (normalize preferredLanguage) false false)
             matchTypes
  else mkSelection chosen preferredLanguage false false.

Definition chooseArbitraryStreamRole (chosen : list Stream.t)
    : list Stream.t :=
  let allRoles :=
    foldl collapseArrays [] (map (λ stream, Stream.roles stream) chosen) in
  match allRoles with
  | [] => chosen
  | role :: _ => filterTextStreamsByRole_ chosen role
  end.

Definition refineStreamsByRole (chosen : list Stream.t)
    (preferredRole : string) : list Stream.t :=
  if JS.nonEmpty preferredRole
  then
    let roleMatches := filterTextStreamsByRole_ chosen preferredRole in
    match roleMatches with
    | _ :: _ => roleMatches
    | [] => chooseArbitraryStreamRole chosen
    end
  else chooseArbitraryStreamRole chosen.

Definition filterStreamsByLanguageAndRole `{LanguageUtils}
    (streams : list Stream.t) (preferredLanguage preferredRole : string)
    : list Stream.t :=
  refineStreamsByRole
    (chosen (selectStreamsByLanguage streams preferredLanguage))
    preferredRole.

(** ** Lookup helpers *)

(** The loop of [findPeriodContainingTime], from index [i] down to 1.  The
    loop starts below [periods.length], so the lookup always succeeds. *)
Fixpoint scanPeriods (threshold : JS.number) (periods : list Period.t)
    (time : JS.number) (i : nat) : nat :=
  match i with
  | O => O
  | S i' =>
      match periods !! i with
      | Some period =>
          if JS.ge (JS.add time threshold) (Period.startTime period)
          then i
          else scanPeriods threshold periods time i'
      | None => scanPeriods threshold periods time i'
      end
  end.

Definition findPeriodContainingTime `{ManifestParserUtils}
    (manifest : Manifest.t) (time : JS.number) : nat :=
  let threshold := GAP_OVERLAP_TOLERANCE_SECONDS in
  scanPeriods threshold (Manifest.periods manifest) time
    (length (Manifest.periods manifest) - 1).

(** ** Reference collaborators and sample manifests

    Used to run the functions above on concrete inputs. *)

Definition lowerCaseChar (c : ascii) : ascii :=
  let n := nat_of_ascii c in
  if (65 <=? n)%nat && (n <=? 90)%nat then ascii_of_nat (n + 32) else c.

Fixpoint lowerCase (s : string) : string :=
  match s with
  | EmptyString => EmptyString
  | String c s' => String (lowerCaseChar c) (lowerCase s')
  end.

(** The part of a language tag before its first '-'. *)
Fixpoint baseLanguage (s : string) : string :=
  match s with
  | EmptyString => EmptyString
  | String c s' =>
      if Ascii.eqb c "-"%char then EmptyString else String c (baseLanguage s')
  end.

(** Modelled from the spec: [shaka.util.LanguageUtils] is not in
    [stream_utils.js] and the spec names only its tiers, "other-sub-language-okay" (loosest),
    "base-language-okay" and "exact" (strictest).  This instance compares
    lower-cased tags: equal tags match at every tier, a candidate equal to
    the base of the preference from "base-language-okay" on, and candidates
    with the same base as the preference at "other-sub-language-okay". *)
Definition referenceLanguageUtils : LanguageUtils :=
  {| normalize := lowerCase;
     languageMatch fuzz preference candidate :=
       String.eqb candidate preference ||
       match fuzz with
       | EXACT => false
       | BASE_LANGUAGE_OKAY =>
           String.eqb candidate (baseLanguage preference)
       | OTHER_SUB_LANGUAGE_OKAY =>
           String.eqb candidate (baseLanguage preference) ||
           String.eqb (baseLanguage candidate) (baseLanguage preference)
       end |}.

(** A platform that plays MP4, WebM and WebVTT: [getFullType] appends the
    codecs parameter when there is one. *)
Definition referencePlatform : Platform :=
  {| isStreamSupported stream :=
       String.eqb (Stream.mimeType stream) "video/mp4" ||
       String.eqb (Stream.mimeType stream) "video/webm" ||
       String.eqb (Stream.mimeType stream) "audio/mp4";
     isTypeSupported fullMimeType := String.eqb fullMimeType "text/vtt";
     getFullType mimeType codecs :=
       if JS.nonEmpty codecs
       then String.append mimeType (String.append "; codecs=" codecs)
       else mimeType |}.

Definition toleranceOf (seconds : Q) : ManifestParserUtils :=
  {| GAP_OVERLAP_TOLERANCE_SECONDS := JS.Fin seconds |}.

Definition sampleStream (id : Z) (type : ContentType) (language : string)
    (mimeType codecs : string) (roles : list string) : Stream.t :=
  {| Stream.id := id; Stream.type := type; Stream.language := language;
     Stream.codecs := codecs; Stream.mimeType := mimeType;
     Stream.bandwidth := None; Stream.roles := roles;
     Stream.primary := false; Stream.encrypted := false;
     Stream.kind := None; Stream.label := None;
     Stream.width := None; Stream.height := None;
     Stream.frameRate := None; Stream.channelsCount := None |}.

Definition sampleVideo (id : Z) (width height : Q) : Stream.t :=
  {| Stream.id := id; Stream.type := VIDEO; Stream.language := "und";
     Stream.codecs := "avc1.4d401f"; Stream.mimeType := "video/mp4";
     Stream.bandwidth := Some (JS.Fin 1000000); Stream.roles := [];
     Stream.primary := false; Stream.encrypted := false;
     Stream.kind := None; Stream.label := None;
     Stream.width := Some (JS.Fin width);
     Stream.height := Some (JS.Fin height);
     Stream.frameRate := Some (JS.Fin 30); Stream.channelsCount := None |}.

(** An audio-only variant, playable, in [language] with the given roles. *)
Definition sampleAudioVariant (id : Z) (language : string)
    (roles : list string) : Variant.t :=
  {| Variant.id := id; Variant.bandwidth := JS.Fin 128000;
     Variant.language := language; Variant.primary := false;
     Variant.audio :=
       Some (sampleStream id AUDIO language "audio/mp4" "mp4a.40.2" roles);
     Variant.video := None;
     Variant.allowedByApplication := true;
     Variant.allowedByKeySystem := true |}.

Definition sampleVideoVariant (id : Z) (width height : Q)
    (allowedByApplication : bool) : Variant.t :=
  {| Variant.id := id; Variant.bandwidth := JS.Fin 1000000;
     Variant.language := "und"; Variant.primary := false;
     Variant.audio := None;
     Variant.video := Some (sampleVideo id width height);
     Variant.allowedByApplication := allowedByApplication;
     Variant.allowedByKeySystem := true |}.

Definition sampleTextStream (id : Z) (language : string)
    (roles : list string) : Stream.t :=
  sampleStream id TEXT language "text/vtt" "" roles.

Definition samplePeriod (startTime : Q) : Period.t :=
  {| Period.startTime := JS.Fin startTime;
     Period.variants := []; Period.textStreams := [] |}.

(** A WebM video-only variant. *)
Definition sampleWebmVariant (id : Z) : Variant.t :=
  {| Variant.id := id; Variant.bandwidth := JS.Fin 900000;
     Variant.language := "und"; Variant.primary := false;
     Variant.audio := None;
     Variant.video :=
       Some (sampleStream id VIDEO "und" "video/webm" "vp9" []);
     Variant.allowedByApplication := true;
     Variant.allowedByKeySystem := true |}.

(** A DRM engine that is initialized, supports every variant and lists no
    MIME type. *)
Definition sampleDrmEngine : DrmEngine.t :=
  {| DrmEngine.initialized := true;
     DrmEngine.isSupportedByKeySystem := λ _, true;
     DrmEngine.getSupportedTypes := [] |}.

(** A period with an MP4 and a WebM variant, a WebVTT and a TTML text
    stream. *)
Definition sampleMixedPeriod : Period.t :=
  {| Period.startTime := JS.Fin 0;
     Period.variants := [sampleVideoVariant 1 1280 720 true; sampleWebmVariant 2];
     Period.textStreams :=
       [sampleStream 3 TEXT "en" "application/ttml+xml" "" [];
        sampleTextStream 4 "en" []] |}.

(** No restriction: every minimum 0, every maximum Infinity. *)
Definition unrestricted : Restrictions.t :=
  {| Restrictions.minWidth := JS.Fin 0; Restrictions.maxWidth := JS.PosInf;
     Restrictions.minHeight := JS.Fin 0; Restrictions.maxHeight := JS.PosInf;
     Restrictions.minPixels := JS.Fin 0; Restrictions.maxPixels := JS.PosInf;
     Restrictions.minBandwidth := JS.Fin 0;
     Restrictions.maxBandwidth := JS.PosInf |}.

Definition withMinWidth (minWidth : Q) (r : Restrictions.t) : Restrictions.t :=
  {| Restrictions.minWidth := JS.Fin minWidth;
     Restrictions.maxWidth := Restrictions.maxWidth r;
     Restrictions.minHeight := Restrictions.minHeight r;
     Restrictions.maxHeight := Restrictions.maxHeight r;
     Restrictions.minPixels := Restrictions.minPixels r;
     Restrictions.maxPixels := Restrictions.maxPixels r;
     Restrictions.minBandwidth := Restrictions.minBandwidth r;
     Restrictions.maxBandwidth := Restrictions.maxBandwidth r |}.

Definition withMaxPixels (maxPixels : Q) (r : Restrictions.t)
    : Restrictions.t :=
  {| Restrictions.minWidth := Restrictions.minWidth r;
     Restrictions.maxWidth := Restrictions.maxWidth r;
     Restrictions.minHeight := Restrictions.minHeight r;
     Restrictions.maxHeight := Restrictions.maxHeight r;
     Restrictions.minPixels := Restrictions.minPixels r;
     Restrictions.maxPixels := JS.Fin maxPixels;
     Restrictions.minBandwidth := Restrictions.minBandwidth r;
     Restrictions.maxBandwidth := Restrictions.maxBandwidth r |}.

Definition withMaxBandwidth (maxBandwidth : Q) (r : Restrictions.t)
    : Restrictions.t :=
  {| Restrictions.minWidth := Restrictions.minWidth r;
     Restrictions.maxWidth := Restrictions.maxWidth r;
     Restrictions.minHeight := Restrictions.minHeight r;
     Restrictions.maxHeight := Restrictions.maxHeight r;
     Restrictions.minPixels := Restrictions.minPixels r;
     Restrictions.maxPixels := Restrictions.maxPixels r;
     Restrictions.minBandwidth := Restrictions.minBandwidth r;
     Restrictions.maxBandwidth := JS.Fin maxBandwidth |}.

Definition unlimitedHardware : Resolution.t :=
  {| Resolution.width := JS.PosInf; Resolution.height := JS.PosInf |}.

(** Periods starting at 0, 10 and 20 seconds. *)
Definition sampleManifest : Manifest.t :=
  {| Manifest.periods := [samplePeriod 0; samplePeriod 10; samplePeriod 20];
     Manifest.minBufferTime := JS.Fin 2 |}.

(** * Properties *)

(** ** Numbers *)

Lemma JS_lt_spec (a b : JS.number) : JS.lt a b = true ↔ JS.Lt a b.
Proof.
  destruct a as [| |x|], b as [| |y|]; simpl;
    try (split; [discriminate | inversion 1]);
    try (split; [constructor | reflexivity]).
  rewrite negb_true_iff. split.
  - intros Hle. constructor. apply Qnot_le_lt. intros Hyx.
    apply Qle_bool_iff in Hyx. congruence.
  - inversion 1 as [? ? Hlt| | |]; subst.
    destruct (Qle_bool y x) eqn:Hle; [|reflexivity].
    apply Qle_bool_iff in Hle. exfalso. exact (Qlt_not_le _ _ Hlt Hle).
Qed.

Lemma JS_Lt_irrefl (a : JS.number) : ¬ JS.Lt a a.
Proof. inversion 1 as [? ? Hlt| | |]; subst. exact (Qlt_irrefl _ Hlt). Qed.

(** ** Lists *)

Lemma filter_bool_spec {A : Type} (f : A -> bool) (l : list A) :
  filter (λ x, f x) l = List.filter f l.
Proof.
  induction l as [|x l IH]; [reflexivity|].
  rewrite filter_cons. simpl. rewrite IH.
  destruct (f x); simpl; reflexivity.
Qed.

(** ** Restriction filter *)

(** The specification's reading of "at least one bound is strictly violated". *)
Definition violatesRestrictions (variant : Variant.t)
    (restrictions : Restrictions.t) (maxHwRes : Resolution.t) : Prop :=
  (∃ video, Variant.video variant = Some video ∧
     let width := JS.toNumber (Stream.width video) in
     let height := JS.toNumber (Stream.height video) in
     JS.Lt width (Restrictions.minWidth restrictions) ∨
     JS.Lt (Restrictions.maxWidth restrictions) width ∨
     JS.Lt (Resolution.width maxHwRes) width ∨
     JS.Lt height (Restrictions.minHeight restrictions) ∨
     JS.Lt (Restrictions.maxHeight restrictions) height ∨
     JS.Lt (Resolution.height maxHwRes) height ∨
     JS.Lt (JS.mul width height) (Restrictions.minPixels restrictions) ∨
     JS.Lt (Restrictions.maxPixels restrictions) (JS.mul width height)) ∨
  JS.Lt (Variant.bandwidth variant) (Restrictions.minBandwidth restrictions) ∨
  JS.Lt (Restrictions.maxBandwidth restrictions) (Variant.bandwidth variant).

(** The specification's reading without a video stream. *)
Definition violatesBandwidth (variant : Variant.t)
    (restrictions : Restrictions.t) : Prop :=
  JS.Lt (Variant.bandwidth variant) (Restrictions.minBandwidth restrictions) ∨
  JS.Lt (Restrictions.maxBandwidth restrictions) (Variant.bandwidth variant).

(** Width and height of the variant's video stream (NaN without one). *)
Definition videoWidth (variant : Variant.t) : JS.number :=
  JS.toNumber (Variant.video variant ≫= Stream.width).

Definition videoHeight (variant : Variant.t) : JS.number :=
  JS.toNumber (Variant.video variant ≫= Stream.height).

(** Restrictions of which the variant sits on every bound. *)
Definition tightRestrictions (variant : Variant.t) : Restrictions.t :=
  let pixels := JS.mul (videoWidth variant) (videoHeight variant) in
  {| Restrictions.minWidth := videoWidth variant;
     Restrictions.maxWidth := videoWidth variant;
     Restrictions.minHeight := videoHeight variant;
     Restrictions.maxHeight := videoHeight variant;
     Restrictions.minPixels := pixels;
     Restrictions.maxPixels := pixels;
     Restrictions.minBandwidth := Variant.bandwidth variant;
     Restrictions.maxBandwidth := Variant.bandwidth variant |}.

Definition tightResolution (variant : Variant.t) : Resolution.t :=
  {| Resolution.width := videoWidth variant;
     Resolution.height := videoHeight variant |}.

Lemma meetsRestrictions_false_iff variant restrictions maxHwRes :
  meetsRestrictions variant restrictions maxHwRes = false ↔
  violatesRestrictions variant restrictions maxHwRes.
Proof.
  unfold meetsRestrictions, violatesRestrictions, JS.gt.
  destruct (Variant.video variant) as [video|]; simpl.
  - match goal with
    | |- (if ?v then false else if ?b then false else true) = false ↔ _ =>
        assert (Hv : v = true ↔
          JS.Lt (JS.toNumber (Stream.width video))
                (Restrictions.minWidth restrictions) ∨
          JS.Lt (Restrictions.maxWidth restrictions)
                (JS.toNumber (Stream.width video)) ∨
          JS.Lt (Resolution.width maxHwRes) (JS.toNumber (Stream.width video)) ∨
          JS.Lt (JS.toNumber (Stream.height video))
                (Restrictions.minHeight restrictions) ∨
          JS.Lt (Restrictions.maxHeight restrictions)
                (JS.toNumber (Stream.height video)) ∨
          JS.Lt (Resolution.height maxHwRes)
                (JS.toNumber (Stream.height video)) ∨
          JS.Lt (JS.mul (JS.toNumber (Stream.width video))
                        (JS.toNumber (Stream.height video)))
                (Restrictions.minPixels restrictions) ∨
          JS.Lt (Restrictions.maxPixels restrictions)
                (JS.mul (JS.toNumber (Stream.width video))
                        (JS.toNumber (Stream.height video))))
          by (rewrite !orb_true_iff, !JS_lt_spec; tauto);
        assert (Hb : b = true ↔
          JS.Lt (Variant.bandwidth variant)
                (Restrictions.minBandwidth restrictions) ∨
          JS.Lt (Restrictions.maxBandwidth restrictions)
                (Variant.bandwidth variant))
          by (rewrite orb_true_iff, !JS_lt_spec; tauto);
        destruct v, b
    end.
    all: split; [intros Hf | intros Hviol]; try reflexivity; try discriminate.
    + left. exists video. split; [reflexivity|]. apply Hv. reflexivity.
    + left. exists video. split; [reflexivity|]. apply Hv. reflexivity.
    + right. apply Hb. reflexivity.
    + destruct Hviol as [(video' & Heq & Hviol)|Hviol].
      * injection Heq as <-. apply Hv in Hviol. discriminate.
      * apply Hb in Hviol. discriminate.
  - rewrite <- !JS_lt_spec, <- orb_true_iff.
    destruct (_ || _); split; try reflexivity; try discriminate.
    + intros _. right. reflexivity.
    + intros [(video & Heq & _)|Hb]; [discriminate | discriminate].
Qed.

(** C4.  [meetsRestrictions] returns false exactly when a bound is strictly
    violated: with a video stream, its width or height lies outside the
    configured interval or above the hardware cap, or its pixel count
    [width * height] lies outside [minPixels, maxPixels], or the variant's
    bandwidth lies outside [minBandwidth, maxBandwidth]; without a video
    stream the bandwidth bounds alone decide.  A variant whose width,
    height, pixel count and bandwidth are all exactly on their bounds
    passes. *)
Theorem meetsRestrictions_rejects_iff_violated :
  ∀ (variant : Variant.t) (restrictions : Restrictions.t)
    (maxHwRes : Resolution.t),
    (meetsRestrictions variant restrictions maxHwRes = false ↔
     violatesRestrictions variant restrictions maxHwRes) ∧
    (Variant.video variant = None →
     (meetsRestrictions variant restrictions maxHwRes = false ↔
      violatesBandwidth variant restrictions)) ∧
    meetsRestrictions variant (tightRestrictions variant)
      (tightResolution variant) = true.
Proof.
  intros variant restrictions maxHwRes. split; [|split].
  - apply meetsRestrictions_false_iff.
  - intros Hnone. rewrite meetsRestrictions_false_iff.
    unfold violatesRestrictions, violatesBandwidth. rewrite Hnone.
    split; [intros [(video & Heq & _)|Hb]; [discriminate | exact Hb]|].
    intros Hb. right. exact Hb.
  - destruct (meetsRestrictions variant (tightRestrictions variant)
                (tightResolution variant)) eqn:E; [reflexivity|].
    apply meetsRestrictions_false_iff in E. exfalso.
    unfold violatesRestrictions, tightRestrictions, tightResolution,
      videoWidth, videoHeight in E. simpl in E.
    destruct E as [(video & Heq & Hviol)|[Hb|Hb]].
    + rewrite Heq in Hviol. simpl in Hviol.
      repeat (destruct Hviol as [Hviol|Hviol];
              [exact (JS_Lt_irrefl _ Hviol)|]).
      exact (JS_Lt_irrefl _ Hviol).
    + exact (JS_Lt_irrefl _ Hb).
    + exact (JS_Lt_irrefl _ Hb).
Qed.

(** An audio-only variant of 128000 bits per second against a cap of
    100000. *)
Lemma meetsRestrictions_rejects_iff_violated_witness :
  meetsRestrictions (sampleAudioVariant 1 "en" [])
    (withMaxBandwidth 100000 unrestricted) unlimitedHardware = false.
Proof.
  apply (proj1 (proj2 (meetsRestrictions_rejects_iff_violated
                         (sampleAudioVariant 1 "en" [])
                         (withMaxBandwidth 100000 unrestricted)
                         unlimitedHardware)) eq_refl).
  right. constructor. reflexivity.
Defined.

Example width_on_minWidth_passes :
  meetsRestrictions (sampleVideoVariant 1 1920 1080 true)
    (withMinWidth 1920 unrestricted) unlimitedHardware = true.
Proof. reflexivity. Qed.

Example width_below_minWidth_fails :
  meetsRestrictions (sampleVideoVariant 1 1920 1080 true)
    (withMinWidth 1921 unrestricted) unlimitedHardware = false.
Proof. reflexivity. Qed.

Example pixels_on_maxPixels_pass :
  meetsRestrictions (sampleVideoVariant 1 1920 1080 true)
    (withMaxPixels 2073600 unrestricted) unlimitedHardware = true.
Proof. reflexivity. Qed.

Example pixels_above_maxPixels_fail :
  meetsRestrictions (sampleVideoVariant 1 1920 1080 true)
    (withMaxPixels 2073599 unrestricted) unlimitedHardware = false.
Proof. reflexivity. Qed.

Example width_above_hardware_fails :
  meetsRestrictions (sampleVideoVariant 1 1920 1080 true) unrestricted
    {| Resolution.width := JS.Fin 1280; Resolution.height := JS.Fin 720 |} =
  false.
Proof. reflexivity. Qed.

Lemma meetsRestrictions_setAllowed variant b restrictions maxHwRes :
  meetsRestrictions (Variant.setAllowedByApplication variant b)
    restrictions maxHwRes =
  meetsRestrictions variant restrictions maxHwRes.
Proof. reflexivity. Qed.

(** What one visit of [applyRestrictions] leaves of a variant. *)
Definition restricted (restrictions : Restrictions.t)
    (maxHwRes : Resolution.t) (variant : Variant.t) : Variant.t :=
  Variant.setAllowedByApplication variant
    (meetsRestrictions variant restrictions maxHwRes).

(** Whether the visit flips the variant's flag. *)
Definition flips (restrictions : Restrictions.t) (maxHwRes : Resolution.t)
    (variant : Variant.t) : bool :=
  negb (eqb (Variant.allowedByApplication variant)
            (meetsRestrictions variant restrictions maxHwRes)).

Lemma applyRestrictions_loop restrictions maxHwRes variants :
  ∀ visited tracksChanged,
    foldl (applyRestrictionsStep restrictions maxHwRes)
          (visited, tracksChanged) variants =
    (visited ++ map (restricted restrictions maxHwRes) variants,
     tracksChanged || existsb (flips restrictions maxHwRes) variants).
Proof.
  induction variants as [|variant variants IH]; intros visited tracksChanged.
  - simpl. by rewrite app_nil_r, orb_false_r.
  - simpl. unfold applyRestrictionsStep at 2. simpl. rewrite IH.
    rewrite <- app_assoc. simpl. f_equal.
    unfold flips at 2.
    destruct (negb _); simpl; [by rewrite orb_true_r | reflexivity].
Qed.

Lemma flips_restricted restrictions maxHwRes variant :
  flips restrictions maxHwRes (restricted restrictions maxHwRes variant) = false.
Proof.
  unfold flips, restricted. rewrite meetsRestrictions_setAllowed. simpl.
  by rewrite eqb_reflx.
Qed.

(** C5.  [applyRestrictions] leaves every variant of the period with
    [allowedByApplication] equal to [meetsRestrictions] of that variant,
    touches nothing else, and returns true exactly when the flag of at least
    one variant changed; a second call with the same restrictions and
    hardware cap on the resulting period returns false. *)
Theorem applyRestrictions_changed_iff_flag_flipped :
  ∀ (period : Period.t) (restrictions : Restrictions.t)
    (maxHwRes : Resolution.t),
    let period' := (applyRestrictions period restrictions maxHwRes).1 in
    let changed := (applyRestrictions period restrictions maxHwRes).2 in
    Period.variants period' =
      map (λ variant,
             Variant.setAllowedByApplication variant
               (meetsRestrictions variant restrictions maxHwRes))
          (Period.variants period) ∧
    Forall (λ variant,
              Variant.allowedByApplication variant =
              meetsRestrictions variant restrictions maxHwRes)
           (Period.variants period') ∧
    Period.startTime period' = Period.startTime period ∧
    Period.textStreams period' = Period.textStreams period ∧
    (changed = true ↔
     Exists (λ variant,
               Variant.allowedByApplication variant ≠
               meetsRestrictions variant restrictions maxHwRes)
            (Period.variants period)) ∧
    (applyRestrictions period' restrictions maxHwRes).2 = false.
Proof.
  intros period restrictions maxHwRes. simpl.
  unfold applyRestrictions. rewrite applyRestrictions_loop. simpl.
  split; [reflexivity|]. split; [|split; [reflexivity|split; [reflexivity|]]].
  - apply Forall_forall. intros variant' Hin.
    apply list_elem_of_fmap in Hin as (variant & -> & _).
    unfold restricted. by rewrite meetsRestrictions_setAllowed.
  - split.
    + rewrite Exists_exists. split.
      * intros Hex. apply existsb_exists in Hex as (variant & Hin & Hflip).
        exists variant. split; [by apply list_elem_of_In|].
        unfold flips in Hflip. apply negb_true_iff, eqb_false_iff in Hflip.
        exact Hflip.
      * intros (variant & Hin & Hne). apply existsb_exists.
        exists variant. split; [by apply list_elem_of_In|].
        unfold flips. by apply negb_true_iff, eqb_false_iff.
    + rewrite applyRestrictions_loop. simpl.
      induction (Period.variants period) as [|variant variants IH];
        [reflexivity|].
      simpl. by rewrite flips_restricted.
Qed.

Example applyRestrictions_twice :
  let period :=
    {| Period.startTime := JS.Fin 0;
       Period.variants := [sampleVideoVariant 1 1920 1080 true;
                           sampleVideoVariant 2 1280 720 true];
       Period.textStreams := [] |} in
  let maxHwRes :=
    {| Resolution.width := JS.Fin 1280; Resolution.height := JS.Fin 720 |} in
  let first := applyRestrictions period unrestricted maxHwRes in
  Period.variants first.1 = [sampleVideoVariant 1 1920 1080 false;
                             sampleVideoVariant 2 1280 720 true] ∧
  first.2 = true ∧
  applyRestrictions first.1 unrestricted maxHwRes = (first.1, false).
Proof. vm_compute. done. Qed.

(** ** Playable variants *)

(** C6.  [getPlayableVariants] is the input filtered by
    [allowedByApplication && allowedByKeySystem]: a subsequence of the input
    in the input's order, holding exactly the variants with both flags set;
    [isPlayable] is that conjunction. *)
Theorem getPlayableVariants_stable_filter :
  ∀ variants : list Variant.t,
    getPlayableVariants variants =
      List.filter (λ variant,
                     Variant.allowedByApplication variant &&
                     Variant.allowedByKeySystem variant)
                  variants ∧
    getPlayableVariants variants `sublist_of` variants ∧
    (∀ variant,
       variant ∈ getPlayableVariants variants ↔
       variant ∈ variants ∧
       Variant.allowedByApplication variant = true ∧
       Variant.allowedByKeySystem variant = true) ∧
    (∀ variant,
       isPlayable variant =
       Variant.allowedByApplication variant &&
       Variant.allowedByKeySystem variant).
Proof.
  intros variants. unfold getPlayableVariants.
  split; [apply (filter_bool_spec isPlayable)|].
  split; [apply sublist_filter|]. split; [|reflexivity].
  intros variant. rewrite list_elem_of_filter. unfold isPlayable.
  rewrite andb_True, !Is_true_true. tauto.
Qed.

(** ** Compatibility filter *)

Section Compatibility.
Context `{Platform}.
Variable drmEngine : option DrmEngine.t.

(** The specification's reading of a stream that is compatible with the key
    system, the platform and the active stream of its kind. *)
Definition streamCompatible (activeStream : option Stream.t)
    (stream : Stream.t) : Prop :=
  isStreamSupported stream = true ∧
  match drmEngine with
  | Some drm =>
      DrmEngine.initialized drm = true → Stream.encrypted stream = true →
      getFullType (Stream.mimeType stream) (Stream.codecs stream)
        ∈ DrmEngine.getSupportedTypes drm
  | None => True
  end ∧
  match activeStream with
  | Some activeStream =>
      Stream.mimeType stream = Stream.mimeType activeStream ∧
      JS.splitDotHead (Stream.codecs stream) =
      JS.splitDotHead (Stream.codecs activeStream)
  | None => True
  end.

Definition presentStreamCompatible (activeStream : option Stream.t)
    (stream : option Stream.t) : Prop :=
  match stream with
  | Some stream => streamCompatible activeStream stream
  | None => True
  end.

(** The specification's reading of a variant that remains in the period. *)
Definition variantSurvives (activeAudio activeVideo : option Stream.t)
    (variant : Variant.t) : Prop :=
  match drmEngine with
  | Some drm =>
      DrmEngine.initialized drm = true →
      DrmEngine.isSupportedByKeySystem drm variant = true
  | None => True
  end ∧
  presentStreamCompatible activeAudio (Variant.audio variant) ∧
  presentStreamCompatible activeVideo (Variant.video variant).

(** The specification's reading of a text stream that remains in the period. *)
Definition textStreamSurvives (stream : Stream.t) : Prop :=
  isTypeSupported
    (getFullType (Stream.mimeType stream) (Stream.codecs stream)) = true.

(** What the assertions of [filterNewPeriod] ask of its arguments. *)
Definition notText (stream : option Stream.t) : Prop :=
  match stream with
  | Some stream => Stream.type stream ≠ TEXT
  | None => True
  end.

Definition hasType (type : ContentType) (stream : option Stream.t) : Prop :=
  match stream with
  | Some stream => Stream.type stream = type
  | None => True
  end.

Definition audioVideoOnly (variant : Variant.t) : Prop :=
  notText (Variant.audio variant) ∧ notText (Variant.video variant).

Global Instance streamCompatible_dec activeStream stream :
  Decision (streamCompatible activeStream stream).
Proof.
  unfold streamCompatible. destruct drmEngine, activeStream; apply _.
Defined.

Global Instance presentStreamCompatible_dec activeStream stream :
  Decision (presentStreamCompatible activeStream stream).
Proof. destruct stream; apply _. Defined.

Global Instance variantSurvives_dec activeAudio activeVideo variant :
  Decision (variantSurvives activeAudio activeVideo variant).
Proof. unfold variantSurvives. destruct drmEngine; apply _. Defined.

Global Instance textStreamSurvives_dec stream :
  Decision (textStreamSurvives stream).
Proof. unfold textStreamSurvives. apply _. Defined.

Lemma isStreamCompatible__present activeStream stream :
  Stream.type stream ≠ TEXT →
  isStreamCompatible_ (Some stream) drmEngine activeStream =
  Some (bool_decide (streamCompatible activeStream stream)).
Proof.
  intros Htype. unfold isStreamCompatible_.
  rewrite (bool_decide_eq_true_2 _ Htype). simpl.
  case_bool_decide as Hcompat; unfold streamCompatible in Hcompat.
  - destruct Hcompat as (-> & Hdrm & Hactive). simpl.
    destruct drmEngine as [drm|], activeStream as [active|]; simpl;
      try destruct (DrmEngine.initialized drm);
      try destruct (Stream.encrypted stream); simpl;
      repeat case_bool_decide; simpl; try reflexivity;
      exfalso; intuition congruence.
  - destruct (isStreamSupported stream); [|reflexivity]. simpl.
    destruct drmEngine as [drm|], activeStream as [active|]; simpl;
      try destruct (DrmEngine.initialized drm);
      try destruct (Stream.encrypted stream); simpl;
      repeat case_bool_decide; simpl; try reflexivity;
      exfalso; apply Hcompat; intuition congruence.
Qed.

Lemma isStreamCompatible__spec activeStream stream :
  notText stream →
  isStreamCompatible_ stream drmEngine activeStream =
  Some (bool_decide (presentStreamCompatible activeStream stream)).
Proof.
  destruct stream as [stream|]; [apply isStreamCompatible__present|].
  reflexivity.
Qed.

Lemma isVariantCompatible__spec activeAudio activeVideo variant :
  audioVideoOnly variant →
  isVariantCompatible_ variant drmEngine activeAudio activeVideo =
  Some (bool_decide (variantSurvives activeAudio activeVideo variant)).
Proof.
  intros [Haudio Hvideo]. unfold isVariantCompatible_.
  rewrite (isStreamCompatible__spec _ _ Haudio).
  rewrite (isStreamCompatible__spec _ _ Hvideo). simpl.
  destruct (decide (variantSurvives activeAudio activeVideo variant))
    as [Hs|Hs].
  - rewrite (bool_decide_eq_true_2 _ Hs). destruct Hs as (Hdrm & Ha & Hv).
    rewrite (bool_decide_eq_true_2 _ Ha), (bool_decide_eq_true_2 _ Hv).
    destruct drmEngine as [drm|]; [|reflexivity].
    destruct (DrmEngine.initialized drm); [|reflexivity].
    by rewrite Hdrm.
  - rewrite (bool_decide_eq_false_2 _ Hs). unfold variantSurvives in Hs.
    destruct drmEngine as [drm|];
      [destruct (DrmEngine.initialized drm);
       destruct (DrmEngine.isSupportedByKeySystem drm variant)|];
      simpl; try reflexivity;
      repeat case_bool_decide; try reflexivity; exfalso; apply Hs; tauto.
Qed.

Lemma filterM_total {A : Type} (callback : A → option bool)
    (P : A → Prop) `{!∀ x, Decision (P x)} (array : list A) :
  Forall (λ x, callback x = Some (bool_decide (P x))) array →
  filterM callback array = Some (filter P array).
Proof.
  induction 1 as [|x array Hx _ IH]; [reflexivity|].
  simpl. rewrite Hx, IH. simpl. rewrite filter_cons.
  by case_bool_decide; case_decide.
Qed.

End Compatibility.

Lemma filterNewPeriod_Some `{Platform} drmEngine activeAudio activeVideo
    period :
  hasType AUDIO activeAudio → hasType VIDEO activeVideo →
  Forall audioVideoOnly (Period.variants period) →
  filterNewPeriod drmEngine activeAudio activeVideo period =
  Some {| Period.startTime := Period.startTime period;
          Period.variants :=
            filter (variantSurvives drmEngine activeAudio activeVideo)
                   (Period.variants period);
          Period.textStreams :=
            filter textStreamSurvives (Period.textStreams period) |}.
Proof.
  intros Haudio Hvideo Hvariants. unfold filterNewPeriod.
  assert (Hassert : ∀ type (active : option Stream.t),
            hasType type active →
            match active with
            | Some active =>
                JS.assert (bool_decide (Stream.type active = type))
            | None => Some tt
            end = Some tt).
  { intros type [active|] Htype; [|reflexivity].
    by rewrite (bool_decide_eq_true_2 _ Htype). }
  unfold isAudio, isVideo.
  rewrite (Hassert _ _ Haudio), (Hassert _ _ Hvideo). simpl.
  rewrite (filterM_total _ (variantSurvives drmEngine activeAudio activeVideo)).
  - simpl. do 2 f_equal. apply list_filter_iff. intros stream.
    unfold textStreamSurvives. apply Is_true_true.
  - eapply Forall_impl; [exact Hvariants|]. intros variant Hvariant.
    by apply isVariantCompatible__spec.
Qed.

Lemma isStreamCompatible__sound `{Platform} drmEngine activeStream stream b :
  isStreamCompatible_ stream drmEngine activeStream = Some b →
  b = bool_decide (presentStreamCompatible drmEngine activeStream stream).
Proof.
  destruct stream as [stream|]; [|by intros [= <-]].
  destruct (decide (Stream.type stream ≠ TEXT)) as [Htype|Htype].
  - rewrite (isStreamCompatible__present _ _ _ Htype). by intros [= <-].
  - unfold isStreamCompatible_.
    rewrite (bool_decide_eq_false_2 _ Htype). discriminate.
Qed.

Lemma isVariantCompatible__sound `{Platform} drmEngine activeAudio
    activeVideo variant b :
  isVariantCompatible_ variant drmEngine activeAudio activeVideo = Some b →
  b = bool_decide (variantSurvives drmEngine activeAudio activeVideo variant).
Proof.
  unfold isVariantCompatible_.
  destruct (match drmEngine with
            | Some drm =>
                DrmEngine.initialized drm &&
                negb (DrmEngine.isSupportedByKeySystem drm variant)
            | None => false
            end) eqn:Hdrm.
  - intros [= <-]. symmetry. apply bool_decide_eq_false_2.
    intros (Hsupported & _). destruct drmEngine as [drm|]; [|discriminate].
    apply andb_true_iff in Hdrm as [Hinit Hnot].
    rewrite (Hsupported Hinit) in Hnot. discriminate.
  - assert (Hkey : match drmEngine with
                   | Some drm =>
                       DrmEngine.initialized drm = true →
                       DrmEngine.isSupportedByKeySystem drm variant = true
                   | None => True
                   end).
    { destruct drmEngine as [drm|]; [|done]. intros Hinit.
      rewrite Hinit in Hdrm. simpl in Hdrm. by apply negb_false_iff. }
    destruct (isStreamCompatible_ (Variant.audio variant) drmEngine
                activeAudio) as [audioOk|] eqn:Haudio; [|discriminate].
    apply isStreamCompatible__sound in Haudio. simpl.
    destruct audioOk.
    + intros Hvideo%isStreamCompatible__sound. subst b.
      symmetry in Haudio. apply bool_decide_eq_true_1 in Haudio.
      apply bool_decide_ext. unfold variantSurvives. tauto.
    + intros [= <-]. symmetry in Haudio.
      apply bool_decide_eq_false_1 in Haudio.
      symmetry. apply bool_decide_eq_false_2. unfold variantSurvives. tauto.
Qed.

Lemma filterM_sound {A : Type} (callback : A → option bool)
    (P : A → Prop) `{!∀ x, Decision (P x)} (array : list A) :
  (∀ x b, callback x = Some b → b = bool_decide (P x)) →
  ∀ kept, filterM callback array = Some kept → kept = filter P array.
Proof.
  intros Hcallback.
  induction array as [|x array IH]; intros kept; simpl; [by intros [= <-]|].
  destruct (callback x) as [keep|] eqn:Hx; [|discriminate]. simpl.
  destruct (filterM callback array) as [kept'|]; [|discriminate]. simpl.
  intros [= <-]. rewrite (IH kept' eq_refl), filter_cons.
  rewrite (Hcallback _ _ Hx). by case_bool_decide; case_decide.
Qed.

Lemma filterNewPeriod_sound `{Platform} drmEngine activeAudio activeVideo
    period period' :
  filterNewPeriod drmEngine activeAudio activeVideo period = Some period' →
  period' =
  {| Period.startTime := Period.startTime period;
     Period.variants :=
       filter (variantSurvives drmEngine activeAudio activeVideo)
              (Period.variants period);
     Period.textStreams :=
       filter textStreamSurvives (Period.textStreams period) |}.
Proof.
  unfold filterNewPeriod.
  destruct (match activeAudio with
            | Some activeAudio => JS.assert (isAudio activeAudio)
            | None => Some tt
            end); [|discriminate]. simpl.
  destruct (match activeVideo with
            | Some activeVideo => JS.assert (isVideo activeVideo)
            | None => Some tt
            end); [|discriminate]. simpl.
  destruct (filterM _ (Period.variants period)) as [kept|] eqn:Hkept;
    [|discriminate]. simpl.
  intros [= <-]. f_equal.
  - eapply filterM_sound; [|exact Hkept].
    intros variant b. apply isVariantCompatible__sound.
  - apply list_filter_iff. intros stream. unfold textStreamSurvives.
    apply Is_true_true.
Qed.

(** C3.  [filterNewPeriod] returns when the active streams have their types
    and no variant pairs a text stream.  In the period it leaves, a text
    stream remains iff the text engine supports its full MIME type, and a
    variant remains iff an initialized DRM engine reports it supported by
    the key system and each of its audio and video streams is playable by
    the platform, has its full MIME type among the DRM engine's supported
    types when that engine is initialized and the stream is encrypted, and
    has the MIME type and the codec prefix before the first '.' of the
    active stream of its kind when there is one; survivors keep their
    relative order. *)
Theorem filterNewPeriod_keeps_exactly_compatible :
  ∀ (platform : Platform) (drmEngine : option DrmEngine.t)
    (activeAudio activeVideo : option Stream.t) (period : Period.t),
    (hasType AUDIO activeAudio → hasType VIDEO activeVideo →
     Forall audioVideoOnly (Period.variants period) →
     is_Some (filterNewPeriod drmEngine activeAudio activeVideo period)) ∧
    (∀ period',
       filterNewPeriod drmEngine activeAudio activeVideo period =
         Some period' →
       Period.variants period' =
         filter (variantSurvives drmEngine activeAudio activeVideo)
                (Period.variants period) ∧
       Period.textStreams period' =
         filter textStreamSurvives (Period.textStreams period) ∧
       Period.startTime period' = Period.startTime period ∧
       (∀ variant,
          variant ∈ Period.variants period' ↔
          variant ∈ Period.variants period ∧
          variantSurvives drmEngine activeAudio activeVideo variant) ∧
       (∀ stream,
          stream ∈ Period.textStreams period' ↔
          stream ∈ Period.textStreams period ∧ textStreamSurvives stream) ∧
       Period.variants period' `sublist_of` Period.variants period ∧
       Period.textStreams period' `sublist_of` Period.textStreams period).
Proof.
  intros platform drmEngine activeAudio activeVideo period. split.
  - intros Ha Hv Hvariants. rewrite filterNewPeriod_Some by done. by eexists.
  - intros period' ->%filterNewPeriod_sound. simpl.
    split; [reflexivity|]. split; [reflexivity|]. split; [reflexivity|].
    split; [|split; [|split; apply sublist_filter]].
    + intros variant. rewrite list_elem_of_filter. tauto.
    + intros stream. rewrite list_elem_of_filter. tauto.
Qed.

Example filterNewPeriod_sample :
  filterNewPeriod (H := referencePlatform) (Some sampleDrmEngine) None
    (Some (sampleVideo 9 1920 1080)) sampleMixedPeriod =
  Some {| Period.startTime := JS.Fin 0;
          Period.variants := [sampleVideoVariant 1 1280 720 true];
          Period.textStreams := [sampleTextStream 4 "en" []] |}.
Proof. vm_compute. reflexivity. Qed.

Lemma filterNewPeriod_keeps_exactly_compatible_witness :
  ∃ period',
    filterNewPeriod (H := referencePlatform) (Some sampleDrmEngine) None
      (Some (sampleVideo 9 1920 1080)) sampleMixedPeriod = Some period' ∧
    Period.variants period' = [sampleVideoVariant 1 1280 720 true] ∧
    Period.textStreams period' = [sampleTextStream 4 "en" []].
Proof.
  destruct (filterNewPeriod_keeps_exactly_compatible referencePlatform
              (Some sampleDrmEngine) None (Some (sampleVideo 9 1920 1080))
              sampleMixedPeriod)
    as [Hreturns Hleaves].
  destruct Hreturns as [period' Hperiod'].
  - exact I.
  - reflexivity.
  - repeat constructor; simpl; discriminate.
  - exists period'. split; [exact Hperiod'|].
    destruct (Hleaves period' Hperiod') as (-> & -> & _).
    split; vm_compute; reflexivity.
Defined.

(** ** Lookup helpers *)

(** Period [i] exists and starts no later than [time + threshold]. *)
Definition reaches (threshold : JS.number) (periods : list Period.t)
    (time : JS.number) (i : nat) : Prop :=
  ∃ period, periods !! i = Some period ∧
            JS.le (Period.startTime period) (JS.add time threshold) = true.

Lemma scanPeriods_spec threshold periods time (i : nat) :
  let r := scanPeriods threshold periods time i in
  (r ≤ i)%nat ∧
  (r = 0%nat ∨ reaches threshold periods time r) ∧
  (∀ j, (r < j)%nat → (j ≤ i)%nat → ¬ reaches threshold periods time j).
Proof.
  induction i as [|i IH]; simpl.
  - split; [lia|]. split; [by left|]. intros j ? ?. lia.
  - destruct IH as (Hle & Hr & Hlargest).
    assert (Hskip : ¬ reaches threshold periods time (S i) →
      (scanPeriods threshold periods time i ≤ S i)%nat ∧
      (scanPeriods threshold periods time i = 0%nat ∨
       reaches threshold periods time (scanPeriods threshold periods time i)) ∧
      ∀ j, (scanPeriods threshold periods time i < j)%nat → (j ≤ S i)%nat →
           ¬ reaches threshold periods time j).
    { intros Hnot. split; [lia|]. split; [exact Hr|]. intros j Hlt Hj.
      destruct (decide (j = S i)) as [->|Hne]; [exact Hnot|].
      apply Hlargest; lia. }
    destruct (periods !! S i) as [period|] eqn:Hperiod.
    + destruct (JS.ge (JS.add time threshold) (Period.startTime period))
        eqn:Hge.
      * split; [lia|]. split; [|intros j ? ?; lia].
        right. exists period. by split.
      * apply Hskip. intros (period' & Hlookup & Hreach).
        rewrite Hperiod in Hlookup. injection Hlookup as <-.
        unfold JS.le in Hreach. congruence.
    + apply Hskip. intros (period' & Hlookup & _). congruence.
Qed.

Lemma reaches_lt_length threshold periods time i :
  reaches threshold periods time i → (i < length periods)%nat.
Proof. intros (period & Hlookup & _). by eapply lookup_lt_Some. Qed.

(** The periods start at the given times, in order. *)
Definition startAt (periods : list Period.t) (times : list Q) : Prop :=
  Forall2 (λ period t,
             ∃ x, Period.startTime period = JS.Fin x ∧ (x == t)%Q)
          periods times.

(** C9.  [findPeriodContainingTime] returns the largest index [i] with
    [periods[i].startTime <= time + tolerance] when an index above 0 has that
    property, and 0 when none has.  For periods starting at 0, 10 and 20 and
    time 9.999999 it returns 1 with a tolerance above 0.000001.

    The tolerance is the constant [GAP_OVERLAP_TOLERANCE_SECONDS] of
    [ManifestParserUtils], a module that is not among the sources here; the
    function has no tolerance argument.  The constant absorbs the rounding of
    segment times, so it is taken to be shorter than the ten seconds between
    two period starts.  Both bounds are away from the sums at which rounding
    of [time + tolerance] could change a comparison: 9.999999 plus a
    tolerance above 0.000001 is at least 10, and with a tolerance below 10 it
    is below 20, in exact arithmetic and in double precision alike. *)
Theorem findPeriodContainingTime_largest_reached :
  (∀ (utils : ManifestParserUtils) (manifest : Manifest.t) (time : JS.number),
     let r := findPeriodContainingTime manifest time in
     let reached :=
       reaches GAP_OVERLAP_TOLERANCE_SECONDS (Manifest.periods manifest) time in
     ((∃ i, (0 < i)%nat ∧ reached i) →
      reached r ∧ ∀ i, reached i → (i ≤ r)%nat) ∧
     ((∀ i, (0 < i)%nat → ¬ reached i) → r = 0%nat)) ∧
  (∀ (tolerance : Q) (manifest : Manifest.t),
     startAt (Manifest.periods manifest) [0; 10; 20]%Q →
     (0.000001 < tolerance)%Q → (tolerance < 10)%Q →
     findPeriodContainingTime (H := toleranceOf tolerance) manifest
       (JS.Fin 9.999999) = 1%nat).
Proof.
  split.
  - intros utils manifest time. simpl. unfold findPeriodContainingTime.
    set (periods := Manifest.periods manifest).
    set (threshold := GAP_OVERLAP_TOLERANCE_SECONDS).
    destruct (scanPeriods_spec threshold periods time (length periods - 1))
      as (Hle & Hr & Hlargest).
    set (r := scanPeriods threshold periods time (length periods - 1)) in *.
    assert (Hbelow : ∀ i, reaches threshold periods time i → (i ≤ r)%nat).
    { intros i Hi. destruct (decide (i ≤ r)%nat) as [|Hgt]; [done|].
      exfalso. apply (Hlargest i); [lia| |exact Hi].
      apply reaches_lt_length in Hi. lia. }
    split.
    + intros (i & Hpos & Hi). split; [|exact Hbelow].
      destruct Hr as [Hzero|Hr]; [|exact Hr].
      apply Hbelow in Hi. lia.
    + intros Hnone. destruct Hr as [Hzero|Hr]; [exact Hzero|].
      destruct (decide (r = 0%nat)) as [|Hne]; [done|].
      destruct (Hnone r); [lia | exact Hr].
  - intros tolerance manifest Hstart Hlow Hhigh.
    unfold findPeriodContainingTime, toleranceOf.
    destruct (Manifest.periods manifest) as [|p0 [|p1 [|p2 [|p3 periods]]]];
      try (exfalso; repeat (inversion Hstart; subst; clear Hstart;
                            try match goal with
                                | H : Forall2 _ _ _ |- _ => rename H into Hstart
                                end); fail).
    inversion Hstart as [|? ? ? ? _ Hstart1]; subst.
    inversion Hstart1 as [|? ? ? ? (x1 & Hp1 & Hx1) Hstart2]; subst.
    inversion Hstart2 as [|? ? ? ? (x2 & Hp2 & Hx2) _]; subst.
    simpl. rewrite Hp1, Hp2. unfold JS.ge, JS.lt. simpl.
    assert (Hlate : Qle_bool x2 (9.999999 + tolerance) = false).
    { destruct (Qle_bool x2 (9.999999 + tolerance)) eqn:E; [|reflexivity].
      apply Qle_bool_iff in E. lra. }
    assert (Hnext : Qle_bool x1 (9.999999 + tolerance) = true).
    { apply Qle_bool_iff. lra. }
    by rewrite Hlate, Hnext.
Qed.

(** With the tolerance of the player, a fifteenth of a second. *)
Lemma findPeriodContainingTime_largest_reached_witness :
  findPeriodContainingTime (H := toleranceOf (1 # 15)) sampleManifest
    (JS.Fin 9.999999) = 1%nat.
Proof.
  apply (proj2 findPeriodContainingTime_largest_reached (1 # 15));
    [|reflexivity..].
  repeat constructor; eexists; (split; [reflexivity|]); reflexivity.
Defined.

(** ** Track projection *)

(** Each element once, at the place of its first occurrence. *)
Fixpoint keepFirst (array : list string) : list string :=
  match array with
  | [] => []
  | x :: rest => x :: filter (λ y, y ≠ x) (keepFirst rest)
  end.

Lemma keepFirst_filter (P : string → Prop) `{!∀ x, Decision (P x)} array :
  keepFirst (filter P array) = filter P (keepFirst array).
Proof.
  induction array as [|x rest IH]; [reflexivity|].
  rewrite filter_cons. simpl. rewrite filter_cons.
  destruct (decide (P x)) as [HP|HP]; simpl.
  - rewrite IH. f_equal. rewrite !list_filter_filter.
    apply list_filter_iff. tauto.
  - rewrite IH, list_filter_filter. apply list_filter_iff.
    intros y. split; [|tauto]. intros HPy. split; [exact HPy|].
    intros ->. contradiction.
Qed.

Lemma removeDuplicatesFrom_keepFirst array :
  ∀ seen,
    removeDuplicatesFrom seen array =
    seen ++ keepFirst (filter (λ y, y ∉ seen) array).
Proof.
  induction array as [|x rest IH]; intros seen; simpl.
  - by rewrite app_nil_r.
  - rewrite filter_cons. case_bool_decide as Hseen.
    + rewrite decide_False by tauto. apply IH.
    + rewrite decide_True by exact Hseen. rewrite IH. simpl.
      rewrite <- app_assoc. simpl. do 2 f_equal.
      rewrite <- keepFirst_filter, list_filter_filter. f_equal.
      apply list_filter_iff. intros y.
      rewrite not_elem_of_app, list_elem_of_singleton. tauto.
Qed.

Lemma removeDuplicates_keepFirst array :
  removeDuplicates array = keepFirst array.
Proof.
  unfold removeDuplicates. rewrite removeDuplicatesFrom_keepFirst. simpl.
  f_equal. induction array as [|x rest IH]; [reflexivity|].
  rewrite filter_cons_True; [by rewrite IH | apply not_elem_of_nil].
Qed.

Lemma keepFirst_elem_of array x : x ∈ keepFirst array ↔ x ∈ array.
Proof.
  induction array as [|y rest IH]; [reflexivity|]. simpl.
  rewrite !elem_of_cons, list_elem_of_filter, IH.
  destruct (decide (x = y)); tauto.
Qed.

Lemma keepFirst_NoDup array : NoDup (keepFirst array).
Proof.
  induction array as [|x rest IH]; simpl; constructor.
  - rewrite list_elem_of_filter. tauto.
  - by apply NoDup_filter.
Qed.

(** The specification's reading of a part of the codecs string: a codec that is
    there and not empty. *)
Definition codecPart (stream : option Stream.t) : option string :=
  match stream with
  | Some stream =>
      if JS.nonEmpty (Stream.codecs stream)
      then Some (Stream.codecs stream) else None
  | None => None
  end.

Definition combinedCodecs (video audio : option Stream.t) : string :=
  match codecPart video, codecPart audio with
  | Some videoCodec, Some audioCodec =>
      String.append videoCodec (String.append ", " audioCodec)
  | Some videoCodec, None => videoCodec
  | None, Some audioCodec => audioCodec
  | None, None => ""
  end.

(** The specification's reading of the MIME type, with an empty string read as
    null. *)
Definition combinedMimeType (video audio : option Stream.t) : option string :=
  match video, audio with
  | Some video, _ => JS.stringOrNull (Some (Stream.mimeType video))
  | None, Some audio => JS.stringOrNull (Some (Stream.mimeType audio))
  | None, None => None
  end.

Definition rolesOf (stream : option Stream.t) : list string :=
  match stream with
  | Some stream => Stream.roles stream
  | None => []
  end.

(** C8 (amended).  The track of a variant has as [codecs] the video codec
    and the audio codec joined by ", ", video first, a codec being left out
    when its stream is absent or its codec string is empty; as [mimeType]
    the MIME type of the video stream if there is one, else of the audio
    stream, and null when that MIME type is the empty string or the variant
    has no stream; as [roles] the audio roles followed by the video roles,
    each role once, at its first occurrence.  Without an audio stream
    [audioCodec], [audioId], [channelsCount], [audioBandwidth] and [label]
    are null; without a video stream [videoCodec], [videoId], [width],
    [height], [frameRate] and [videoBandwidth] are null. *)
Theorem variantToTrack_projection :
  ∀ variant : Variant.t,
    let track := variantToTrack variant in
    let audio := Variant.audio variant in
    let video := Variant.video variant in
    Track.codecs track = Some (combinedCodecs video audio) ∧
    Track.mimeType track = combinedMimeType video audio ∧
    Track.roles track = keepFirst (rolesOf audio ++ rolesOf video) ∧
    NoDup (Track.roles track) ∧
    (∀ role, role ∈ Track.roles track ↔
             role ∈ rolesOf audio ∨ role ∈ rolesOf video) ∧
    (audio = None →
     Track.audioCodec track = None ∧ Track.audioId track = None ∧
     Track.channelsCount track = None ∧ Track.audioBandwidth track = None ∧
     Track.label track = None) ∧
    (video = None →
     Track.videoCodec track = None ∧ Track.videoId track = None ∧
     Track.width track = None ∧ Track.height track = None ∧
     Track.frameRate track = None ∧ Track.videoBandwidth track = None).
Proof.
  intros variant. cbv zeta.
  assert (Hroles : Track.roles (variantToTrack variant) =
                   keepFirst (rolesOf (Variant.audio variant) ++
                              rolesOf (Variant.video variant))).
  { unfold variantToTrack. simpl. apply removeDuplicates_keepFirst. }
  split; [|split; [|split; [exact Hroles|split; [|split; [|split]]]]].
  - unfold variantToTrack, combinedCodecs, codecPart. simpl. f_equal.
    destruct (Variant.video variant) as [video|],
      (Variant.audio variant) as [audio|]; simpl;
      try destruct (JS.nonEmpty (Stream.codecs video));
      try destruct (JS.nonEmpty (Stream.codecs audio)); reflexivity.
  - unfold variantToTrack, combinedMimeType. simpl.
    by destruct (Variant.video variant), (Variant.audio variant).
  - rewrite Hroles. apply keepFirst_NoDup.
  - intros role. by rewrite Hroles, keepFirst_elem_of, elem_of_app.
  - unfold variantToTrack. simpl. by intros ->.
  - unfold variantToTrack. simpl. by intros ->.
Qed.

(** A variant with only a video stream. *)
Lemma variantToTrack_projection_witness :
  let track := variantToTrack (sampleVideoVariant 1 1280 720 true) in
  Track.codecs track = Some "avc1.4d401f" ∧
  Track.mimeType track = Some "video/mp4" ∧
  Track.audioCodec track = None ∧ Track.audioId track = None ∧
  Track.channelsCount track = None ∧ Track.audioBandwidth track = None ∧
  Track.label track = None.
Proof.
  destruct (variantToTrack_projection (sampleVideoVariant 1 1280 720 true))
    as (Hcodecs & HmimeType & _ & _ & _ & Haudio & _).
  split; [exact Hcodecs|]. split; [exact HmimeType|].
  apply Haudio. reflexivity.
Defined.

(** A video stream whose MIME type is the empty string, with an audio stream
    beside it whose codecs string is empty. *)
Definition sampleUntypedVideoVariant : Variant.t :=
  {| Variant.id := 1; Variant.bandwidth := JS.Fin 1128000;
     Variant.language := "en"; Variant.primary := false;
     Variant.audio := Some (sampleStream 2 AUDIO "en" "audio/mp4" "" []);
     Variant.video := Some (sampleStream 3 VIDEO "und" "" "avc1.4d401f" []);
     Variant.allowedByApplication := true;
     Variant.allowedByKeySystem := true |}.

(** C8, as stated, fails where the video MIME type is the empty string: the
    track's [mimeType] is then null, not that string (and not the audio MIME
    type).  An empty codecs string is not null in [audioCodec], and is left
    out of [codecs]. *)
Lemma variantToTrack_empty_mimeType :
  ∃ video,
    Variant.video sampleUntypedVideoVariant = Some video ∧
    Track.mimeType (variantToTrack sampleUntypedVideoVariant) = None ∧
    Track.mimeType (variantToTrack sampleUntypedVideoVariant) ≠
      Some (Stream.mimeType video) ∧
    Track.audioCodec (variantToTrack sampleUntypedVideoVariant) = Some "" ∧
    Track.codecs (variantToTrack sampleUntypedVideoVariant) =
      Some "avc1.4d401f".
Proof.
  eexists. split; [reflexivity|]. split; [reflexivity|].
  split; [discriminate|]. split; reflexivity.
Qed.

(** ** Language and role selector: the role preference *)

(** The roles a variant exposes: those of its audio stream, then those of
    its video stream. *)
Definition variantRoles (variant : Variant.t) : list string :=
  rolesOf (Variant.audio variant) ++ rolesOf (Variant.video variant).

(** The first role met when the role sets are read in order. *)
Fixpoint firstRole (roleSets : list (list string)) : option string :=
  match roleSets with
  | [] => None
  | [] :: rest => firstRole rest
  | (role :: _) :: _ => Some role
  end.

(** The specification's reading of the default path: the entries that expose the
    first role met in the selection, all of them when no role is met. *)
Definition pickRole {A : Type} (roles : A → list string) (selection : list A)
    : list A :=
  match firstRole (map roles selection) with
  | Some role => filter (λ entry, role ∈ roles entry) selection
  | None => selection
  end.

(** The specification's reading of the role preference: the entries that expose the
    preferred role when there are some, the default path otherwise. *)
Definition refineByRole {A : Type} (roles : A → list string)
    (selection : list A) (preferredRole : string) : list A :=
  if JS.nonEmpty preferredRole
  then match filter (λ entry, preferredRole ∈ roles entry) selection with
       | [] => pickRole roles selection
       | matches => matches
       end
  else pickRole roles selection.

Lemma collapseArrays_foldl (sets : list (list string)) :
  ∀ all, foldl collapseArrays all sets = all ++ concat sets.
Proof.
  induction sets as [|part sets IH]; intros all; simpl.
  - by rewrite app_nil_r.
  - rewrite IH. unfold collapseArrays. by rewrite <- app_assoc.
Qed.

Lemma firstRole_concat (sets : list (list string)) :
  head (concat sets) = firstRole sets.
Proof.
  induction sets as [|[|role part] sets IH]; simpl; by try rewrite IH.
Qed.

Lemma variantHasRole_spec role variant :
  variantHasRole role variant ↔ role ∈ variantRoles variant.
Proof.
  unfold variantHasRole, variantRoles, streamHasRole, rolesOf.
  rewrite orb_True, elem_of_app.
  destruct (Variant.audio variant), (Variant.video variant); simpl;
    rewrite ?bool_decide_spec, ?elem_of_nil; tauto.
Qed.

Lemma filterVariantsByRole__spec variants role :
  filterVariantsByRole_ variants role =
  filter (λ variant, role ∈ variantRoles variant) variants.
Proof. apply list_filter_iff. intros variant. apply variantHasRole_spec. Qed.

Lemma filterTextStreamsByRole__spec streams role :
  filterTextStreamsByRole_ streams role =
  filter (λ stream, role ∈ Stream.roles stream) streams.
Proof.
  apply list_filter_iff. intros stream. unfold textStreamHasRole.
  apply bool_decide_spec.
Qed.

Lemma head_match {B : Type} (l : list string) (none : B) (some : string → B) :
  match l with [] => none | role :: _ => some role end =
  match head l with Some role => some role | None => none end.
Proof. by destruct l. Qed.

Lemma chooseArbitraryVariantRole_spec selection :
  chooseArbitraryVariantRole selection = pickRole variantRoles selection.
Proof.
  unfold chooseArbitraryVariantRole, pickRole.
  change (map _ selection) with (map variantRoles selection).
  rewrite collapseArrays_foldl. simpl.
  rewrite head_match, firstRole_concat.
  destruct (firstRole _); [apply filterVariantsByRole__spec | reflexivity].
Qed.

Lemma chooseArbitraryStreamRole_spec selection :
  chooseArbitraryStreamRole selection = pickRole Stream.roles selection.
Proof.
  unfold chooseArbitraryStreamRole, pickRole.
  rewrite collapseArrays_foldl. simpl.
  rewrite head_match, firstRole_concat.
  destruct (firstRole _); [apply filterTextStreamsByRole__spec | reflexivity].
Qed.

Lemma refineVariantsByRole_spec selection preferredRole :
  refineVariantsByRole selection preferredRole =
  refineByRole variantRoles selection preferredRole.
Proof.
  unfold refineVariantsByRole, refineByRole.
  rewrite chooseArbitraryVariantRole_spec, filterVariantsByRole__spec.
  destruct (JS.nonEmpty preferredRole); [|reflexivity].
  by destruct (filter _ selection).
Qed.

Lemma refineStreamsByRole_spec selection preferredRole :
  refineStreamsByRole selection preferredRole =
  refineByRole Stream.roles selection preferredRole.
Proof.
  unfold refineStreamsByRole, refineByRole.
  rewrite chooseArbitraryStreamRole_spec, filterTextStreamsByRole__spec.
  destruct (JS.nonEmpty preferredRole); [|reflexivity].
  by destruct (filter _ selection).
Qed.

Section RolePreference.
Context {A : Type} (roles : A → list string).

Lemma firstRole_Some selection role :
  firstRole (map roles selection) = Some role →
  ∃ entry, entry ∈ selection ∧ role ∈ roles entry.
Proof.
  induction selection as [|entry selection IH]; [discriminate|]. simpl.
  destruct (roles entry) as [|role' rest] eqn:Hroles.
  - intros Hfirst. destruct (IH Hfirst) as (entry' & Hin & Hrole).
    exists entry'. split; [by right | exact Hrole].
  - intros [= ->]. exists entry. split; [by left|].
    rewrite Hroles. by left.
Qed.

Lemma firstRole_None selection :
  firstRole (map roles selection) = None →
  ∀ entry, entry ∈ selection → roles entry = [].
Proof.
  induction selection as [|entry' selection IH]; simpl.
  - intros _ entry Hin. by apply elem_of_nil in Hin.
  - destruct (roles entry') eqn:Hroles; [|discriminate].
    intros Hfirst entry [->|Hin]%elem_of_cons; [exact Hroles | by apply IH].
Qed.

Lemma pickRole_sublist selection :
  pickRole roles selection `sublist_of` selection.
Proof.
  unfold pickRole. destruct (firstRole _); [apply sublist_filter | done].
Qed.

Lemma pickRole_nonempty selection :
  selection ≠ [] → pickRole roles selection ≠ [].
Proof.
  unfold pickRole. destruct (firstRole _) as [role|] eqn:Hfirst; [|done].
  intros _ Hempty.
  destruct (firstRole_Some _ _ Hfirst) as (entry & Hin & Hrole).
  assert (Hkept : entry ∈ filter (λ entry, role ∈ roles entry) selection)
    by by apply list_elem_of_filter.
  rewrite Hempty in Hkept. by apply elem_of_nil in Hkept.
Qed.

Lemma refineByRole_sublist selection preferredRole :
  refineByRole roles selection preferredRole `sublist_of` selection.
Proof.
  unfold refineByRole. destruct (JS.nonEmpty preferredRole).
  - destruct (filter _ selection) eqn:Hmatches.
    + apply pickRole_sublist.
    + rewrite <- Hmatches. apply sublist_filter.
  - apply pickRole_sublist.
Qed.

Lemma refineByRole_nonempty selection preferredRole :
  selection ≠ [] → refineByRole roles selection preferredRole ≠ [].
Proof.
  intros Hselection. unfold refineByRole. destruct (JS.nonEmpty preferredRole).
  - destruct (filter _ selection) eqn:Hmatches; [|done].
    by apply pickRole_nonempty.
  - by apply pickRole_nonempty.
Qed.

(** Without a match of the preferred role, the role preference counts for
    nothing. *)
Lemma refineByRole_unsatisfied selection preferredRole :
  (∀ entry, entry ∈ selection → preferredRole ∉ roles entry) →
  refineByRole roles selection preferredRole = pickRole roles selection.
Proof.
  intros Hnone. unfold refineByRole. destruct (JS.nonEmpty preferredRole);
    [|reflexivity].
  destruct (filter _ selection) as [|entry matches] eqn:Hmatches;
    [reflexivity|].
  assert (Hin : entry ∈ filter (λ entry, preferredRole ∈ roles entry)
                         selection) by (rewrite Hmatches; by left).
  apply list_elem_of_filter in Hin as [Hrole Hin].
  destruct (Hnone _ Hin Hrole).
Qed.

Lemma refineByRole_satisfied selection preferredRole :
  JS.nonEmpty preferredRole = true →
  (∃ entry, entry ∈ selection ∧ preferredRole ∈ roles entry) →
  refineByRole roles selection preferredRole =
  filter (λ entry, preferredRole ∈ roles entry) selection.
Proof.
  intros Hpreferred (entry & Hin & Hrole). unfold refineByRole.
  rewrite Hpreferred.
  destruct (filter _ selection) eqn:Hmatches; [|reflexivity].
  assert (Hkept : entry ∈ filter (λ entry, preferredRole ∈ roles entry)
                           selection)
    by by apply list_elem_of_filter.
  rewrite Hmatches in Hkept. by apply elem_of_nil in Hkept.
Qed.

(** The output exposes one role throughout, as soon as the selection has a
    role at all. *)
Lemma refineByRole_homogeneous selection preferredRole :
  (∃ entry, entry ∈ selection ∧ roles entry ≠ []) →
  ∃ role,
    (∀ entry, entry ∈ refineByRole roles selection preferredRole →
              role ∈ roles entry) ∧
    (JS.nonEmpty preferredRole = true →
     (∃ entry, entry ∈ selection ∧ preferredRole ∈ roles entry) →
     role = preferredRole) ∧
    (¬ (JS.nonEmpty preferredRole = true ∧
        ∃ entry, entry ∈ selection ∧ preferredRole ∈ roles entry) →
     firstRole (map roles selection) = Some role).
Proof.
  intros (entry & Hin & Hroles).
  destruct (firstRole (map roles selection)) as [first|] eqn:Hfirst.
  2: { destruct Hroles. by eapply firstRole_None. }
  destruct (JS.nonEmpty preferredRole) eqn:Hpreferred.
  - destruct (decide (Exists (λ entry, preferredRole ∈ roles entry)
                        selection)) as [Hsat|Hunsat].
    + apply Exists_exists in Hsat. exists preferredRole.
      rewrite (refineByRole_satisfied _ _ Hpreferred Hsat).
      split; [|split; [done|]].
      * intros entry' Hin'. by apply list_elem_of_filter in Hin' as [? _].
      * intros Hnot. destruct Hnot. by split.
    + exists first. rewrite refineByRole_unsatisfied.
      * unfold pickRole. rewrite Hfirst. split; [|split; [|done]].
        -- intros entry' Hin'. by apply list_elem_of_filter in Hin' as [? _].
        -- intros _ Hsat. destruct Hunsat. by apply Exists_exists.
      * intros entry' Hin' Hrole. apply Hunsat, Exists_exists. eauto.
  - exists first. unfold refineByRole. rewrite Hpreferred.
    unfold pickRole. rewrite Hfirst. split; [|split; [discriminate|done]].
    intros entry' Hin'. by apply list_elem_of_filter in Hin' as [? _].
Qed.

End RolePreference.

(** ** Language and role selector: the language preference *)

(** The specification's reading of a tier: the entries whose language matches the
    preference at that tier, in input order. *)
Definition tierMatches `{LanguageUtils} {A : Type} (language : A → string)
    (matchType : MatchType) (pref : string) (entries : list A) : list A :=
  filter (λ entry, languageMatch matchType pref (normalize (language entry)))
         entries.

(** A tier with a match replaces the running selection. *)
Definition overwrite {A : Type} (selection matches : list A) : list A :=
  match matches with
  | [] => selection
  | _ :: _ => matches
  end.

(** The specification's reading of the language search: the three tiers in order,
    each over all the entries. *)
Definition languageSearch `{LanguageUtils} {A : Type} (language : A → string)
    (entries : list A) (pref : string) (selection : list A) : list A :=
  overwrite
    (overwrite
       (overwrite selection
          (tierMatches language OTHER_SUB_LANGUAGE_OKAY pref entries))
       (tierMatches language BASE_LANGUAGE_OKAY pref entries))
    (tierMatches language EXACT pref entries).

(** One visit of the search, for a test [matches] of the entry alone. *)
Definition appendMatch {A : Type} (matches : A → bool) (st : Selection A)
    (entry : A) : Selection A :=
  if matches entry
  then mkSelection
         (if betterLangMatchFound st then chosen st ++ [entry] else [entry])
         (pref st) true true
  else st.

Lemma appendMatch_foldl {A : Type} (matches : A → bool) (entries : list A) :
  ∀ st,
    foldl (appendMatch matches) st entries =
    match filter (λ entry, matches entry) entries with
    | [] => st
    | found =>
        mkSelection
          ((if betterLangMatchFound st then chosen st else []) ++ found)
          (pref st) true true
    end.
Proof.
  induction entries as [|entry entries IH]; intros st; [reflexivity|].
  simpl. rewrite IH, filter_cons. unfold appendMatch.
  destruct (matches entry) eqn:Hmatch; simpl.
  - destruct (filter _ entries) as [|entry' found];
      destruct (betterLangMatchFound st); simpl;
      by rewrite <- ?app_assoc.
  - reflexivity.
Qed.

Lemma foldl_agree {A B : Type} (f g : B → A → B) (inv : B → Prop)
    (entries : list A) :
  (∀ st entry, inv st → f st entry = g st entry ∧ inv (g st entry)) →
  ∀ st, inv st → foldl f st entries = foldl g st entries.
Proof.
  intros Hfg. induction entries as [|entry entries IH]; intros st Hst;
    [reflexivity|].
  simpl. destruct (Hfg st entry Hst) as [-> Hinv]. by apply IH.
Qed.

Lemma appendMatch_pref {A : Type} (matches : A → bool) st entry :
  pref (appendMatch matches st entry) = pref st.
Proof. unfold appendMatch. by destruct (matches entry). Qed.

Section LanguagePreference.
Context `{LanguageUtils}.

Lemma visitStream_appendMatch matchType p st stream :
  pref st = p →
  visitStream matchType st stream =
  appendMatch
    (λ stream, languageMatch matchType p (normalize (Stream.language stream)))
    st stream.
Proof. intros <-. reflexivity. Qed.

Lemma visitVariant_appendMatch matchType p st variant :
  normalize p = p → pref st = p →
  visitVariant matchType st variant =
  appendMatch
    (λ variant,
       languageMatch matchType p (normalize (Variant.language variant)))
    st variant.
Proof.
  intros Hnormal <-. unfold visitVariant, appendMatch. rewrite Hnormal.
  destruct (languageMatch _ _ _); [reflexivity | by destruct st].
Qed.

Lemma visitStreamMatchType_spec streams p st matchType :
  pref st = p →
  chosen (visitStreamMatchType streams st matchType) =
    overwrite (chosen st) (tierMatches Stream.language matchType p streams) ∧
  pref (visitStreamMatchType streams st matchType) = p ∧
  languageMatches (visitStreamMatchType streams st matchType) =
    languageMatches st ||
    bool_decide (tierMatches Stream.language matchType p streams ≠ []).
Proof.
  intros Hpref. unfold visitStreamMatchType.
  rewrite (foldl_agree _
    (appendMatch (λ stream,
       languageMatch matchType p (normalize (Stream.language stream))))
    (λ st, pref st = p)).
  - rewrite appendMatch_foldl. unfold tierMatches, overwrite.
    destruct (filter _ streams); simpl;
      by rewrite ?orb_false_r, ?orb_true_r.
  - intros st' stream Hst'. split; [by apply visitStream_appendMatch|].
    by rewrite appendMatch_pref.
  - exact Hpref.
Qed.

Lemma visitMatchType_spec playable p st matchType :
  normalize p = p → pref st = p →
  chosen (visitMatchType playable st matchType) =
    overwrite (chosen st) (tierMatches Variant.language matchType p playable) ∧
  pref (visitMatchType playable st matchType) = p ∧
  languageMatches (visitMatchType playable st matchType) =
    languageMatches st ||
    bool_decide (tierMatches Variant.language matchType p playable ≠ []).
Proof.
  intros Hnormal Hpref. unfold visitMatchType.
  rewrite (foldl_agree _
    (appendMatch (λ variant,
       languageMatch matchType p (normalize (Variant.language variant))))
    (λ st, pref st = p)).
  - rewrite appendMatch_foldl. unfold tierMatches, overwrite.
    destruct (filter _ playable); simpl;
      by rewrite ?orb_false_r, ?orb_true_r.
  - intros st' variant Hst'. split; [by apply visitVariant_appendMatch|].
    by rewrite appendMatch_pref.
  - exact Hpref.
Qed.

(** Some entry matches the preference at some tier. *)
Definition someTierMatches {A : Type} (language : A → string) (p : string)
    (entries : list A) : Prop :=
  ∃ matchType entry,
    entry ∈ entries ∧
    languageMatch matchType p (normalize (language entry)) = true.

Lemma tierMatches_nonempty {A : Type} (language : A → string) matchType p
    (entries : list A) :
  tierMatches language matchType p entries ≠ [] ↔
  ∃ entry, entry ∈ entries ∧
           languageMatch matchType p (normalize (language entry)) = true.
Proof.
  unfold tierMatches. split.
  - destruct (filter _ entries) as [|entry found] eqn:Hfound; [done|].
    intros _. exists entry.
    assert (Hin : entry ∈ entry :: found) by by left.
    rewrite <- Hfound in Hin. apply list_elem_of_filter in Hin as [Hm Hin].
    split; [exact Hin | by apply Is_true_true].
  - intros (entry & Hin & Hm) Hempty.
    assert (Hkept : entry ∈ filter
              (λ entry, languageMatch matchType p (normalize (language entry)))
              entries).
    { apply list_elem_of_filter. split; [by rewrite Hm | exact Hin]. }
    rewrite Hempty in Hkept. by apply elem_of_nil in Hkept.
Qed.

Lemma someTierMatches_tiers {A : Type} (language : A → string) p
    (entries : list A) :
  false ||
  bool_decide (tierMatches language OTHER_SUB_LANGUAGE_OKAY p entries ≠ []) ||
  bool_decide (tierMatches language BASE_LANGUAGE_OKAY p entries ≠ []) ||
  bool_decide (tierMatches language EXACT p entries ≠ []) = true ↔
  someTierMatches language p entries.
Proof.
  rewrite !orb_true_iff, !bool_decide_eq_true, !tierMatches_nonempty.
  unfold someTierMatches. split.
  - intros [[[?|Hm]|Hm]|Hm]; [done| | |]; eauto.
  - intros ([] & Hm); eauto.
Qed.

Lemma selectStreamsByLanguage_spec streams preferredLanguage :
  JS.nonEmpty preferredLanguage = true →
  chosen (selectStreamsByLanguage streams preferredLanguage) =
    languageSearch Stream.language streams (normalize preferredLanguage)
      (chosen (selectStreamsByLanguage streams "")) ∧
  (languageMatches (selectStreamsByLanguage streams preferredLanguage) = true ↔
   someTierMatches Stream.language (normalize preferredLanguage) streams).
Proof.
  intros Hpreferred. unfold selectStreamsByLanguage at 1 3.
  rewrite Hpreferred. unfold matchTypes, languageSearch. simpl foldl.
  set (p := normalize preferredLanguage).
  set (st0 := mkSelection _ p false false).
  destruct (visitStreamMatchType_spec streams p st0 OTHER_SUB_LANGUAGE_OKAY)
    as (Hchosen1 & Hpref1 & Hflag1); [reflexivity|].
  destruct (visitStreamMatchType_spec streams p _ BASE_LANGUAGE_OKAY Hpref1)
    as (Hchosen2 & Hpref2 & Hflag2).
  destruct (visitStreamMatchType_spec streams p _ EXACT Hpref2)
    as (Hchosen3 & _ & Hflag3).
  split; [by rewrite Hchosen3, Hchosen2, Hchosen1|].
  rewrite Hflag3, Hflag2, Hflag1. apply someTierMatches_tiers.
Qed.

Lemma selectVariantsByLanguage_spec variants preferredLanguage :
  (∀ s, normalize (normalize s) = normalize s) →
  JS.nonEmpty preferredLanguage = true →
  chosen (selectVariantsByLanguage variants preferredLanguage) =
    languageSearch Variant.language (getPlayableVariants variants)
      (normalize preferredLanguage)
      (chosen (selectVariantsByLanguage variants "")) ∧
  (languageMatches (selectVariantsByLanguage variants preferredLanguage) =
     true ↔
   someTierMatches Variant.language (normalize preferredLanguage)
     (getPlayableVariants variants)).
Proof.
  intros Hidem Hpreferred. unfold selectVariantsByLanguage at 1 3.
  rewrite Hpreferred. unfold matchTypes, languageSearch. simpl foldl.
  set (playable := getPlayableVariants variants).
  set (p := normalize preferredLanguage).
  set (st0 := mkSelection _ p false false).
  assert (Hnormal : normalize p = p) by apply Hidem.
  destruct (visitMatchType_spec playable p st0 OTHER_SUB_LANGUAGE_OKAY Hnormal)
    as (Hchosen1 & Hpref1 & Hflag1); [reflexivity|].
  destruct (visitMatchType_spec playable p _ BASE_LANGUAGE_OKAY Hnormal Hpref1)
    as (Hchosen2 & Hpref2 & Hflag2).
  destruct (visitMatchType_spec playable p _ EXACT Hnormal Hpref2)
    as (Hchosen3 & _ & Hflag3).
  split; [by rewrite Hchosen3, Hchosen2, Hchosen1|].
  rewrite Hflag3, Hflag2, Hflag1. apply someTierMatches_tiers.
Qed.

End LanguagePreference.

(** *** The selection stays within the playable set *)

Section SelectionInvariant.
Context `{LanguageUtils}.
Variable playable : list Variant.t.

Definition withinPlayable (st : Selection Variant.t) : Prop :=
  chosen st ≠ [] ∧ ∀ variant, variant ∈ chosen st → variant ∈ playable.

Lemma visitVariant_within matchType st variant :
  variant ∈ playable → withinPlayable st →
  withinPlayable (visitVariant matchType st variant).
Proof.
  intros Hvariant [Hnonempty Hsubset]. unfold visitVariant, withinPlayable.
  destruct (languageMatch _ _ _); simpl; [|by split].
  destruct (betterLangMatchFound st).
  - split; [by destruct (chosen st)|].
    intros variant' [Hin|Hin%list_elem_of_singleton]%elem_of_app;
      [by apply Hsubset | by subst].
  - split; [done|]. by intros variant' ->%list_elem_of_singleton.
Qed.

Lemma visitVariants_within matchType variants :
  (∀ variant, variant ∈ variants → variant ∈ playable) →
  ∀ st, withinPlayable st →
        withinPlayable (foldl (visitVariant matchType) st variants).
Proof.
  induction variants as [|variant variants IH]; intros Hvariants st Hst;
    [exact Hst|].
  simpl. apply IH.
  - intros variant' Hin. apply Hvariants. by right.
  - apply visitVariant_within; [|exact Hst]. apply Hvariants. by left.
Qed.

Lemma visitMatchType_within st matchType :
  withinPlayable st → withinPlayable (visitMatchType playable st matchType).
Proof.
  intros Hst. unfold visitMatchType.
  by apply visitVariants_within.
Qed.

End SelectionInvariant.

Lemma selectVariantsByLanguage_within `{LanguageUtils} variants
    preferredLanguage :
  getPlayableVariants variants ≠ [] →
  withinPlayable (getPlayableVariants variants)
    (selectVariantsByLanguage variants preferredLanguage).
Proof.
  intros Hplayable. unfold selectVariantsByLanguage.
  set (playable := getPlayableVariants variants) in *.
  set (primary := filter (λ variant, Variant.primary variant) playable).
  set (base := match primary with [] => playable | _ :: _ => primary end).
  assert (Hbase : base ≠ [] ∧ ∀ variant, variant ∈ base → variant ∈ playable).
  { unfold base. destruct primary as [|variant primary'] eqn:Hprimary.
    - by split.
    - split; [done|]. rewrite <- Hprimary. intros variant' Hin.
      by apply list_elem_of_filter in Hin as [_ ?]. }
  destruct Hbase as [Hnonempty Hsubset].
  assert (Hdefault : ∀ p found matched,
    withinPlayable playable
      (mkSelection
         (filter (λ variant,
                    Variant.language variant =
                    match base with
                    | variant :: _ => Variant.language variant
                    | [] => ""
                    end) base)
         p found matched)).
  { intros p found matched. split; simpl.
    - destruct base as [|variant base']; [done|].
      by rewrite filter_cons_True.
    - intros variant Hin. apply Hsubset.
      by apply list_elem_of_filter in Hin as [_ ?]. }
  destruct (JS.nonEmpty preferredLanguage); [|apply Hdefault].
  unfold matchTypes. simpl foldl.
  do 3 apply visitMatchType_within. apply Hdefault.
Qed.

Lemma lowerCase_idempotent (s : string) : lowerCase (lowerCase s) = lowerCase s.
Proof.
  induction s as [|c s IH]; [reflexivity|]. simpl. rewrite IH. f_equal.
  destruct c as [[] [] [] [] [] [] [] []]; reflexivity.
Qed.

(** C1.  With a preferred language (and a [normalize] that leaves normalized
    tags alone), the selection before the role preference is the result of
    the three tiers other-sub-language-okay, base-language-okay and exact,
    taken in that order over all playable variants (all streams, for text):
    the matches of a tier, in input order, replace the running selection,
    which starts as the primary/first-language reduction.  So when some
    playable variant (stream) matches at the exact tier, the selection is
    exactly the exact-tier matches, wherever they stand in the input. *)
Theorem language_search_exact_match_wins :
  ∀ (utils : LanguageUtils) (variants : list Variant.t)
    (streams : list Stream.t) (preferredLanguage : string),
    (∀ s, normalize (normalize s) = normalize s) →
    JS.nonEmpty preferredLanguage = true →
    let pref := normalize preferredLanguage in
    let playable := getPlayableVariants variants in
    let variantSelection :=
      chosen (selectVariantsByLanguage variants preferredLanguage) in
    let streamSelection :=
      chosen (selectStreamsByLanguage streams preferredLanguage) in
    variantSelection =
      languageSearch Variant.language playable pref
        (chosen (selectVariantsByLanguage variants "")) ∧
    streamSelection =
      languageSearch Stream.language streams pref
        (chosen (selectStreamsByLanguage streams "")) ∧
    ((∃ variant, variant ∈ playable ∧
        languageMatch EXACT pref (normalize (Variant.language variant)) = true) →
     variantSelection = tierMatches Variant.language EXACT pref playable) ∧
    ((∃ stream, stream ∈ streams ∧
        languageMatch EXACT pref (normalize (Stream.language stream)) = true) →
     streamSelection = tierMatches Stream.language EXACT pref streams).
Proof.
  intros utils variants streams preferredLanguage Hidem Hpreferred. cbv zeta.
  assert (Hexact : ∀ (A : Type) (language : A → string) (entries : list A)
                     (selection : list A),
            (∃ entry, entry ∈ entries ∧
               languageMatch EXACT (normalize preferredLanguage)
                 (normalize (language entry)) = true) →
            languageSearch language entries (normalize preferredLanguage)
              selection =
            tierMatches language EXACT (normalize preferredLanguage) entries).
  { intros A language entries selection (entry & Hin & Hmatch).
    unfold languageSearch.
    assert (Hkept : entry ∈ tierMatches language EXACT
                              (normalize preferredLanguage) entries).
    { apply list_elem_of_filter. split; [by rewrite Hmatch | exact Hin]. }
    destruct (tierMatches language EXACT _ entries); [|reflexivity].
    by apply elem_of_nil in Hkept. }
  rewrite (proj1 (selectVariantsByLanguage_spec _ _ Hidem Hpreferred)).
  rewrite (proj1 (selectStreamsByLanguage_spec _ _ Hpreferred)).
  split; [reflexivity|]. split; [reflexivity|]. split; apply Hexact.
Qed.

Definition sampleLanguageVariants : list Variant.t :=
  [sampleAudioVariant 1 "en" ["main"];
   sampleAudioVariant 2 "en-US" ["main"];
   sampleAudioVariant 3 "fr" ["main"]].

Definition sampleLanguageStreams : list Stream.t :=
  [sampleTextStream 4 "fr" [];
   sampleTextStream 5 "en-US" [];
   sampleTextStream 6 "en" []].

(** Languages en, en-US and fr with the preference en-US. *)
Lemma language_search_exact_match_wins_witness :
  chosen (selectVariantsByLanguage (H := referenceLanguageUtils)
            sampleLanguageVariants "en-US") =
    [sampleAudioVariant 2 "en-US" ["main"]] ∧
  chosen (selectStreamsByLanguage (H := referenceLanguageUtils)
            sampleLanguageStreams "en-US") =
    [sampleTextStream 5 "en-US" []].
Proof.
  destruct (language_search_exact_match_wins referenceLanguageUtils
              sampleLanguageVariants sampleLanguageStreams "en-US"
              lowerCase_idempotent eq_refl)
    as (_ & _ & Hvariants & Hstreams).
  rewrite Hvariants, Hstreams.
  - split; vm_compute; reflexivity.
  - exists (sampleTextStream 5 "en-US" []).
    split; [|reflexivity]. right. left.
  - exists (sampleAudioVariant 2 "en-US" ["main"]).
    split; [|reflexivity]. right. left.
Defined.

Example exact_match_first :
  chosen (selectVariantsByLanguage (H := referenceLanguageUtils)
            [sampleAudioVariant 2 "en-US" []; sampleAudioVariant 1 "en" [];
             sampleAudioVariant 3 "en-GB" []] "en-US") =
  [sampleAudioVariant 2 "en-US" []].
Proof. vm_compute. reflexivity. Qed.

Example exact_match_last :
  chosen (selectVariantsByLanguage (H := referenceLanguageUtils)
            [sampleAudioVariant 3 "en-GB" []; sampleAudioVariant 1 "en" [];
             sampleAudioVariant 2 "en-US" []] "en-US") =
  [sampleAudioVariant 2 "en-US" []].
Proof. vm_compute. reflexivity. Qed.

Example base_match_without_exact :
  chosen (selectVariantsByLanguage (H := referenceLanguageUtils)
            [sampleAudioVariant 4 "fr" []; sampleAudioVariant 3 "en-GB" [];
             sampleAudioVariant 1 "en" []] "en-US") =
  [sampleAudioVariant 1 "en" []].
Proof. vm_compute. reflexivity. Qed.

Example default_without_match :
  chosen (selectVariantsByLanguage (H := referenceLanguageUtils)
            [sampleAudioVariant 4 "fr" []; sampleAudioVariant 5 "de" [];
             sampleAudioVariant 6 "fr" []] "en-US") =
  [sampleAudioVariant 4 "fr" []; sampleAudioVariant 6 "fr" []].
Proof. vm_compute. reflexivity. Qed.

(** ** Language and role selector: the whole function *)

(** C2 (amended).  When a preferred role is supplied and no entry of the
    selection exposes it, the function returns what it returns without a
    role preference: the entries of the selection that expose the first role
    met in the selection, and the selection unchanged when no entry has a
    role.  The result is empty only if the selection is. *)
Theorem unsatisfied_role_falls_back_to_first_role :
  ∀ (utils : LanguageUtils) (variants : list Variant.t)
    (streams : list Stream.t) (preferredLanguage preferredRole : string),
    JS.nonEmpty preferredRole = true →
    let variantSelection :=
      chosen (selectVariantsByLanguage variants preferredLanguage) in
    let streamSelection :=
      chosen (selectStreamsByLanguage streams preferredLanguage) in
    ((∀ variant, variant ∈ variantSelection →
                 preferredRole ∉ variantRoles variant) →
     filterVariantsByLanguageAndRole variants preferredLanguage preferredRole =
       pickRole variantRoles variantSelection ∧
     filterVariantsByLanguageAndRole variants preferredLanguage preferredRole =
       filterVariantsByLanguageAndRole variants preferredLanguage "" ∧
     ((∀ variant, variant ∈ variantSelection → variantRoles variant = []) →
      filterVariantsByLanguageAndRole variants preferredLanguage preferredRole =
        variantSelection) ∧
     (variantSelection ≠ [] →
      filterVariantsByLanguageAndRole variants preferredLanguage preferredRole
        ≠ [])) ∧
    ((∀ stream, stream ∈ streamSelection →
                preferredRole ∉ Stream.roles stream) →
     filterStreamsByLanguageAndRole streams preferredLanguage preferredRole =
       pickRole Stream.roles streamSelection ∧
     filterStreamsByLanguageAndRole streams preferredLanguage preferredRole =
       filterStreamsByLanguageAndRole streams preferredLanguage "" ∧
     ((∀ stream, stream ∈ streamSelection → Stream.roles stream = []) →
      filterStreamsByLanguageAndRole streams preferredLanguage preferredRole =
        streamSelection) ∧
     (streamSelection ≠ [] →
      filterStreamsByLanguageAndRole streams preferredLanguage preferredRole
        ≠ [])).
Proof.
  intros utils variants streams preferredLanguage preferredRole _. cbv zeta.
  assert (Hgeneric : ∀ (A : Type) (roles : A → list string)
                       (selection : list A),
            (∀ entry, entry ∈ selection → preferredRole ∉ roles entry) →
            refineByRole roles selection preferredRole =
              pickRole roles selection ∧
            refineByRole roles selection preferredRole =
              refineByRole roles selection "" ∧
            ((∀ entry, entry ∈ selection → roles entry = []) →
             refineByRole roles selection preferredRole = selection) ∧
            (selection ≠ [] →
             refineByRole roles selection preferredRole ≠ [])).
  { intros A roles selection Hnone.
    rewrite (refineByRole_unsatisfied _ _ _ Hnone).
    split; [reflexivity|]. split; [reflexivity|]. split.
    - intros Hroles. unfold pickRole.
      destruct (firstRole (map roles selection)) as [role|] eqn:Hfirst;
        [|reflexivity].
      destruct (firstRole_Some _ _ _ Hfirst) as (entry & Hin & Hrole).
      rewrite (Hroles _ Hin) in Hrole. by apply elem_of_nil in Hrole.
    - apply pickRole_nonempty. }
  unfold filterVariantsByLanguageAndRole, filterStreamsByLanguageAndRole.
  rewrite !refineVariantsByRole_spec, !refineStreamsByRole_spec.
  split; apply Hgeneric.
Qed.

Definition sampleRoleVariants : list Variant.t :=
  [sampleAudioVariant 1 "en" ["main"];
   sampleAudioVariant 2 "en" ["commentary"]].

Definition sampleRoleStreams : list Stream.t :=
  [sampleTextStream 3 "en" ["subtitle"];
   sampleTextStream 4 "en" ["caption"; "subtitle"];
   sampleTextStream 5 "en" ["caption"]].

(** The role "sign" is asked for and nobody has it. *)
Lemma unsatisfied_role_falls_back_to_first_role_witness :
  filterVariantsByLanguageAndRole (H := referenceLanguageUtils)
    sampleRoleVariants "" "sign" = [sampleAudioVariant 1 "en" ["main"]] ∧
  filterStreamsByLanguageAndRole (H := referenceLanguageUtils)
    sampleRoleStreams "" "sign" =
    [sampleTextStream 3 "en" ["subtitle"];
     sampleTextStream 4 "en" ["caption"; "subtitle"]].
Proof.
  destruct (unsatisfied_role_falls_back_to_first_role referenceLanguageUtils
              sampleRoleVariants sampleRoleStreams "" "sign" eq_refl)
    as [Hvariants Hstreams].
  split.
  - destruct Hvariants as (-> & _); [|vm_compute; reflexivity].
    apply Forall_forall. apply (bool_decide_unpack _). vm_compute. exact I.
  - destruct Hstreams as (-> & _); [|vm_compute; reflexivity].
    apply Forall_forall. apply (bool_decide_unpack _). vm_compute. exact I.
Defined.

(** C2, as stated, fails when the selection holds several roles: the
    entries without the first role are dropped, so the selection does not
    come back unchanged. *)
Lemma unsatisfied_role_drops_other_roles :
  JS.nonEmpty "sign" = true ∧
  chosen (selectVariantsByLanguage (H := referenceLanguageUtils)
            sampleRoleVariants "") =
    [sampleAudioVariant 1 "en" ["main"];
     sampleAudioVariant 2 "en" ["commentary"]] ∧
  Forall (λ variant, variantHasRole "sign" variant = false)
    (chosen (selectVariantsByLanguage (H := referenceLanguageUtils)
               sampleRoleVariants "")) ∧
  filterVariantsByLanguageAndRole (H := referenceLanguageUtils)
    sampleRoleVariants "" "sign" = [sampleAudioVariant 1 "en" ["main"]] ∧
  filterVariantsByLanguageAndRole (H := referenceLanguageUtils)
    sampleRoleVariants "" "sign" ≠
  chosen (selectVariantsByLanguage (H := referenceLanguageUtils)
            sampleRoleVariants "").
Proof.
  split; [reflexivity|]. split; [vm_compute; reflexivity|].
  split; [repeat constructor|]. split; [vm_compute; reflexivity|].
  vm_compute. discriminate.
Qed.

(** C7.  When some entry of the selection has a role, every entry of the
    selector's output exposes one common role (among the audio and video
    roles of a variant, among the roles of a text stream): the preferred
    role when it is supplied and some entry of the selection exposes it, the
    first role met in the selection otherwise. *)
Theorem selector_output_shares_one_role :
  ∀ (utils : LanguageUtils) (variants : list Variant.t)
    (streams : list Stream.t) (preferredLanguage preferredRole : string),
    let variantSelection :=
      chosen (selectVariantsByLanguage variants preferredLanguage) in
    let streamSelection :=
      chosen (selectStreamsByLanguage streams preferredLanguage) in
    ((∃ variant, variant ∈ variantSelection ∧ variantRoles variant ≠ []) →
     ∃ role,
       (∀ variant,
          variant ∈ filterVariantsByLanguageAndRole variants preferredLanguage
                      preferredRole →
          role ∈ variantRoles variant) ∧
       (JS.nonEmpty preferredRole = true →
        (∃ variant, variant ∈ variantSelection ∧
                    preferredRole ∈ variantRoles variant) →
        role = preferredRole) ∧
       (¬ (JS.nonEmpty preferredRole = true ∧
           ∃ variant, variant ∈ variantSelection ∧
                      preferredRole ∈ variantRoles variant) →
        firstRole (map variantRoles variantSelection) = Some role)) ∧
    ((∃ stream, stream ∈ streamSelection ∧ Stream.roles stream ≠ []) →
     ∃ role,
       (∀ stream,
          stream ∈ filterStreamsByLanguageAndRole streams preferredLanguage
                     preferredRole →
          role ∈ Stream.roles stream) ∧
       (JS.nonEmpty preferredRole = true →
        (∃ stream, stream ∈ streamSelection ∧
                   preferredRole ∈ Stream.roles stream) →
        role = preferredRole) ∧
       (¬ (JS.nonEmpty preferredRole = true ∧
           ∃ stream, stream ∈ streamSelection ∧
                     preferredRole ∈ Stream.roles stream) →
        firstRole (map Stream.roles streamSelection) = Some role)).
Proof.
  intros utils variants streams preferredLanguage preferredRole. cbv zeta.
  unfold filterVariantsByLanguageAndRole, filterStreamsByLanguageAndRole.
  rewrite refineVariantsByRole_spec, refineStreamsByRole_spec.
  split; apply refineByRole_homogeneous.
Qed.

(** The role "caption" is asked for; the first role of the selection is
    "subtitle". *)
Lemma selector_output_shares_one_role_witness :
  ∃ role,
    role = "caption" ∧
    ∀ stream,
      stream ∈ filterStreamsByLanguageAndRole (H := referenceLanguageUtils)
                 sampleRoleStreams "" "caption" →
      role ∈ Stream.roles stream.
Proof.
  destruct (proj2 (selector_output_shares_one_role referenceLanguageUtils
                     sampleRoleVariants sampleRoleStreams "" "caption"))
    as (role & Hshared & Hpreferred & _).
  - exists (sampleTextStream 3 "en" ["subtitle"]).
    split; [vm_compute; left | discriminate].
  - exists role. split; [|exact Hshared].
    apply Hpreferred; [reflexivity|].
    exists (sampleTextStream 5 "en" ["caption"]).
    split; [vm_compute; right; right; left | left].
Defined.

Example first_role_without_preference :
  filterStreamsByLanguageAndRole (H := referenceLanguageUtils)
    sampleRoleStreams "" "" =
  [sampleTextStream 3 "en" ["subtitle"];
   sampleTextStream 4 "en" ["caption"; "subtitle"]].
Proof. vm_compute. reflexivity. Qed.

Example preferred_role_satisfied :
  filterStreamsByLanguageAndRole (H := referenceLanguageUtils)
    sampleRoleStreams "" "caption" =
  [sampleTextStream 4 "en" ["caption"; "subtitle"];
   sampleTextStream 5 "en" ["caption"]].
Proof. vm_compute. reflexivity. Qed.

(** C10.  When some variant of the input is playable,
    [filterVariantsByLanguageAndRole] returns a non-empty list, and every
    variant it returns is a playable variant of the input, whatever the
    preferred language and role. *)
Theorem selector_output_nonempty_within_playable :
  ∀ (utils : LanguageUtils) (variants : list Variant.t)
    (preferredLanguage preferredRole : string),
    getPlayableVariants variants ≠ [] →
    filterVariantsByLanguageAndRole variants preferredLanguage preferredRole
      ≠ [] ∧
    ∀ variant,
      variant ∈ filterVariantsByLanguageAndRole variants preferredLanguage
                  preferredRole →
      variant ∈ getPlayableVariants variants.
Proof.
  intros utils variants preferredLanguage preferredRole Hplayable.
  destruct (selectVariantsByLanguage_within variants preferredLanguage
              Hplayable) as [Hnonempty Hsubset].
  unfold filterVariantsByLanguageAndRole. rewrite refineVariantsByRole_spec.
  split; [by apply refineByRole_nonempty|].
  intros variant Hin. apply Hsubset.
  eapply elem_of_sublist; [exact Hin | apply refineByRole_sublist].
Qed.

(** Neither German nor the role "sign" is on offer. *)
Lemma selector_output_nonempty_within_playable_witness :
  filterVariantsByLanguageAndRole (H := referenceLanguageUtils)
    sampleLanguageVariants "de" "sign" ≠ [] ∧
  ∀ variant,
    variant ∈ filterVariantsByLanguageAndRole (H := referenceLanguageUtils)
                sampleLanguageVariants "de" "sign" →
    variant ∈ getPlayableVariants sampleLanguageVariants.
Proof.
  apply (selector_output_nonempty_within_playable referenceLanguageUtils
           sampleLanguageVariants "de" "sign").
  vm_compute. discriminate.
Defined.

Example unsatisfiable_preferences :
  filterVariantsByLanguageAndRole (H := referenceLanguageUtils)
    sampleLanguageVariants "de" "sign" = [sampleAudioVariant 1 "en" ["main"]].
Proof. vm_compute. reflexivity. Qed.

(** * The track lists and the lookups

    The rest of [stream_utils.js]: the projections to track lists, the
    lookups by id, and the rebuffering goal. *)

(** Modelled from the spec: the values of
    [shaka.util.ManifestParserUtils.ContentType] are not in
    [stream_utils.js]; the spec has "[type] ∈ {audio, video, text}" and, for
    the track of a text stream, "[type = text]". *)
Definition contentTypeName (type : ContentType) : string :=
  match type with
  | VIDEO => "video"
  | AUDIO => "audio"
  | TEXT => "text"
  end.

(** [track.active = active] *)
Definition setActive (track : Track.t) (active : bool) : Track.t :=
  {| Track.id := Track.id track;
     Track.active := active;
     Track.type := Track.type track;
     Track.bandwidth := Track.bandwidth track;
     Track.language := Track.language track;
     Track.label := Track.label track;
     Track.kind := Track.kind track;
     Track.width := Track.width track;
     Track.height := Track.height track;
     Track.frameRate := Track.frameRate track;
     Track.mimeType := Track.mimeType track;
     Track.codecs := Track.codecs track;
     Track.audioCodec := Track.audioCodec track;
     Track.videoCodec := Track.videoCodec track;
     Track.primary := Track.primary track;
     Track.roles := Track.roles track;
     Track.videoId := Track.videoId track;
     Track.audioId := Track.audioId track;
     Track.channelsCount := Track.channelsCount track;
     Track.audioBandwidth := Track.audioBandwidth track;
     Track.videoBandwidth := Track.videoBandwidth track |}.

Definition textStreamToTrack (stream : Stream.t) : Track.t :=
  {| Track.id := Stream.id stream;
     Track.active := false;
     Track.type := contentTypeName TEXT;
     Track.bandwidth := JS.Fin 0;
     Track.language := Stream.language stream;
     Track.label := Stream.label stream;
     Track.kind := JS.stringOrNull (Stream.kind stream);
     Track.width := None;
     Track.height := None;
     Track.frameRate := None;
     Track.mimeType := Some (Stream.mimeType stream);
     Track.codecs := JS.stringOrNull (Some (Stream.codecs stream));
     Track.audioCodec := None;
     Track.videoCodec := None;
     Track.primary := Stream.primary stream;
     Track.roles := Stream.roles stream;
     Track.videoId := None;
     Track.audioId := None;
     Track.channelsCount := None;
     Track.audioBandwidth := None;
     Track.videoBandwidth := None |}.

(** [getTracks]: two loops that push onto [tracks]. *)
Definition getTracks (period : Period.t) : list Track.t :=
  let tracks := [] in
  let variants := getPlayableVariants (Period.variants period) in
  let textStreams := Period.textStreams period in
  let tracks :=
    foldl (λ tracks variant, tracks ++ [variantToTrack variant])
          tracks variants in
  let tracks :=
    foldl (λ tracks stream, tracks ++ [textStreamToTrack stream])
          tracks textStreams in
  tracks.

(** [activeId == id], for an active id that may be null *)
Definition idEquals (activeId : option Z) (id : Z) : bool :=
  match activeId with
  | Some activeId => bool_decide (activeId = id)
  | None => false
  end.

Definition getVariantTracks (period : Period.t)
    (activeAudioId activeVideoId : option Z) : list Track.t :=
  let variants := getPlayableVariants (Period.variants period) in
  map (λ variant,
         let track := variantToTrack variant in
         match Variant.video variant, Variant.audio variant with
         | Some video, Some audio =>
             setActive track
               (idEquals activeVideoId (Stream.id video) &&
                idEquals activeAudioId (Stream.id audio))
         | Some video, None =>
             setActive track (idEquals activeVideoId (Stream.id video))
         | None, Some audio =>
             setActive track (idEquals activeAudioId (Stream.id audio))
         | None, None => track
         end)
      variants.

Definition getTextTracks (period : Period.t) (activeStreamId : option Z)
    : list Track.t :=
  map (λ stream,
         let track := textStreamToTrack stream in
         setActive track (idEquals activeStreamId (Stream.id stream)))
      (Period.textStreams period).

(** The loop of [findVariantForTrack]. *)
Fixpoint findVariantWithId (variants : list Variant.t) (id : Z)
    : option Variant.t :=
  match variants with
  | [] => None
  | variant :: rest =>
      if bool_decide (Variant.id variant = id) then Some variant
      else findVariantWithId rest id
  end.

Definition findVariantForTrack (period : Period.t) (track : Track.t)
    : option Variant.t :=
  findVariantWithId (Period.variants period) (Track.id track).

(** The loop of [findTextStreamForTrack]. *)
Fixpoint findStreamWithId (streams : list Stream.t) (id : Z)
    : option Stream.t :=
  match streams with
  | [] => None
  | stream :: rest =>
      if bool_decide (Stream.id stream = id) then Some stream
      else findStreamWithId rest id
  end.

Definition findTextStreamForTrack (period : Period.t) (track : Track.t)
    : option Stream.t :=
  findStreamWithId (Period.textStreams period) (Track.id track).

(** [matchesId] of [getVariantByStreamIds].  Reading [stream.id] of a null
    stream is a TypeError ([None]). *)
Definition matchesId (id : option Z) (stream : option Stream.t)
    : option bool :=
  match id with
  | None => Some (bool_decide (stream = None))
  | Some id =>
      match stream with
      | Some stream => Some (bool_decide (Stream.id stream = id))
      | None => None
      end
  end.

(** [getVariantByStreamIds]: [None] is a TypeError, [Some None] is null. *)
Fixpoint getVariantByStreamIds (audioId videoId : option Z)
    (variants : list Variant.t) : option (option Variant.t) :=
  match variants with
  | [] => Some None
  | variant :: rest =>
      matchesId audioId (Variant.audio variant) ≫= λ audioMatches : bool,
      if audioMatches
      then matchesId videoId (Variant.video variant) ≫= λ videoMatches : bool,
           if videoMatches then Some (Some variant)
           else getVariantByStreamIds audioId videoId rest
      else getVariantByStreamIds audioId videoId rest
  end.

(** [Math.max(a, b)] *)
Definition Math_max (a b : JS.number) : JS.number :=
  match a, b with
  | JS.NaN, _ | _, JS.NaN => JS.NaN
  | _, _ => if JS.lt a b then b else a
  end.

(** [shakaExtern.StreamingConfiguration], as far as it is read here. *)
Module StreamingConfiguration.
Record t : Type := mk { rebufferingGoal : JS.number }.
End StreamingConfiguration.

Definition getRebufferingGoal (manifest : Manifest.t)
    (config : StreamingConfiguration.t) (scaleFactor : JS.number) : JS.number :=
  JS.mul scaleFactor
    (Math_max
       (if JS.truthy (Manifest.minBufferTime manifest)
        then Manifest.minBufferTime manifest else JS.Fin 0)
       (StreamingConfiguration.rebufferingGoal config)).

(** ** Samples *)

(** A playable variant with an audio and a video stream of the given ids. *)
Definition sampleAvVariant (id audioId videoId : Z) : Variant.t :=
  {| Variant.id := id; Variant.bandwidth := JS.Fin 1128000;
     Variant.language := "en"; Variant.primary := false;
     Variant.audio :=
       Some (sampleStream audioId AUDIO "en" "audio/mp4" "mp4a.40.2" []);
     Variant.video := Some (sampleVideo videoId 1280 720);
     Variant.allowedByApplication := true;
     Variant.allowedByKeySystem := true |}.

(** Two audio+video variants, one of them not allowed by the application,
    a video-only variant, and two text streams. *)
Definition sampleTrackPeriod : Period.t :=
  {| Period.startTime := JS.Fin 0;
     Period.variants :=
       [sampleAvVariant 10 1 2;
        Variant.setAllowedByApplication (sampleAvVariant 11 1 3) false;
        sampleVideoVariant 12 1280 720 true];
     Period.textStreams :=
       [sampleTextStream 20 "en" []; sampleTextStream 21 "fr" []] |}.

(** ** Track lists *)

Lemma push_foldl {A B : Type} (f : A → B) (l : list A) :
  ∀ acc, foldl (λ acc x, acc ++ [f x]) acc l = acc ++ map f l.
Proof.
  induction l as [|x l IH]; intros acc; simpl.
  - by rewrite app_nil_r.
  - rewrite IH. by rewrite <- app_assoc.
Qed.

Lemma getTracks_map period :
  getTracks period =
  map variantToTrack (getPlayableVariants (Period.variants period)) ++
  map textStreamToTrack (Period.textStreams period).
Proof. unfold getTracks. by rewrite !push_foldl. Qed.

Lemma getVariantTracks_no_active_id period :
  getVariantTracks period None None =
  map variantToTrack (getPlayableVariants (Period.variants period)).
Proof.
  unfold getVariantTracks. apply map_ext. intros variant.
  by destruct (Variant.video variant), (Variant.audio variant).
Qed.

Lemma getTextTracks_no_active_id period :
  getTextTracks period None = map textStreamToTrack (Period.textStreams period).
Proof. reflexivity. Qed.

(** X1.  The tracks of a period are the variant tracks followed by the text
    tracks, as [getVariantTracks] and [getTextTracks] give them when no
    stream is active: one track per playable variant, then one per text
    stream, none of them active. *)
Theorem getTracks_variant_tracks_then_text_tracks :
  ∀ period : Period.t,
    getTracks period =
      getVariantTracks period None None ++ getTextTracks period None ∧
    length (getTracks period) =
      (length (getPlayableVariants (Period.variants period)) +
       length (Period.textStreams period))%nat ∧
    Forall (λ track, Track.active track = false) (getTracks period).
Proof.
  intros period.
  rewrite getVariantTracks_no_active_id, getTextTracks_no_active_id,
    getTracks_map.
  split; [reflexivity|]. split.
  - by rewrite length_app, !length_map.
  - apply Forall_app. split; apply Forall_forall; intros track Hin;
      apply list_elem_of_fmap in Hin as (x & -> & _); reflexivity.
Qed.

(** The ids of the streams of a variant. *)
Definition streamIds (variant : Variant.t) : option Z * option Z :=
  (Stream.id <$> Variant.audio variant, Stream.id <$> Variant.video variant).

Definition hasBothStreams (variant : Variant.t) : Prop :=
  is_Some (Variant.audio variant) ∧ is_Some (Variant.video variant).

(** The track that [getVariantTracks] makes of one variant. *)
Definition variantTrack (activeAudioId activeVideoId : option Z)
    (variant : Variant.t) : Track.t :=
  let track := variantToTrack variant in
  match Variant.video variant, Variant.audio variant with
  | Some video, Some audio =>
      setActive track
        (idEquals activeVideoId (Stream.id video) &&
         idEquals activeAudioId (Stream.id audio))
  | Some video, None =>
      setActive track (idEquals activeVideoId (Stream.id video))
  | None, Some audio =>
      setActive track (idEquals activeAudioId (Stream.id audio))
  | None, None => track
  end.

Lemma idEquals_true activeId id :
  idEquals activeId id = true ↔ activeId = Some id.
Proof.
  destruct activeId as [activeId|]; simpl; [|done].
  rewrite bool_decide_eq_true. split; congruence.
Qed.

Lemma variantTrack_active activeAudioId activeVideoId variant :
  hasBothStreams variant →
  Track.active (variantTrack activeAudioId activeVideoId variant) = true ↔
  streamIds variant = (activeAudioId, activeVideoId).
Proof.
  intros [[audio Haudio] [video Hvideo]].
  unfold variantTrack, streamIds. rewrite Haudio, Hvideo. simpl.
  rewrite andb_true_iff, !idEquals_true. split.
  - by intros [-> ->].
  - by intros [= <- <-].
Qed.

Lemma variantTrack_streamIds activeAudioId activeVideoId variant :
  let track := variantTrack activeAudioId activeVideoId variant in
  Track.audioId track = (streamIds variant).1 ∧
  Track.videoId track = (streamIds variant).2.
Proof.
  unfold variantTrack, streamIds, variantToTrack.
  destruct (Variant.video variant), (Variant.audio variant);
    split; reflexivity.
Qed.

Lemma variantTracks_one_active activeAudioId activeVideoId variants :
  Forall hasBothStreams variants →
  NoDup (map streamIds variants) →
  (length (filter (λ track, Track.active track)
             (map (variantTrack activeAudioId activeVideoId) variants))
   ≤ 1)%nat.
Proof.
  induction 1 as [|variant variants Hboth Hrest IH]; [simpl; lia|].
  intros [Hnotin Hnodup]%NoDup_cons. simpl. rewrite filter_cons.
  specialize (IH Hnodup). case_decide as Hactive; [|lia].
  apply Is_true_true, variantTrack_active in Hactive; [|done].
  assert (Hnone : filter (λ track, Track.active track)
                    (map (variantTrack activeAudioId activeVideoId) variants)
                  = []).
  { destruct (filter _ _) as [|track tracks] eqn:Hfilter; [done|].
    assert (Hin : track ∈ track :: tracks) by by left.
    rewrite <- Hfilter in Hin.
    apply list_elem_of_filter in Hin as [Hact Hin].
    apply list_elem_of_fmap in Hin as (variant' & -> & Hin).
    destruct Hnotin. apply list_elem_of_fmap. exists variant'.
    split; [|done]. rewrite Hactive. symmetry.
    apply variantTrack_active; [|by apply Is_true_true].
    by eapply Forall_forall in Hrest. }
  rewrite Hnone. simpl. lia.
Qed.

(** X2.  When every playable variant has an audio and a video stream and no
    two of them have the same pair of stream ids, [getVariantTracks] marks
    at most one track active, and an active track carries exactly the
    active audio and video ids. *)
Theorem getVariantTracks_at_most_one_active :
  ∀ (period : Period.t) (activeAudioId activeVideoId : option Z),
    Forall hasBothStreams (getPlayableVariants (Period.variants period)) →
    NoDup (map streamIds (getPlayableVariants (Period.variants period))) →
    (length (filter (λ track, Track.active track)
               (getVariantTracks period activeAudioId activeVideoId))
     ≤ 1)%nat ∧
    ∀ track,
      track ∈ getVariantTracks period activeAudioId activeVideoId →
      Track.active track = true →
      Track.audioId track = activeAudioId ∧
      Track.videoId track = activeVideoId.
Proof.
  intros period activeAudioId activeVideoId Hboth Hnodup.
  change (getVariantTracks period activeAudioId activeVideoId)
    with (map (variantTrack activeAudioId activeVideoId)
              (getPlayableVariants (Period.variants period))).
  split; [by apply variantTracks_one_active|].
  intros track (variant & -> & Hin)%list_elem_of_fmap Hactive.
  assert (Hvariant : hasBothStreams variant)
    by by eapply Forall_forall in Hboth.
  apply variantTrack_active in Hactive; [|done].
  destruct (variantTrack_streamIds activeAudioId activeVideoId variant)
    as [-> ->].
  by rewrite Hactive.
Qed.

Lemma getVariantTracks_at_most_one_active_witness :
  map Track.active (getVariantTracks sampleTrackPeriod (Some 1%Z) (Some 2%Z)) =
    [true; false] ∧
  (length (filter (λ track, Track.active track)
             (getVariantTracks
                {| Period.startTime := JS.Fin 0;
                   Period.variants :=
                     [sampleAvVariant 10 1 2; sampleAvVariant 11 1 3];
                   Period.textStreams := [] |}
                (Some 1%Z) (Some 3%Z)))
   ≤ 1)%nat.
Proof.
  split; [vm_compute; reflexivity|].
  apply (getVariantTracks_at_most_one_active
           {| Period.startTime := JS.Fin 0;
              Period.variants :=
                [sampleAvVariant 10 1 2; sampleAvVariant 11 1 3];
              Period.textStreams := [] |} (Some 1%Z) (Some 3%Z)).
  - repeat constructor; by eexists.
  - apply (bool_decide_unpack _). vm_compute. exact I.
Defined.

(** A video-only variant shares the active video stream with an audio+video
    variant: both tracks are active. *)
Example getVariantTracks_two_active :
  map Track.active
    (getVariantTracks
       {| Period.startTime := JS.Fin 0;
          Period.variants :=
            [sampleAvVariant 10 1 2; sampleVideoVariant 2 1280 720 true];
          Period.textStreams := [] |}
       (Some 1%Z) (Some 2%Z)) = [true; true].
Proof. vm_compute. reflexivity. Qed.

Lemma one_active_per_key {A K : Type} `{EqDecision K} (key : A → K) (k : K)
    (track : A → Track.t) (entries : list A) :
  (∀ entry, Track.active (track entry) = true ↔ key entry = k) →
  NoDup (map key entries) →
  (length (filter (λ track, Track.active track) (map track entries)) ≤ 1)%nat.
Proof.
  intros Hactive. induction entries as [|entry entries IH]; [simpl; lia|].
  intros [Hnotin Hnodup]%NoDup_cons. simpl. rewrite filter_cons.
  specialize (IH Hnodup). case_decide as Hentry; [|lia].
  apply Is_true_true, Hactive in Hentry.
  destruct (filter _ (map track entries)) as [|other others] eqn:Hfilter;
    [simpl; lia|].
  assert (Hin : other ∈ other :: others) by by left.
  rewrite <- Hfilter in Hin. apply list_elem_of_filter in Hin as [Hact Hin].
  apply list_elem_of_fmap in Hin as (entry' & -> & Hin).
  apply Is_true_true, Hactive in Hact. destruct Hnotin.
  apply list_elem_of_fmap. exists entry'. split; [congruence | done].
Qed.

(** X3.  [getTextTracks] marks a track active exactly when its id is the
    active stream id, so no track is active when that id is null and at most
    one is when the text streams have distinct ids; apart from [active] the
    tracks are those of [textStreamToTrack], in the order of the streams. *)
Theorem getTextTracks_active_iff_id :
  ∀ (period : Period.t) (activeStreamId : option Z),
    Forall (λ track,
              Track.active track = true ↔
              activeStreamId = Some (Track.id track))
           (getTextTracks period activeStreamId) ∧
    map (λ track, setActive track false)
        (getTextTracks period activeStreamId) =
      map textStreamToTrack (Period.textStreams period) ∧
    (NoDup (map Stream.id (Period.textStreams period)) →
     (length (filter (λ track, Track.active track)
                (getTextTracks period activeStreamId))
      ≤ 1)%nat).
Proof.
  intros period activeStreamId. unfold getTextTracks. split; [|split].
  - apply Forall_forall. intros track (stream & -> & _)%list_elem_of_fmap.
    simpl. apply idEquals_true.
  - rewrite <- list_fmap_compose. by apply map_ext.
  - destruct activeStreamId as [activeId|].
    + apply (one_active_per_key Stream.id activeId). intros stream. simpl.
      rewrite bool_decide_eq_true. split; congruence.
    + intros _. induction (Period.textStreams period) as [|stream streams IH];
        [simpl; lia|].
      simpl. rewrite filter_cons_False; [exact IH | simpl; intros []].
Qed.

Lemma getTextTracks_active_iff_id_witness :
  map Track.active (getTextTracks sampleTrackPeriod (Some 21%Z)) =
    [false; true] ∧
  (length (filter (λ track, Track.active track)
             (getTextTracks sampleTrackPeriod (Some 21%Z)))
   ≤ 1)%nat.
Proof.
  split; [vm_compute; reflexivity|].
  apply (proj2 (proj2 (getTextTracks_active_iff_id sampleTrackPeriod
                         (Some 21%Z)))).
  apply (bool_decide_unpack _). vm_compute. exact I.
Defined.

(** ** Lookups by id *)

(** [x] is the first entry of [l] with property [P]. *)
Definition isFirstWith {A : Type} (P : A → Prop) (l : list A) (x : A) : Prop :=
  ∃ before after, l = before ++ x :: after ∧ Forall (λ y, ¬ P y) before ∧ P x.

Lemma head_filter_first {A : Type} (P : A → Prop) `{!∀ x, Decision (P x)}
    (l : list A) (x : A) :
  head (filter P l) = Some x ↔ isFirstWith P l x.
Proof.
  induction l as [|y l IH].
  - split; [done|]. intros (before & after & Heq & _). by destruct before.
  - rewrite filter_cons. destruct (decide (P y)) as [Hy|Hy]; simpl.
    + split.
      * intros [= ->]. exists [], l. by repeat constructor.
      * intros ([|z before] & after & Heq & Hbefore & Hx);
          simplify_eq/=; [done|].
        by apply Forall_cons in Hbefore as [? _].
    + rewrite IH. split.
      * intros (before & after & -> & Hbefore & Hx).
        exists (y :: before), after. by repeat constructor.
      * intros ([|z before] & after & Heq & Hbefore & Hx); simplify_eq/=;
          [done|].
        apply Forall_cons in Hbefore as [_ Hbefore]. by exists before, after.
Qed.

Lemma head_filter_None {A : Type} (P : A → Prop) `{!∀ x, Decision (P x)}
    (l : list A) :
  head (filter P l) = None ↔ ∀ x, x ∈ l → ¬ P x.
Proof.
  split.
  - intros Hhead x Hin HP.
    assert (Hkept : x ∈ filter P l) by by apply list_elem_of_filter.
    destruct (filter P l); [by apply elem_of_nil in Hkept | done].
  - intros Hnone. destruct (filter P l) as [|x kept] eqn:Hfilter; [done|].
    assert (Hin : x ∈ x :: kept) by by left.
    rewrite <- Hfilter in Hin. apply list_elem_of_filter in Hin as [HP Hin].
    destruct (Hnone x Hin HP).
Qed.

Lemma head_filter_unique {A K : Type} `{EqDecision K} (key : A → K)
    (l : list A) (x : A) :
  NoDup (map key l) → x ∈ l →
  head (filter (λ y, key y = key x) l) = Some x.
Proof.
  induction l as [|y l IH]; intros Hnodup Hin; [by apply elem_of_nil in Hin|].
  apply NoDup_cons in Hnodup as [Hnotin Hnodup]. rewrite filter_cons.
  apply elem_of_cons in Hin as [->|Hin].
  - by rewrite decide_True.
  - rewrite decide_False; [by apply IH|].
    intros Heq. destruct Hnotin. rewrite Heq.
    apply list_elem_of_fmap. by exists x.
Qed.

Lemma findVariantWithId_head variants id :
  findVariantWithId variants id =
  head (filter (λ variant, Variant.id variant = id) variants).
Proof.
  induction variants as [|variant variants IH]; [reflexivity|].
  simpl. rewrite filter_cons. by case_bool_decide; case_decide.
Qed.

Lemma findStreamWithId_head streams id :
  findStreamWithId streams id =
  head (filter (λ stream, Stream.id stream = id) streams).
Proof.
  induction streams as [|stream streams IH]; [reflexivity|].
  simpl. rewrite filter_cons. by case_bool_decide; case_decide.
Qed.

(** X4.  [findVariantForTrack] returns the first variant of the period whose
    id is the track's id, playable or not, and null exactly when no variant
    has that id; [findTextStreamForTrack] does the same among the text
    streams.  Neither looks at the track's type. *)
Theorem find_for_track_first_with_id :
  ∀ (period : Period.t) (track : Track.t),
    (∀ variant,
       findVariantForTrack period track = Some variant ↔
       isFirstWith (λ variant, Variant.id variant = Track.id track)
         (Period.variants period) variant) ∧
    (findVariantForTrack period track = None ↔
     ∀ variant, variant ∈ Period.variants period →
                Variant.id variant ≠ Track.id track) ∧
    (∀ stream,
       findTextStreamForTrack period track = Some stream ↔
       isFirstWith (λ stream, Stream.id stream = Track.id track)
         (Period.textStreams period) stream) ∧
    (findTextStreamForTrack period track = None ↔
     ∀ stream, stream ∈ Period.textStreams period →
               Stream.id stream ≠ Track.id track).
Proof.
  intros period track. unfold findVariantForTrack, findTextStreamForTrack.
  rewrite findVariantWithId_head, findStreamWithId_head.
  split; [intros variant; apply head_filter_first|].
  split; [apply head_filter_None|].
  split; [intros stream; apply head_filter_first | apply head_filter_None].
Qed.

(** X5.  In a period whose variants have distinct ids, every variant is
    found again from its track, whatever the active ids: the tracks of
    [getVariantTracks] lead back to the playable variants they were made
    of.  Likewise for text streams with distinct ids and [getTextTracks]. *)
Theorem track_leads_back_to_its_source :
  ∀ (period : Period.t) (activeAudioId activeVideoId activeStreamId : option Z),
    (NoDup (map Variant.id (Period.variants period)) →
     map (findVariantForTrack period)
         (getVariantTracks period activeAudioId activeVideoId) =
     map Some (getPlayableVariants (Period.variants period))) ∧
    (NoDup (map Stream.id (Period.textStreams period)) →
     map (findTextStreamForTrack period)
         (getTextTracks period activeStreamId) =
     map Some (Period.textStreams period)).
Proof.
  intros period activeAudioId activeVideoId activeStreamId. split.
  - intros Hnodup. unfold getVariantTracks.
    rewrite <- list_fmap_compose. apply Forall_fmap_ext, Forall_forall.
    intros variant Hin%list_elem_of_filter. simpl.
    unfold findVariantForTrack. rewrite findVariantWithId_head.
    replace (Track.id _) with (Variant.id variant)
      by by destruct (Variant.video variant), (Variant.audio variant).
    apply head_filter_unique; [done | tauto].
  - intros Hnodup. unfold getTextTracks.
    rewrite <- list_fmap_compose. apply Forall_fmap_ext, Forall_forall.
    intros stream Hin. simpl.
    unfold findTextStreamForTrack. rewrite findStreamWithId_head. simpl.
    by apply head_filter_unique.
Qed.

Lemma track_leads_back_to_its_source_witness :
  map (findVariantForTrack sampleTrackPeriod)
      (getVariantTracks sampleTrackPeriod (Some 1%Z) (Some 2%Z)) =
    [Some (sampleAvVariant 10 1 2);
     Some (sampleVideoVariant 12 1280 720 true)] ∧
  map (findTextStreamForTrack sampleTrackPeriod)
      (getTextTracks sampleTrackPeriod None) =
    [Some (sampleTextStream 20 "en" []); Some (sampleTextStream 21 "fr" [])].
Proof.
  destruct (track_leads_back_to_its_source sampleTrackPeriod
              (Some 1%Z) (Some 2%Z) None) as [Hvariants Hstreams].
  rewrite Hvariants, Hstreams.
  - split; vm_compute; reflexivity.
  - apply (bool_decide_unpack _). vm_compute. exact I.
  - apply (bool_decide_unpack _). vm_compute. exact I.
Defined.

Lemma matchesId_true id stream :
  matchesId id stream = Some true ↔ Stream.id <$> stream = id.
Proof.
  unfold matchesId. destruct id as [id|], stream as [stream|]; simpl;
    try case_bool_decide; split; intros; simplify_eq; done.
Qed.

Lemma matchesId_present id stream :
  (is_Some id → is_Some stream) →
  matchesId id stream = Some (bool_decide (Stream.id <$> stream = id)).
Proof.
  intros Hpresent. unfold matchesId.
  destruct id as [id|], stream as [stream|]; simpl.
  - by repeat case_bool_decide; simplify_eq.
  - destruct Hpresent as [? [=]]. by eexists.
  - by repeat case_bool_decide; simplify_eq.
  - by repeat case_bool_decide; simplify_eq.
Qed.

(** A variant has a stream of each kind for which an id is given. *)
Definition hasStreamsFor (audioId videoId : option Z) (variant : Variant.t)
    : Prop :=
  (is_Some audioId → is_Some (Variant.audio variant)) ∧
  (is_Some videoId → is_Some (Variant.video variant)).

(** X6.  A variant that [getVariantByStreamIds] returns is one of the given
    variants and has exactly the given stream ids, with no stream of a kind
    whose id is null.  When every variant has a stream of each kind for
    which an id is given, the call does not fail and returns the first such
    variant, or null when there is none. *)
Theorem getVariantByStreamIds_first_with_ids :
  ∀ (audioId videoId : option Z) (variants : list Variant.t),
    (∀ variant,
       getVariantByStreamIds audioId videoId variants = Some (Some variant) →
       variant ∈ variants ∧ streamIds variant = (audioId, videoId)) ∧
    (Forall (hasStreamsFor audioId videoId) variants →
     getVariantByStreamIds audioId videoId variants =
     Some (head (filter (λ variant, streamIds variant = (audioId, videoId))
                        variants))).
Proof.
  intros audioId videoId variants. split.
  - induction variants as [|variant variants IH]; intros found; [done|].
    simpl.
    destruct (matchesId audioId (Variant.audio variant)) as [[]|] eqn:Haudio;
      simpl; [|intros [? ?]%IH; split; [by right | done] | done].
    destruct (matchesId videoId (Variant.video variant)) as [[]|] eqn:Hvideo;
      simpl; [|intros [? ?]%IH; split; [by right | done] | done].
    intros [= <-]. split; [by left|].
    apply matchesId_true in Haudio, Hvideo. unfold streamIds. congruence.
  - induction 1 as [|variant variants [Haudio Hvideo] _ IH]; [reflexivity|].
    simpl. rewrite (matchesId_present _ _ Haudio). simpl.
    rewrite filter_cons.
    case_bool_decide as Ha; simpl.
    + rewrite (matchesId_present _ _ Hvideo). simpl.
      case_bool_decide as Hv.
      * rewrite decide_True by (unfold streamIds; by rewrite Ha, Hv).
        reflexivity.
      * rewrite decide_False by (unfold streamIds; intros [= _ ?]; done).
        exact IH.
    + rewrite decide_False by (unfold streamIds; intros [= ? _]; done).
      exact IH.
Qed.

Lemma getVariantByStreamIds_first_with_ids_witness :
  getVariantByStreamIds (Some 1%Z) (Some 3%Z)
    [sampleAvVariant 10 1 2; sampleAvVariant 11 1 3] =
  Some (Some (sampleAvVariant 11 1 3)).
Proof.
  rewrite (proj2 (getVariantByStreamIds_first_with_ids (Some 1%Z) (Some 3%Z)
                    [sampleAvVariant 10 1 2; sampleAvVariant 11 1 3])).
  - vm_compute. reflexivity.
  - repeat constructor; by eexists.
Defined.

(** An audio id is asked of a video-only variant: reading the id of its
    audio stream fails. *)
Example getVariantByStreamIds_fails :
  getVariantByStreamIds (Some 1%Z) (Some 12%Z)
    [sampleVideoVariant 12 1280 720 true; sampleAvVariant 10 1 12] = None.
Proof. reflexivity. Qed.

(** With a null audio id the same list is searched without failure. *)
Example getVariantByStreamIds_video_only :
  getVariantByStreamIds None (Some 12%Z)
    [sampleAvVariant 10 1 12; sampleVideoVariant 12 1280 720 true] =
  Some (Some (sampleVideoVariant 12 1280 720 true)).
Proof. reflexivity. Qed.

(** ** Rebuffering goal *)

Lemma JS_le_Fin (x y : Q) : JS.le (JS.Fin x) (JS.Fin y) = true ↔ (x <= y)%Q.
Proof.
  unfold JS.le, JS.ge, JS.lt. by rewrite negb_involutive, Qle_bool_iff.
Qed.

(** X7.  For a non-negative scale factor and finite times, the rebuffering
    goal is the scale factor times the larger of the manifest's
    [minBufferTime] and the configured goal: it is below neither of the two
    products and not above both.  A [minBufferTime] that is not a number
    counts as 0.  The products are those of the multiplication of the code,
    and nothing is said of their size. *)
Theorem getRebufferingGoal_is_scaled_maximum :
  ∀ (manifest : Manifest.t) (config : StreamingConfiguration.t) (s m g : Q),
    (Manifest.minBufferTime manifest = JS.Fin m ∨
     Manifest.minBufferTime manifest = JS.NaN ∧ (m == 0)%Q) →
    StreamingConfiguration.rebufferingGoal config = JS.Fin g →
    (0 <= s)%Q →
    let goal := getRebufferingGoal manifest config (JS.Fin s) in
    let scaledGoal := JS.mul (JS.Fin s) (JS.Fin g) in
    let scaledBufferTime := JS.mul (JS.Fin s) (JS.Fin m) in
    JS.le scaledGoal goal = true ∧
    JS.le scaledBufferTime goal = true ∧
    (JS.le goal scaledGoal = true ∨ JS.le goal scaledBufferTime = true).
Proof.
  intros manifest config s m g Hmin Hgoal Hs. cbv zeta.
  unfold getRebufferingGoal. rewrite Hgoal.
  assert (Hinner : ∃ a,
    (if JS.truthy (Manifest.minBufferTime manifest)
     then Manifest.minBufferTime manifest else JS.Fin 0) = JS.Fin a ∧
    (a == m)%Q).
  { destruct Hmin as [->|[-> Hm]]; simpl.
    - destruct (Qeq_bool m 0) eqn:Hzero; simpl.
      + exists 0%Q. split; [done|]. apply Qeq_bool_iff in Hzero. by symmetry.
      + exists m. split; [done | reflexivity].
    - exists 0%Q. split; [done | by symmetry]. }
  destruct Hinner as (a & -> & Ha). unfold Math_max, JS.lt, JS.mul.
  destruct (Qle_bool g a) eqn:Hle; cbn [negb]; rewrite !JS_le_Fin.
  - apply Qle_bool_iff in Hle.
    rewrite Ha in *. split; [nra|]. split; [lra | right; lra].
  - assert (Hlt : (a < g)%Q).
    { apply Qnot_le_lt. intros Hga. apply Qle_bool_iff in Hga. congruence. }
    rewrite Ha in *. split; [lra|]. split; [nra | left; lra].
Qed.

Definition sampleConfiguration : StreamingConfiguration.t :=
  {| StreamingConfiguration.rebufferingGoal := JS.Fin 5 |}.

Lemma getRebufferingGoal_is_scaled_maximum_witness :
  JS.le (JS.mul (JS.Fin 3) (JS.Fin 5))
        (getRebufferingGoal sampleManifest sampleConfiguration (JS.Fin 3)) =
  true ∧
  JS.le (JS.mul (JS.Fin 3) (JS.Fin 2))
        (getRebufferingGoal sampleManifest sampleConfiguration (JS.Fin 3)) =
  true ∧
  (JS.le (getRebufferingGoal sampleManifest sampleConfiguration (JS.Fin 3))
         (JS.mul (JS.Fin 3) (JS.Fin 5)) = true ∨
   JS.le (getRebufferingGoal sampleManifest sampleConfiguration (JS.Fin 3))
         (JS.mul (JS.Fin 3) (JS.Fin 2)) = true).
Proof.
  apply (getRebufferingGoal_is_scaled_maximum sampleManifest
           sampleConfiguration 3 2 5).
  - left. reflexivity.
  - reflexivity.
  - discriminate.
Defined.

(** A manifest without a buffer time: the configured goal alone is scaled. *)
Example getRebufferingGoal_without_minBufferTime :
  getRebufferingGoal
    {| Manifest.periods := []; Manifest.minBufferTime := JS.NaN |}
    {| StreamingConfiguration.rebufferingGoal := JS.Fin 5 |} (JS.Fin 3) =
  JS.Fin (3 * 5).
Proof. reflexivity. Qed.

(** * More on the filters *)

(** ** Compatibility filter *)

Lemma filterM_Some_callback {A : Type} (callback : A → option bool)
    (array kept : list A) :
  filterM callback array = Some kept →
  ∀ x, x ∈ array → is_Some (callback x).
Proof.
  revert kept. induction array as [|y array IH]; intros kept Hkept x Hin;
    [by apply elem_of_nil in Hin|].
  simpl in Hkept. destruct (callback y) as [keep|] eqn:Hy; [|done].
  simpl in Hkept.
  destruct (filterM callback array) as [kept'|] eqn:Hrest; [|done].
  apply elem_of_cons in Hin as [->|Hin]; [by rewrite Hy | by eapply IH].
Qed.

Lemma filterM_None_callback {A : Type} (callback : A → option bool)
    (array : list A) :
  filterM callback array = None ↔ ∃ x, x ∈ array ∧ callback x = None.
Proof.
  induction array as [|y array IH]; simpl.
  - split; [done|]. intros (x & Hin & _). by apply elem_of_nil in Hin.
  - destruct (callback y) as [keep|] eqn:Hy; simpl.
    + destruct (filterM callback array) as [kept|]; simpl.
      * split; [done|]. intros (x & [->|Hin]%elem_of_cons & Hx);
          [congruence|].
        assert (Hnone : Some kept = None) by (apply IH; eauto). done.
      * split; [|done]. intros _.
        destruct (proj1 IH eq_refl) as (x & Hin & Hx).
        exists x. split; [by right | done].
    + split; [|done]. intros _. exists y. split; [by left | done].
Qed.

Lemma filterM_all_kept {A : Type} (callback : A → option bool)
    (array : list A) :
  (∀ x, x ∈ array → callback x = Some true) →
  filterM callback array = Some array.
Proof.
  induction array as [|y array IH]; intros Hall; [reflexivity|].
  simpl. rewrite (Hall y) by by left. simpl.
  rewrite IH; [done|]. intros x Hin. apply Hall. by right.
Qed.

(** X8.  [filterNewPeriod] is idempotent: on a period it has returned, a
    second call with the same DRM engine and active streams returns that
    period again. *)
Theorem filterNewPeriod_idempotent :
  ∀ (platform : Platform) (drmEngine : option DrmEngine.t)
    (activeAudio activeVideo : option Stream.t) (period period' : Period.t),
    filterNewPeriod drmEngine activeAudio activeVideo period = Some period' →
    filterNewPeriod drmEngine activeAudio activeVideo period' = Some period'.
Proof.
  intros platform drmEngine activeAudio activeVideo period period' Hfirst.
  pose proof (filterNewPeriod_sound _ _ _ _ _ Hfirst) as ->.
  unfold filterNewPeriod in *.
  destruct (match activeAudio with
            | Some activeAudio => JS.assert (isAudio activeAudio)
            | None => Some tt
            end) as [[]|]; [|done]. simpl in *.
  destruct (match activeVideo with
            | Some activeVideo => JS.assert (isVideo activeVideo)
            | None => Some tt
            end) as [[]|]; [|done]. simpl in *.
  destruct (filterM _ (Period.variants period)) as [kept|] eqn:Hkept; [|done].
  rewrite filterM_all_kept.
  - simpl. do 2 f_equal.
    rewrite (list_filter_iff _ textStreamSurvives)
      by (intros stream; apply Is_true_true).
    rewrite list_filter_filter. apply list_filter_iff. tauto.
  - intros variant [Hsurvives Hin]%list_elem_of_filter.
    destruct (filterM_Some_callback _ _ _ Hkept variant Hin) as [b Hb].
    rewrite Hb. f_equal.
    rewrite (isVariantCompatible__sound _ _ _ _ _ Hb).
    by apply bool_decide_eq_true_2.
Qed.

Lemma filterNewPeriod_idempotent_witness :
  filterNewPeriod (H := referencePlatform) (Some sampleDrmEngine) None
    (Some (sampleVideo 9 1920 1080))
    {| Period.startTime := JS.Fin 0;
       Period.variants := [sampleVideoVariant 1 1280 720 true];
       Period.textStreams := [sampleTextStream 4 "en" []] |} =
  Some {| Period.startTime := JS.Fin 0;
          Period.variants := [sampleVideoVariant 1 1280 720 true];
          Period.textStreams := [sampleTextStream 4 "en" []] |}.
Proof.
  apply (filterNewPeriod_idempotent referencePlatform (Some sampleDrmEngine)
           None (Some (sampleVideo 9 1920 1080)) sampleMixedPeriod).
  vm_compute. reflexivity.
Defined.

(** The key system rejects the variant: its streams are not looked at. *)
Definition drmRejects (drmEngine : option DrmEngine.t) (variant : Variant.t)
    : Prop :=
  match drmEngine with
  | Some drm =>
      DrmEngine.initialized drm = true ∧
      DrmEngine.isSupportedByKeySystem drm variant = false
  | None => False
  end.

(** The variant is checked without meeting a text stream: the key system
    rejects it, or its audio stream is not a text stream and either fails
    the check or comes with a video stream that is not a text stream. *)
Definition checkedWithoutText `{Platform} (drmEngine : option DrmEngine.t)
    (activeAudio : option Stream.t) (variant : Variant.t) : Prop :=
  drmRejects drmEngine variant ∨
  notText (Variant.audio variant) ∧
  (¬ presentStreamCompatible drmEngine activeAudio (Variant.audio variant) ∨
   notText (Variant.video variant)).

Lemma isStreamCompatible__Some `{Platform} drmEngine activeStream stream :
  is_Some (isStreamCompatible_ stream drmEngine activeStream) ↔
  notText stream.
Proof.
  split.
  - destruct stream as [stream|]; [|done]. simpl.
    intros [b Hb] Htext. unfold isStreamCompatible_ in Hb.
    rewrite bool_decide_eq_false_2 in Hb by tauto. done.
  - intros Htype. rewrite isStreamCompatible__spec by done. by eexists.
Qed.

Lemma isVariantCompatible__Some `{Platform} drmEngine activeAudio activeVideo
    variant :
  is_Some (isVariantCompatible_ variant drmEngine activeAudio activeVideo) ↔
  checkedWithoutText drmEngine activeAudio variant.
Proof.
  unfold isVariantCompatible_, checkedWithoutText, drmRejects.
  destruct (match drmEngine with
            | Some drm =>
                DrmEngine.initialized drm &&
                negb (DrmEngine.isSupportedByKeySystem drm variant)
            | None => false
            end) eqn:Hdrm.
  - split; [|by eexists]. intros _. left.
    destruct drmEngine as [drm|]; [|done].
    apply andb_true_iff in Hdrm as [? ?%negb_true_iff]. done.
  - assert (Hnot : ¬ match drmEngine with
                     | Some drm =>
                         DrmEngine.initialized drm = true ∧
                         DrmEngine.isSupportedByKeySystem drm variant = false
                     | None => False
                     end).
    { destruct drmEngine as [drm|]; [|tauto]. intros [Hi Hs].
      by rewrite Hi, Hs in Hdrm. }
    destruct (isStreamCompatible_ (Variant.audio variant) drmEngine
                activeAudio) as [audioOk|] eqn:Haudio; simpl.
    + assert (Htype : notText (Variant.audio variant))
        by (apply (isStreamCompatible__Some drmEngine activeAudio);
            by rewrite Haudio).
      pose proof (isStreamCompatible__sound _ _ _ _ Haudio) as ->.
      case_bool_decide as Hcompat.
      * rewrite isStreamCompatible__Some. tauto.
      * split; [|by eexists]. intros _. right. tauto.
    + split; [by intros [? ?]|]. intros [?|[Htype _]]; [tauto|].
      apply (isStreamCompatible__Some drmEngine activeAudio) in Htype.
      rewrite Haudio in Htype. by destruct Htype.
Qed.

(** X9.  [filterNewPeriod] fails on an assertion in these cases and no
    other: an active audio stream that is not of type audio, an active video
    stream that is not of type video, or a variant whose check meets a text
    stream.  A text stream in a variant goes unnoticed when the key system
    rejects the variant, and as its video stream also when its audio stream
    fails the check. *)
Theorem filterNewPeriod_returns_iff :
  ∀ (platform : Platform) (drmEngine : option DrmEngine.t)
    (activeAudio activeVideo : option Stream.t) (period : Period.t),
    is_Some (filterNewPeriod drmEngine activeAudio activeVideo period) ↔
    hasType AUDIO activeAudio ∧ hasType VIDEO activeVideo ∧
    Forall (checkedWithoutText drmEngine activeAudio) (Period.variants period).
Proof.
  intros platform drmEngine activeAudio activeVideo period.
  unfold filterNewPeriod.
  assert (Hassert : ∀ type (active : option Stream.t),
            match active with
            | Some active =>
                JS.assert (bool_decide (Stream.type active = type))
            | None => Some tt
            end = Some tt ↔ hasType type active).
  { intros type [active|]; simpl; [|done].
    case_bool_decide; simpl; split; done. }
  unfold isAudio, isVideo.
  destruct (match activeAudio with
            | Some active =>
                JS.assert (bool_decide (Stream.type active = AUDIO))
            | None => Some tt
            end) as [[]|] eqn:Haudio; simpl.
  2: { split; [by intros [? ?]|]. intros [Ha _].
       apply Hassert in Ha. congruence. }
  destruct (match activeVideo with
            | Some active =>
                JS.assert (bool_decide (Stream.type active = VIDEO))
            | None => Some tt
            end) as [[]|] eqn:Hvideo; simpl.
  2: { split; [by intros [? ?]|]. intros (_ & Hv & _).
       apply Hassert in Hv. congruence. }
  apply Hassert in Haudio, Hvideo.
  destruct (filterM _ (Period.variants period)) as [kept|] eqn:Hkept; simpl.
  - split; [|by eexists]. intros _. split; [done|]. split; [done|].
    apply Forall_forall. intros variant Hin.
    apply (isVariantCompatible__Some drmEngine activeAudio activeVideo).
    exact (filterM_Some_callback _ _ _ Hkept variant Hin).
  - split; [by intros [? ?]|]. intros (_ & _ & Hall).
    apply filterM_None_callback in Hkept as (variant & Hin & Hnone).
    eapply Forall_forall in Hall; [|exact Hin].
    apply (isVariantCompatible__Some drmEngine activeAudio activeVideo)
      in Hall.
    rewrite Hnone in Hall. by destruct Hall.
Qed.

(** A text stream as the audio stream of a variant, seen or not. *)
Example filterNewPeriod_text_stream_in_variant :
  let variant :=
    {| Variant.id := 1; Variant.bandwidth := JS.Fin 1000;
       Variant.language := "en"; Variant.primary := false;
       Variant.audio := Some (sampleTextStream 4 "en" []);
       Variant.video := None;
       Variant.allowedByApplication := true;
       Variant.allowedByKeySystem := true |} in
  let period :=
    {| Period.startTime := JS.Fin 0; Period.variants := [variant];
       Period.textStreams := [] |} in
  filterNewPeriod (H := referencePlatform) None None None period = None ∧
  filterNewPeriod (H := referencePlatform)
    (Some {| DrmEngine.initialized := true;
             DrmEngine.isSupportedByKeySystem := λ _, false;
             DrmEngine.getSupportedTypes := [] |})
    None None period =
  Some {| Period.startTime := JS.Fin 0; Period.variants := [];
          Period.textStreams := [] |}.
Proof. split; reflexivity. Qed.

Lemma filter_sublist_impl {A : Type} (P Q : A → Prop)
    `{!∀ x, Decision (P x), !∀ x, Decision (Q x)} (l : list A) :
  (∀ x, P x → Q x) → filter P l `sublist_of` filter Q l.
Proof.
  intros HPQ. replace (filter P l) with (filter P (filter Q l)).
  - apply sublist_filter.
  - rewrite list_filter_filter. apply list_filter_iff. intros x.
    split; [tauto | auto].
Qed.

(** X10.  Active streams only take variants away: what [filterNewPeriod]
    keeps with active streams is a subsequence of what it keeps without
    them, and the text streams it keeps are the same. *)
Theorem filterNewPeriod_active_streams_only_remove :
  ∀ (platform : Platform) (drmEngine : option DrmEngine.t)
    (activeAudio activeVideo : option Stream.t)
    (period kept keptWithout : Period.t),
    filterNewPeriod drmEngine activeAudio activeVideo period = Some kept →
    filterNewPeriod drmEngine None None period = Some keptWithout →
    Period.variants kept `sublist_of` Period.variants keptWithout ∧
    Period.textStreams kept = Period.textStreams keptWithout.
Proof.
  intros platform drmEngine activeAudio activeVideo period kept keptWithout
    ->%filterNewPeriod_sound ->%filterNewPeriod_sound.
  simpl. split; [|reflexivity].
  apply filter_sublist_impl. intros variant (Hdrm & Haudio & Hvideo).
  split; [exact Hdrm|].
  split; [destruct (Variant.audio variant) | destruct (Variant.video variant)];
    simpl in *; try done; unfold streamCompatible in *; tauto.
Qed.

Lemma filterNewPeriod_active_streams_only_remove_witness :
  [sampleVideoVariant 1 1280 720 true] `sublist_of`
  [sampleVideoVariant 1 1280 720 true; sampleWebmVariant 2].
Proof.
  apply (filterNewPeriod_active_streams_only_remove referencePlatform
           (Some sampleDrmEngine) None (Some (sampleVideo 9 1920 1080))
           sampleMixedPeriod
           {| Period.startTime := JS.Fin 0;
              Period.variants := [sampleVideoVariant 1 1280 720 true];
              Period.textStreams := [sampleTextStream 4 "en" []] |}
           {| Period.startTime := JS.Fin 0;
              Period.variants :=
                [sampleVideoVariant 1 1280 720 true; sampleWebmVariant 2];
              Period.textStreams := [sampleTextStream 4 "en" []] |});
    vm_compute; reflexivity.
Defined.

(** ** Restriction filter *)

(** [a <= b] for bounds: the order of [JS.Lt], made reflexive (also at
    NaN, where a bound excludes nothing). *)
Inductive JS_Le : JS.number → JS.number → Prop :=
| JS_Le_refl a : JS_Le a a
| JS_Le_fin x y : (x <= y)%Q → JS_Le (JS.Fin x) (JS.Fin y)
| JS_Le_lt a b : JS.Lt a b → JS_Le a b.

Lemma JS_Lt_trans a b c : JS.Lt a b → JS.Lt b c → JS.Lt a c.
Proof.
  intros Hab Hbc. destruct Hab; inversion Hbc; subst; constructor.
  by eapply Qlt_trans.
Qed.

Lemma JS_Lt_Le_trans a b c : JS.Lt a b → JS_Le b c → JS.Lt a c.
Proof.
  intros Hab Hbc. destruct Hbc as [b|x y Hxy|b c Hbc]; [done| |].
  - inversion Hab; subst; constructor. by eapply Qlt_le_trans.
  - by eapply JS_Lt_trans.
Qed.

Lemma JS_Le_Lt_trans a b c : JS_Le a b → JS.Lt b c → JS.Lt a c.
Proof.
  intros Hab Hbc. destruct Hab as [a|x y Hxy|a b Hab]; [done| |].
  - inversion Hbc; subst; constructor. by eapply Qle_lt_trans.
  - by eapply JS_Lt_trans.
Qed.

(** [loose] allows whatever [tight] allows: no minimum is higher, no maximum
    lower. *)
Definition looserThan (loose tight : Restrictions.t) : Prop :=
  JS_Le (Restrictions.minWidth loose) (Restrictions.minWidth tight) ∧
  JS_Le (Restrictions.maxWidth tight) (Restrictions.maxWidth loose) ∧
  JS_Le (Restrictions.minHeight loose) (Restrictions.minHeight tight) ∧
  JS_Le (Restrictions.maxHeight tight) (Restrictions.maxHeight loose) ∧
  JS_Le (Restrictions.minPixels loose) (Restrictions.minPixels tight) ∧
  JS_Le (Restrictions.maxPixels tight) (Restrictions.maxPixels loose) ∧
  JS_Le (Restrictions.minBandwidth loose) (Restrictions.minBandwidth tight) ∧
  JS_Le (Restrictions.maxBandwidth tight) (Restrictions.maxBandwidth loose).

Definition largerThan (large small : Resolution.t) : Prop :=
  JS_Le (Resolution.width small) (Resolution.width large) ∧
  JS_Le (Resolution.height small) (Resolution.height large).

(** X11.  Relaxing the restrictions or the hardware cap never rejects a
    variant that was accepted: [meetsRestrictions] is monotone in its
    bounds. *)
Theorem meetsRestrictions_monotone :
  ∀ (variant : Variant.t) (tight loose : Restrictions.t)
    (small large : Resolution.t),
    looserThan loose tight → largerThan large small →
    meetsRestrictions variant tight small = true →
    meetsRestrictions variant loose large = true.
Proof.
  intros variant tight loose small large
    (HminW & HmaxW & HminH & HmaxH & HminP & HmaxP & HminB & HmaxB)
    [HhwW HhwH] Hmeets.
  destruct (meetsRestrictions variant loose large) eqn:Hloose; [done|].
  apply meetsRestrictions_false_iff in Hloose.
  assert (Htight : violatesRestrictions variant tight small).
  { destruct Hloose as [(video & Hvideo & Hviolated)|[Hb|Hb]].
    - left. exists video. split; [done|]. simpl in *.
      destruct Hviolated as [?|[?|[?|[?|[?|[?|[?|?]]]]]]];
        eauto 10 using JS_Lt_Le_trans, JS_Le_Lt_trans.
    - right. left. by eapply JS_Lt_Le_trans.
    - right. right. by eapply JS_Le_Lt_trans. }
  apply meetsRestrictions_false_iff in Htight. congruence.
Qed.

Lemma meetsRestrictions_monotone_witness :
  meetsRestrictions (sampleVideoVariant 1 1920 1080 true) unrestricted
    unlimitedHardware = true.
Proof.
  apply (meetsRestrictions_monotone (sampleVideoVariant 1 1920 1080 true)
           (withMinWidth 1920 unrestricted) unrestricted
           {| Resolution.width := JS.Fin 1920;
              Resolution.height := JS.Fin 1080 |}
           unlimitedHardware).
  - repeat split; try apply JS_Le_refl. apply JS_Le_fin. discriminate.
  - split; apply JS_Le_lt; constructor.
  - reflexivity.
Defined.

Lemma restricted_fixed restrictions maxHwRes variant :
  restricted restrictions maxHwRes variant = variant ↔
  flips restrictions maxHwRes variant = false.
Proof.
  unfold restricted, flips. rewrite negb_false_iff, eqb_true_iff.
  destruct variant as [id bandwidth language primary audio video allowed key].
  unfold Variant.setAllowedByApplication. simpl. split.
  - by intros [= <-].
  - by intros <-.
Qed.

Lemma map_fixed {A : Type} (f : A → A) (l : list A) :
  map f l = l ↔ ∀ x, x ∈ l → f x = x.
Proof.
  induction l as [|y l IH]; simpl.
  - split; [|done]. intros _ x Hin. by apply elem_of_nil in Hin.
  - split.
    + intros [= Hy Hl] x [->|Hin]%elem_of_cons; [done|]. by apply IH.
    + intros Hall. f_equal; [apply Hall; by left|].
      apply IH. intros x Hin. apply Hall. by right.
Qed.

(** X12.  [applyRestrictions] returns false exactly when it leaves the
    period as it was. *)
Theorem applyRestrictions_false_iff_unchanged :
  ∀ (period : Period.t) (restrictions : Restrictions.t)
    (maxHwRes : Resolution.t),
    (applyRestrictions period restrictions maxHwRes).2 = false ↔
    (applyRestrictions period restrictions maxHwRes).1 = period.
Proof.
  intros period restrictions maxHwRes. unfold applyRestrictions.
  rewrite applyRestrictions_loop. simpl.
  assert (Hflips : existsb (flips restrictions maxHwRes)
                     (Period.variants period) = false ↔
                   map (restricted restrictions maxHwRes)
                     (Period.variants period) = Period.variants period).
  { rewrite map_fixed. split.
    - intros Hnone variant Hin. apply restricted_fixed.
      destruct (flips restrictions maxHwRes variant) eqn:Hflip; [|done].
      assert (existsb (flips restrictions maxHwRes) (Period.variants period)
              = true); [|congruence].
      apply existsb_exists. exists variant.
      split; [by apply list_elem_of_In | done].
    - intros Hall.
      destruct (existsb _ (Period.variants period)) eqn:Hex; [|done].
      apply existsb_exists in Hex as (variant & Hin%list_elem_of_In & Hflip).
      apply Hall, restricted_fixed in Hin. congruence. }
  rewrite Hflips. destruct period as [startTime variants textStreams]. simpl.
  split; [by intros -> | by intros [= ->]].
Qed.

Lemma variantToTrack_restricted restrictions maxHwRes variant :
  variantToTrack (restricted restrictions maxHwRes variant) =
  variantToTrack variant.
Proof. reflexivity. Qed.

(** X13.  After [applyRestrictions], [getTracks] lists the variants that
    meet the restrictions and are allowed by the key system, whatever their
    [allowedByApplication] flag was before, followed by all text streams. *)
Theorem getTracks_after_applyRestrictions :
  ∀ (period : Period.t) (restrictions : Restrictions.t)
    (maxHwRes : Resolution.t),
    getTracks (applyRestrictions period restrictions maxHwRes).1 =
    map variantToTrack
      (filter (λ variant,
                 meetsRestrictions variant restrictions maxHwRes = true ∧
                 Variant.allowedByKeySystem variant = true)
              (Period.variants period)) ++
    map textStreamToTrack (Period.textStreams period).
Proof.
  intros period restrictions maxHwRes. rewrite getTracks_map.
  unfold applyRestrictions. rewrite applyRestrictions_loop. simpl. f_equal.
  unfold getPlayableVariants.
  induction (Period.variants period) as [|variant variants IH]; [done|].
  simpl. rewrite !filter_cons.
  assert (Hplayable :
    isPlayable (restricted restrictions maxHwRes variant) ↔
    meetsRestrictions variant restrictions maxHwRes = true ∧
    Variant.allowedByKeySystem variant = true).
  { unfold isPlayable, restricted. simpl.
    by rewrite andb_True, !Is_true_true. }
  destruct (decide (isPlayable (restricted restrictions maxHwRes variant)))
    as [Hyes|Hno]; case_decide; try tauto; simpl; by rewrite IH.
Qed.

(** ** Period lookup by time *)

Lemma JS_reach_later (start : JS.number) (t1 t2 tolerance : Q) :
  (t1 <= t2)%Q →
  JS.le start (JS.add (JS.Fin t1) (JS.Fin tolerance)) = true →
  JS.le start (JS.add (JS.Fin t2) (JS.Fin tolerance)) = true.
Proof.
  intros Hle. unfold JS.le, JS.ge. destruct start as [| |x|]; simpl;
    try done.
  rewrite !negb_involutive, !Qle_bool_iff. lra.
Qed.

(** X14.  In a manifest with at least one period, the index that
    [findPeriodContainingTime] returns is the index of one of its periods.
    For finite times and a finite tolerance the index does not decrease when
    the time increases. *)
Theorem findPeriodContainingTime_in_range_and_monotone :
  ∀ (manifest : Manifest.t),
    (∀ (utils : ManifestParserUtils) (time : JS.number),
       Manifest.periods manifest ≠ [] →
       (findPeriodContainingTime manifest time
        < length (Manifest.periods manifest))%nat) ∧
    (∀ tolerance t1 t2 : Q,
       (t1 <= t2)%Q →
       (findPeriodContainingTime (H := toleranceOf tolerance) manifest
          (JS.Fin t1)
        ≤ findPeriodContainingTime (H := toleranceOf tolerance) manifest
            (JS.Fin t2))%nat).
Proof.
  intros manifest. split.
  - intros utils time Hperiods. unfold findPeriodContainingTime.
    destruct (scanPeriods_spec GAP_OVERLAP_TOLERANCE_SECONDS
                (Manifest.periods manifest) time
                (length (Manifest.periods manifest) - 1)) as (Hle & _).
    destruct (Manifest.periods manifest); [done|]. simpl in *. lia.
  - intros tolerance t1 t2 Ht. unfold findPeriodContainingTime. simpl.
    set (periods := Manifest.periods manifest).
    destruct (scanPeriods_spec (JS.Fin tolerance) periods (JS.Fin t1)
                (length periods - 1)) as (_ & Hr1 & _).
    destruct (scanPeriods_spec (JS.Fin tolerance) periods (JS.Fin t2)
                (length periods - 1)) as (_ & _ & Hlargest2).
    set (r1 := scanPeriods _ periods (JS.Fin t1) _) in *.
    set (r2 := scanPeriods _ periods (JS.Fin t2) _) in *.
    destruct Hr1 as [->|(period & Hlookup & Hreach)]; [lia|].
    destruct (decide (r1 ≤ r2)%nat) as [|Hgt]; [done|]. exfalso.
    apply (Hlargest2 r1); [lia| |].
    + apply lookup_lt_Some in Hlookup. lia.
    + exists period. split; [done|]. by eapply JS_reach_later.
Qed.

Lemma findPeriodContainingTime_in_range_and_monotone_witness :
  (findPeriodContainingTime (H := toleranceOf (1 # 15)) sampleManifest
     (JS.Fin 5)
   ≤ findPeriodContainingTime (H := toleranceOf (1 # 15)) sampleManifest
       (JS.Fin 25))%nat ∧
  (findPeriodContainingTime (H := toleranceOf (1 # 15)) sampleManifest
     (JS.Fin 25) < 3)%nat.
Proof.
  destruct (findPeriodContainingTime_in_range_and_monotone sampleManifest)
    as [Hrange Hmonotone].
  split.
  - apply Hmonotone. discriminate.
  - apply (Hrange (toleranceOf (1 # 15)) (JS.Fin 25)). discriminate.
Defined.

(** Without a period the answer is still 0, the index of no period. *)
Example findPeriodContainingTime_empty :
  findPeriodContainingTime (H := toleranceOf (1 # 15))
    {| Manifest.periods := []; Manifest.minBufferTime := JS.Fin 2 |}
    (JS.Fin 5) = 0%nat.
Proof. reflexivity. Qed.

(** * More on the language and role selector *)

Section SelectionOrder.
Context `{LanguageUtils}.

(** Within a tier: either a match was found and the selection is a
    subsequence of the variants visited so far, or none was and the
    selection is the one the tier started with. *)
Definition tierInvariant (visited start : list Variant.t)
    (st : Selection Variant.t) : Prop :=
  betterLangMatchFound st = true ∧ chosen st `sublist_of` visited ∨
  betterLangMatchFound st = false ∧ chosen st = start.

Lemma visitVariant_tierInvariant matchType visited start st variant :
  tierInvariant visited start st →
  tierInvariant (visited ++ [variant]) start
    (visitVariant matchType st variant).
Proof.
  intros [[Hfound Hsub]|[Hfound Hstart]]; unfold visitVariant, tierInvariant;
    rewrite Hfound; destruct (languageMatch _ _ _); simpl.
  - left. split; [done|]. by apply sublist_app.
  - left. split; [done|]. by apply sublist_inserts_r.
  - left. split; [done|]. by apply sublist_inserts_l.
  - by right.
Qed.

Lemma visitVariants_tierInvariant matchType start variants :
  ∀ visited st,
    tierInvariant visited start st →
    tierInvariant (visited ++ variants) start
      (foldl (visitVariant matchType) st variants).
Proof.
  induction variants as [|variant variants IH]; intros visited st Hst; simpl.
  - by rewrite app_nil_r.
  - replace (visited ++ variant :: variants)
      with ((visited ++ [variant]) ++ variants) by by rewrite <- app_assoc.
    by apply IH, visitVariant_tierInvariant.
Qed.

Lemma visitMatchType_sublist playable st matchType :
  chosen st `sublist_of` playable →
  chosen (visitMatchType playable st matchType) `sublist_of` playable.
Proof.
  intros Hst. unfold visitMatchType.
  destruct (visitVariants_tierInvariant matchType (chosen st) playable []
              (mkSelection (chosen st) (pref st) false (languageMatches st)))
    as [[_ Hsub]|[_ ->]]; [by right | done | done].
Qed.

Lemma selectVariantsByLanguage_sublist variants preferredLanguage :
  chosen (selectVariantsByLanguage variants preferredLanguage)
    `sublist_of` variants.
Proof.
  unfold selectVariantsByLanguage.
  set (playable := getPlayableVariants variants).
  assert (Hplayable : playable `sublist_of` variants) by apply sublist_filter.
  set (primary := filter (λ variant, Variant.primary variant) playable).
  set (base := match primary with [] => playable | _ :: _ => primary end).
  assert (Hbase : base `sublist_of` playable).
  { unfold base. destruct primary eqn:Hprimary; [done|].
    rewrite <- Hprimary. apply sublist_filter. }
  assert (Hdefault : ∀ language,
    filter (λ variant, Variant.language variant = language) base
      `sublist_of` playable).
  { intros language. etrans; [apply sublist_filter | exact Hbase]. }
  etrans; [|exact Hplayable].
  destruct (JS.nonEmpty preferredLanguage); [|apply Hdefault].
  unfold matchTypes. simpl foldl.
  do 3 apply visitMatchType_sublist. apply Hdefault.
Qed.

Lemma overwrite_sublist {A : Type} (selection matches l : list A) :
  selection `sublist_of` l → matches `sublist_of` l →
  overwrite selection matches `sublist_of` l.
Proof. by destruct matches. Qed.

Lemma selectStreamsByLanguage_sublist streams preferredLanguage :
  chosen (selectStreamsByLanguage streams preferredLanguage)
    `sublist_of` streams.
Proof.
  assert (Hdefault : chosen (selectStreamsByLanguage streams "")
                       `sublist_of` streams).
  { unfold selectStreamsByLanguage. simpl.
    set (primary := filter (λ stream, Stream.primary stream) streams).
    etrans; [apply sublist_filter|].
    destruct primary eqn:Hprimary; [done|].
    rewrite <- Hprimary. apply sublist_filter. }
  destruct (JS.nonEmpty preferredLanguage) eqn:Hpreferred.
  - rewrite (proj1 (selectStreamsByLanguage_spec _ _ Hpreferred)).
    unfold languageSearch.
    repeat (apply overwrite_sublist; [|apply sublist_filter]).
    exact Hdefault.
  - unfold selectStreamsByLanguage in *. by rewrite Hpreferred.
Qed.

End SelectionOrder.

(** X15.  The selectors return a subsequence of their input: the variants
    (text streams) they return are variants (text streams) of the input, in
    the input's order and none of them twice over, for every preferred
    language and role. *)
Theorem selector_output_is_subsequence :
  ∀ (utils : LanguageUtils) (variants : list Variant.t)
    (streams : list Stream.t) (preferredLanguage preferredRole : string),
    filterVariantsByLanguageAndRole variants preferredLanguage preferredRole
      `sublist_of` variants ∧
    filterStreamsByLanguageAndRole streams preferredLanguage preferredRole
      `sublist_of` streams.
Proof.
  intros utils variants streams preferredLanguage preferredRole.
  unfold filterVariantsByLanguageAndRole, filterStreamsByLanguageAndRole.
  rewrite refineVariantsByRole_spec, refineStreamsByRole_spec.
  split; (etrans; [apply refineByRole_sublist|]).
  - apply selectVariantsByLanguage_sublist.
  - apply selectStreamsByLanguage_sublist.
Qed.

(** The primary entries when there are some, all entries otherwise. *)
Definition primaryOrAll {A : Type} (primary : A → bool) (entries : list A)
    : list A :=
  match filter (λ entry, primary entry) entries with
  | [] => entries
  | found => found
  end.

Lemma primaryOrAll_primary {A : Type} (primary : A → bool) (entries : list A) :
  (∃ entry, entry ∈ entries ∧ primary entry = true) →
  ∀ entry, entry ∈ primaryOrAll primary entries → primary entry = true.
Proof.
  intros (first & Hfirst & Hprimary) entry. unfold primaryOrAll.
  destruct (filter _ entries) as [|found rest] eqn:Hfilter.
  - assert (Hkept : first ∈ filter (λ entry, primary entry) entries)
      by (apply list_elem_of_filter; by rewrite Hprimary).
    rewrite Hfilter in Hkept. by apply elem_of_nil in Hkept.
  - rewrite <- Hfilter. intros [Hp _]%list_elem_of_filter.
    by apply Is_true_true.
Qed.

Lemma selectVariantsByLanguage_default `{LanguageUtils} variants :
  chosen (selectVariantsByLanguage variants "") =
  let base := primaryOrAll Variant.primary (getPlayableVariants variants) in
  filter (λ variant,
            Some (Variant.language variant) = Variant.language <$> head base)
         base.
Proof.
  unfold selectVariantsByLanguage, primaryOrAll. simpl.
  destruct (filter _ (getPlayableVariants variants)) as [|first rest];
    simpl.
  - destruct (getPlayableVariants variants) as [|first rest]; [done|].
    apply list_filter_iff. intros variant. simpl. split; congruence.
  - apply list_filter_iff. intros variant. simpl. split; congruence.
Qed.

Lemma selectStreamsByLanguage_default `{LanguageUtils} streams :
  chosen (selectStreamsByLanguage streams "") =
  let base := primaryOrAll Stream.primary streams in
  filter (λ stream,
            Some (Stream.language stream) = Stream.language <$> head base)
         base.
Proof.
  unfold selectStreamsByLanguage, primaryOrAll. simpl.
  destruct (filter _ streams) as [|first rest]; simpl.
  - destruct streams as [|first rest]; [done|].
    apply list_filter_iff. intros stream. simpl. split; congruence.
  - apply list_filter_iff. intros stream. simpl. split; congruence.
Qed.

(** X16.  Without a preferred language, every variant (text stream) that
    the selector returns is primary when some playable variant (some text
    stream) is primary, and has the language of the first primary one, or
    of the first one of all when none is primary. *)
Theorem selector_default_is_primary_first_language :
  ∀ (utils : LanguageUtils) (variants : list Variant.t)
    (streams : list Stream.t) (preferredRole : string),
    let variantBase :=
      primaryOrAll Variant.primary (getPlayableVariants variants) in
    let streamBase := primaryOrAll Stream.primary streams in
    Forall (λ variant,
              variant ∈ variantBase ∧
              Some (Variant.language variant) =
                Variant.language <$> head variantBase)
           (filterVariantsByLanguageAndRole variants "" preferredRole) ∧
    ((∃ variant, variant ∈ getPlayableVariants variants ∧
                 Variant.primary variant = true) →
     Forall (λ variant, Variant.primary variant = true)
            (filterVariantsByLanguageAndRole variants "" preferredRole)) ∧
    Forall (λ stream,
              stream ∈ streamBase ∧
              Some (Stream.language stream) =
                Stream.language <$> head streamBase)
           (filterStreamsByLanguageAndRole streams "" preferredRole) ∧
    ((∃ stream, stream ∈ streams ∧ Stream.primary stream = true) →
     Forall (λ stream, Stream.primary stream = true)
            (filterStreamsByLanguageAndRole streams "" preferredRole)).
Proof.
  intros utils variants streams preferredRole. cbv zeta.
  assert (Hvariants :
    Forall (λ variant,
              variant ∈ primaryOrAll Variant.primary
                          (getPlayableVariants variants) ∧
              Some (Variant.language variant) =
                Variant.language <$>
                  head (primaryOrAll Variant.primary
                          (getPlayableVariants variants)))
           (filterVariantsByLanguageAndRole variants "" preferredRole)).
  { apply Forall_forall. intros variant Hin.
    unfold filterVariantsByLanguageAndRole in Hin.
    rewrite refineVariantsByRole_spec in Hin.
    eapply elem_of_sublist in Hin; [|apply refineByRole_sublist].
    rewrite selectVariantsByLanguage_default in Hin.
    apply list_elem_of_filter in Hin. tauto. }
  assert (Hstreams :
    Forall (λ stream,
              stream ∈ primaryOrAll Stream.primary streams ∧
              Some (Stream.language stream) =
                Stream.language <$>
                  head (primaryOrAll Stream.primary streams))
           (filterStreamsByLanguageAndRole streams "" preferredRole)).
  { apply Forall_forall. intros stream Hin.
    unfold filterStreamsByLanguageAndRole in Hin.
    rewrite refineStreamsByRole_spec in Hin.
    eapply elem_of_sublist in Hin; [|apply refineByRole_sublist].
    rewrite selectStreamsByLanguage_default in Hin.
    apply list_elem_of_filter in Hin. tauto. }
  split; [exact Hvariants|]. split; [|split; [exact Hstreams|]].
  - intros Hprimary. eapply Forall_impl; [exact Hvariants|].
    intros variant [Hin _]. by eapply primaryOrAll_primary.
  - intros Hprimary. eapply Forall_impl; [exact Hstreams|].
    intros stream [Hin _]. by eapply primaryOrAll_primary.
Qed.

Lemma selector_default_is_primary_first_language_witness :
  filterVariantsByLanguageAndRole (H := referenceLanguageUtils)
    [sampleAudioVariant 1 "en" [];
     Variant.mk 2 (JS.Fin 128000) "fr" true None None true true;
     Variant.mk 3 (JS.Fin 128000) "de" true None None true true;
     Variant.mk 4 (JS.Fin 128000) "fr" true None None true true] "" "" =
    [Variant.mk 2 (JS.Fin 128000) "fr" true None None true true;
     Variant.mk 4 (JS.Fin 128000) "fr" true None None true true] ∧
  Forall (λ variant, Variant.primary variant = true)
    (filterVariantsByLanguageAndRole (H := referenceLanguageUtils)
       [sampleAudioVariant 1 "en" [];
        Variant.mk 2 (JS.Fin 128000) "fr" true None None true true;
        Variant.mk 3 (JS.Fin 128000) "de" true None None true true;
        Variant.mk 4 (JS.Fin 128000) "fr" true None None true true] "" "").
Proof.
  split; [vm_compute; reflexivity|].
  apply (selector_default_is_primary_first_language referenceLanguageUtils
           _ [] "").
  exists (Variant.mk 2 (JS.Fin 128000) "fr" true None None true true).
  split; [|reflexivity]. vm_compute. right. left.
Defined.

Lemma languageSearch_no_match `{LanguageUtils} {A : Type}
    (language : A → string) (entries : list A) (p : string)
    (selection : list A) :
  ¬ someTierMatches language p entries →
  languageSearch language entries p selection = selection.
Proof.
  intros Hnone. unfold languageSearch.
  assert (Hempty : ∀ matchType, tierMatches language matchType p entries = []).
  { intros matchType.
    destruct (tierMatches language matchType p entries) eqn:Htier; [done|].
    destruct Hnone. exists matchType.
    apply tierMatches_nonempty. by rewrite Htier. }
  by rewrite !Hempty.
Qed.

(** X17.  The language search sets the entry of [opt_languageMatches]
    exactly when a preferred language is given and some text stream matches
    it at one of the three tiers; when it does not set it, the selection is
    the one made without a language preference.  The same holds for
    variants, over the playable ones, when [normalize] leaves normalized
    tags alone. *)
Theorem languageMatches_set_iff_some_tier_matches :
  ∀ (utils : LanguageUtils) (variants : list Variant.t)
    (streams : list Stream.t) (preferredLanguage : string),
    (languageMatches (selectStreamsByLanguage streams preferredLanguage)
       = true ↔
     JS.nonEmpty preferredLanguage = true ∧
     someTierMatches Stream.language (normalize preferredLanguage) streams) ∧
    (languageMatches (selectStreamsByLanguage streams preferredLanguage)
       = false →
     chosen (selectStreamsByLanguage streams preferredLanguage) =
     chosen (selectStreamsByLanguage streams "")) ∧
    ((∀ s, normalize (normalize s) = normalize s) →
     (languageMatches (selectVariantsByLanguage variants preferredLanguage)
        = true ↔
      JS.nonEmpty preferredLanguage = true ∧
      someTierMatches Variant.language (normalize preferredLanguage)
        (getPlayableVariants variants)) ∧
     (languageMatches (selectVariantsByLanguage variants preferredLanguage)
        = false →
      chosen (selectVariantsByLanguage variants preferredLanguage) =
      chosen (selectVariantsByLanguage variants ""))).
Proof.
  intros utils variants streams preferredLanguage.
  destruct (JS.nonEmpty preferredLanguage) eqn:Hpreferred.
  - destruct (selectStreamsByLanguage_spec streams _ Hpreferred)
      as [Hstreams HstreamFlag].
    split; [rewrite HstreamFlag; tauto|]. split.
    + intros Hflag. rewrite Hstreams. apply languageSearch_no_match.
      intros Hsome. apply HstreamFlag in Hsome. congruence.
    + intros Hidem.
      destruct (selectVariantsByLanguage_spec variants _ Hidem Hpreferred)
        as [Hvariants HvariantFlag].
      split; [rewrite HvariantFlag; tauto|].
      intros Hflag. rewrite Hvariants. apply languageSearch_no_match.
      intros Hsome. apply HvariantFlag in Hsome. congruence.
  - unfold selectStreamsByLanguage, selectVariantsByLanguage.
    rewrite Hpreferred. simpl.
    split; [split; [done | by intros [? _]]|]. split; [done|].
    intros _. split; [split; [done | by intros [? _]] | done].
Qed.

Lemma languageMatches_set_iff_some_tier_matches_witness :
  languageMatches (selectVariantsByLanguage (H := referenceLanguageUtils)
                     sampleLanguageVariants "en-GB") = true ∧
  languageMatches (selectVariantsByLanguage (H := referenceLanguageUtils)
                     sampleLanguageVariants "de") = false.
Proof.
  split.
  - apply (proj2 (proj2 (languageMatches_set_iff_some_tier_matches
                           referenceLanguageUtils sampleLanguageVariants []
                           "en-GB")) lowerCase_idempotent).
    split; [reflexivity|].
    exists OTHER_SUB_LANGUAGE_OKAY, (sampleAudioVariant 1 "en" ["main"]).
    split; [left | reflexivity].
  - vm_compute. reflexivity.
Defined.

(** * Lookups by object identity

    [getVariantByStreams], [findPeriodContainingStream] and
    [findPeriodContainingVariant] compare streams and variants with [==],
    which is identity of objects.  Here a stream or a variant is a
    reference, compared by equality of references, and the fields that the
    lookups read are functions of the reference. *)

Section ObjectGraph.
Context {StreamRef VariantRef : Type}.
Context `{!EqDecision StreamRef, !EqDecision VariantRef}.

(** [stream.type], [stream.trickModeVideo], [variant.audio] and
    [variant.video] *)
Variable streamType : StreamRef → ContentType.
Variable trickModeVideo : StreamRef → option StreamRef.
Variable variantAudio variantVideo : VariantRef → option StreamRef.

(** A period, as far as the lookups read it. *)
Record RefPeriod : Type := mkRefPeriod {
  refVariants : list VariantRef;
  refTextStreams : list StreamRef
}.

(** The loop of [getVariantByStreams]. *)
Fixpoint findVariantWithStreams (audio video : option StreamRef)
    (variants : list VariantRef) : option VariantRef :=
  match variants with
  | [] => None
  | variant :: rest =>
      if bool_decide (variantAudio variant = audio) &&
         bool_decide (variantVideo variant = video)
      then Some variant
      else findVariantWithStreams audio video rest
  end.

(** [getVariantByStreams]: [None] is a failed assertion, [Some None] is
    null. *)
Definition getVariantByStreams (audio video : option StreamRef)
    (variants : list VariantRef) : option (option VariantRef) :=
  _ ← match audio with
      | Some audio => JS.assert (bool_decide (streamType audio = AUDIO))
      | None => Some tt
      end;
  _ ← match video with
      | Some video => JS.assert (bool_decide (streamType video = VIDEO))
      | None => Some tt
      end;
  Some (findVariantWithStreams audio video variants).

(** The loop over the periods of [findPeriodContainingStream] and
    [findPeriodContainingVariant], from index [periodIdx] on; [holds] is
    the inner loop. *)
Fixpoint findPeriodFrom (holds : RefPeriod → bool) (periods : list RefPeriod)
    (periodIdx : nat) : Z :=
  match periods with
  | [] => (-1)%Z
  | period :: rest =>
      if holds period then Z.of_nat periodIdx
      else findPeriodFrom holds rest (S periodIdx)
  end.

(** The inner loops of [findPeriodContainingStream]. *)
Definition periodHasStream (stream : StreamRef) (period : RefPeriod) : bool :=
  if bool_decide (streamType stream = TEXT)
  then existsb (λ textStream, bool_decide (textStream = stream))
               (refTextStreams period)
  else existsb (λ variant,
                  bool_decide (variantAudio variant = Some stream) ||
                  bool_decide (variantVideo variant = Some stream) ||
                  match variantVideo variant with
                  | Some video =>
                      bool_decide (trickModeVideo video = Some stream)
                  | None => false
                  end)
               (refVariants period).

Definition findPeriodContainingStream (periods : list RefPeriod)
    (stream : StreamRef) : Z :=
  findPeriodFrom (periodHasStream stream) periods 0.

Definition findPeriodContainingVariant (periods : list RefPeriod)
    (variant : VariantRef) : Z :=
  findPeriodFrom
    (λ period,
       existsb (λ other, bool_decide (other = variant)) (refVariants period))
    periods 0.

(** [result] is the index of the first period with property [P], or -1
    when no period has it. *)
Definition isFirstPeriodWith (P : RefPeriod → Prop) (periods : list RefPeriod)
    (result : Z) : Prop :=
  result = (-1)%Z ∧ (∀ period, period ∈ periods → ¬ P period) ∨
  ∃ (i : nat) (period : RefPeriod),
    result = Z.of_nat i ∧ periods !! i = Some period ∧ P period ∧
    ∀ (j : nat) (earlier : RefPeriod),
      (j < i)%nat → periods !! j = Some earlier → ¬ P earlier.

Lemma findPeriodFrom_first (holds : RefPeriod → bool) (periods : list RefPeriod) :
  ∀ periodIdx : nat,
    findPeriodFrom holds periods periodIdx = (-1)%Z ∧
    (∀ period, period ∈ periods → holds period = false) ∨
    ∃ (i : nat) (period : RefPeriod),
      findPeriodFrom holds periods periodIdx = Z.of_nat (periodIdx + i) ∧
      periods !! i = Some period ∧ holds period = true ∧
      ∀ (j : nat) (earlier : RefPeriod),
        (j < i)%nat → periods !! j = Some earlier → holds earlier = false.
Proof using Type.
  induction periods as [|period periods IH]; intros periodIdx; simpl.
  - left. split; [done|]. intros period Hin. by apply elem_of_nil in Hin.
  - destruct (holds period) eqn:Hperiod.
    + right. exists 0%nat, period. rewrite Nat.add_0_r.
      repeat split; try done. intros j earlier Hj. lia.
    + destruct (IH (S periodIdx))
        as [[Hnone Hall]|(i & found & Hresult & Hlookup & Hfound & Hfirst)].
      * left. split; [done|].
        intros other [->|Hin]%elem_of_cons; [done | by apply Hall].
      * right. exists (S i), found. rewrite Hresult.
        split; [f_equal; lia|]. split; [done|]. split; [done|].
        intros [|j] earlier Hj Hearlier; simpl in Hearlier.
        -- by injection Hearlier as <-.
        -- apply (Hfirst j); [lia | done].
Qed.

Lemma findPeriodFrom_isFirst (holds : RefPeriod → bool) (P : RefPeriod → Prop)
    (periods : list RefPeriod) :
  (∀ period, holds period = true ↔ P period) →
  isFirstPeriodWith P periods (findPeriodFrom holds periods 0).
Proof using Type.
  intros Hholds.
  assert (Hnot : ∀ period, holds period = false ↔ ¬ P period).
  { intros period. rewrite <- Hholds. by destruct (holds period). }
  destruct (findPeriodFrom_first holds periods 0)
    as [[Hnone Hall]|(i & found & Hresult & Hlookup & Hfound & Hfirst)].
  - left. split; [done|]. intros period Hin. by apply Hnot, Hall.
  - right. exists i, found. split; [done|]. split; [done|].
    split; [by apply Hholds|].
    intros j earlier Hj Hearlier. by eapply Hnot, Hfirst.
Qed.

(** The period references the stream: among its text streams for a text
    stream; as the audio stream of a variant, as its video stream or as the
    trick-mode video of its video stream for any other. *)
Definition periodReferences (stream : StreamRef) (period : RefPeriod) : Prop :=
  if decide (streamType stream = TEXT)
  then stream ∈ refTextStreams period
  else ∃ variant,
         variant ∈ refVariants period ∧
         (variantAudio variant = Some stream ∨
          variantVideo variant = Some stream ∨
          ∃ video, variantVideo variant = Some video ∧
                   trickModeVideo video = Some stream).

Lemma periodHasStream_references stream period :
  periodHasStream stream period = true ↔ periodReferences stream period.
Proof using Type.
  unfold periodHasStream, periodReferences.
  case_bool_decide as Htext; [rewrite decide_True by done
                             | rewrite decide_False by done].
  - rewrite existsb_exists. split.
    + intros (other & Hin%list_elem_of_In & ->%bool_decide_eq_true). done.
    + intros Hin. exists stream.
      split; [by apply list_elem_of_In | by apply bool_decide_eq_true].
  - rewrite existsb_exists. split.
    + intros (variant & Hin%list_elem_of_In & Hvariant). exists variant.
      split; [done|].
      apply orb_true_iff in Hvariant as [Hvariant|Htrick].
      * apply orb_true_iff in Hvariant as [?%bool_decide_eq_true
                                           |?%bool_decide_eq_true]; tauto.
      * destruct (variantVideo variant) as [video|]; [|done].
        apply bool_decide_eq_true in Htrick. right. right. by exists video.
    + intros (variant & Hin & Hvariant). exists variant.
      split; [by apply list_elem_of_In|].
      rewrite !orb_true_iff, !bool_decide_eq_true.
      destruct Hvariant as [?|[?|(video & -> & ?)]]; [tauto | tauto|].
      right. by apply bool_decide_eq_true.
Qed.

(** X18.  [findPeriodContainingVariant] returns the index of the first
    period whose variants include the given variant, the same object, and
    -1 when no period has it. *)
Theorem findPeriodContainingVariant_first_period :
  ∀ (periods : list RefPeriod) (variant : VariantRef),
    isFirstPeriodWith (λ period, variant ∈ refVariants period) periods
      (findPeriodContainingVariant periods variant).
Proof using Type.
  intros periods variant. apply findPeriodFrom_isFirst. intros period.
  rewrite existsb_exists. split.
  - intros (other & Hin%list_elem_of_In & ->%bool_decide_eq_true). done.
  - intros Hin. exists variant.
    split; [by apply list_elem_of_In | by apply bool_decide_eq_true].
Qed.

(** X19.  [findPeriodContainingStream] returns the index of the first
    period that references the stream, and -1 when none does.  A text
    stream is looked for among the text streams of the periods only; any
    other stream among the audio and video streams of the variants and the
    trick-mode videos of their video streams only. *)
Theorem findPeriodContainingStream_first_period :
  ∀ (periods : list RefPeriod) (stream : StreamRef),
    isFirstPeriodWith (periodReferences stream) periods
      (findPeriodContainingStream periods stream).
Proof using Type.
  intros periods stream. apply findPeriodFrom_isFirst.
  apply periodHasStream_references.
Qed.

Lemma findVariantWithStreams_head audio video variants :
  findVariantWithStreams audio video variants =
  head (filter (λ variant,
                  variantAudio variant = audio ∧ variantVideo variant = video)
               variants).
Proof using Type.
  clear trickModeVideo streamType.
  induction variants as [|variant variants IH]; [reflexivity|].
  simpl. rewrite filter_cons, IH.
  repeat case_bool_decide; simpl; case_decide; tauto || done.
Qed.

(** X20.  [getVariantByStreams] fails an assertion exactly when the audio
    stream it is given is not of type audio or the video stream not of type
    video.  Otherwise it returns the first variant whose audio and video
    streams are the given objects, a null stream standing for a variant
    without that stream, and null when there is no such variant. *)
Theorem getVariantByStreams_first_with_streams :
  ∀ (audio video : option StreamRef) (variants : list VariantRef),
    let typed :=
      match audio with Some audio => streamType audio = AUDIO | None => True end
      ∧
      match video with Some video => streamType video = VIDEO | None => True end
    in
    (typed →
     getVariantByStreams audio video variants =
     Some (head (filter (λ variant,
                           variantAudio variant = audio ∧
                           variantVideo variant = video)
                        variants))) ∧
    (¬ typed → getVariantByStreams audio video variants = None).
Proof using Type.
  clear trickModeVideo.
  intros audio video variants. cbv zeta. unfold getVariantByStreams.
  rewrite findVariantWithStreams_head.
  destruct audio as [audio|], video as [video|]; simpl;
    repeat case_bool_decide; simpl; split; intros; tauto || done.
Qed.

End ObjectGraph.

(** ** A sample object graph

    Stream 1 is an audio stream, 2 and 3 are video streams, 3 being the
    trick-mode video of 2; 4 and 5 are text streams.  Variant 10 pairs 1
    with 2, variant 11 has the video stream 2 alone, and variant 12 wrongly
    carries the text stream 5 as its audio stream. *)

Definition sampleStreamType (stream : nat) : ContentType :=
  match stream with
  | 1 => AUDIO
  | 2 | 3 => VIDEO
  | _ => TEXT
  end%nat.

Definition sampleTrickModeVideo (stream : nat) : option nat :=
  match stream with
  | 2 => Some 3
  | _ => None
  end%nat.

Definition sampleVariantAudio (variant : nat) : option nat :=
  match variant with
  | 10 => Some 1
  | 12 => Some 5
  | _ => None
  end%nat.

Definition sampleVariantVideo (variant : nat) : option nat :=
  match variant with
  | 10 | 11 => Some 2
  | _ => None
  end%nat.

Definition samplePeriods : list (@RefPeriod nat nat) :=
  [mkRefPeriod [12%nat] []; mkRefPeriod [11%nat] [4%nat];
   mkRefPeriod [11%nat; 10%nat] [4%nat]].

Lemma getVariantByStreams_first_with_streams_witness :
  getVariantByStreams sampleStreamType sampleVariantAudio sampleVariantVideo
    None (Some 2%nat) [10%nat; 11%nat] = Some (Some 11%nat) ∧
  getVariantByStreams sampleStreamType sampleVariantAudio sampleVariantVideo
    (Some 2%nat) (Some 2%nat) [10%nat; 11%nat] = None.
Proof.
  split.
  - rewrite (proj1 (getVariantByStreams_first_with_streams sampleStreamType
                      sampleVariantAudio sampleVariantVideo
                      None (Some 2%nat) [10%nat; 11%nat]));
      [reflexivity | by split].
  - apply (proj2 (getVariantByStreams_first_with_streams sampleStreamType
                    sampleVariantAudio sampleVariantVideo
                    (Some 2%nat) (Some 2%nat) [10%nat; 11%nat])).
    intros [? _]. discriminate.
Defined.

Example findPeriodContainingVariant_sample :
  findPeriodContainingVariant samplePeriods 11%nat = 1%Z ∧
  findPeriodContainingVariant samplePeriods 10%nat = 2%Z ∧
  findPeriodContainingVariant samplePeriods 13%nat = (-1)%Z.
Proof. repeat split. Qed.

(** The audio stream 1 and the trick-mode video 3 are found through their
    variants; the text stream 4 among the text streams; the text stream 5,
    which only a variant references, is not found. *)
Example findPeriodContainingStream_sample :
  let find :=
    findPeriodContainingStream sampleStreamType sampleTrickModeVideo
      sampleVariantAudio sampleVariantVideo samplePeriods in
  find 1%nat = 2%Z ∧ find 3%nat = 1%Z ∧ find 4%nat = 1%Z ∧
  find 5%nat = (-1)%Z.
Proof. repeat split. Qed.

(** * Selecting from a selection *)

Lemma filter_all {A : Type} (P : A → Prop) `{!∀ x, Decision (P x)}
    (l : list A) :
  (∀ x, x ∈ l → P x) → filter P l = l.
Proof.
  induction l as [|x l IH]; intros Hall; [done|].
  rewrite filter_cons_True by (apply Hall; by left).
  f_equal. apply IH. intros y Hy. apply Hall. by right.
Qed.

Lemma filter_none {A : Type} (P : A → Prop) `{!∀ x, Decision (P x)}
    (l : list A) :
  (∀ x, x ∈ l → ¬ P x) → filter P l = [].
Proof.
  induction l as [|x l IH]; intros Hnone; [done|].
  rewrite filter_cons_False by (apply Hnone; by left).
  apply IH. intros y Hy. apply Hnone. by right.
Qed.

Section ReselectLanguage.
Context `{LanguageUtils} {A : Type}.
Variable primary : A → bool.
Variable language : A → string.

(** The selection made without a language preference. *)
Definition defaultSelection (entries : list A) : list A :=
  let base := primaryOrAll primary entries in
  filter (λ entry, Some (language entry) = language <$> head base) base.

(** The selection before the role preference. *)
Definition languageSelection (preferred : bool) (p : string)
    (entries : list A) : list A :=
  if preferred
  then languageSearch language entries p (defaultSelection entries)
  else defaultSelection entries.

Lemma primaryOrAll_fixed (entries selection : list A) :
  (∀ entry, entry ∈ selection → entry ∈ primaryOrAll primary entries) →
  (∀ entry, entry ∈ selection → entry ∈ entries) →
  primaryOrAll primary selection = selection.
Proof.
  intros Hbase Hentries. unfold primaryOrAll in *.
  destruct (filter (λ entry, primary entry) entries) as [|first rest]
    eqn:Hfilter.
  - rewrite filter_none; [done|]. intros entry Hin Hprimary.
    assert (Hkept : entry ∈ filter (λ entry, primary entry) entries)
      by (apply list_elem_of_filter; auto).
    rewrite Hfilter in Hkept. by apply elem_of_nil in Hkept.
  - rewrite filter_all; [by destruct selection|].
    intros entry Hin. apply Hbase in Hin. rewrite <- Hfilter in Hin.
    by apply list_elem_of_filter in Hin as [? _].
Qed.

Lemma defaultSelection_fixed (entries selection : list A) :
  selection `sublist_of` defaultSelection entries →
  defaultSelection selection = selection.
Proof.
  intros Hsub.
  assert (Hin : ∀ entry, entry ∈ selection →
            entry ∈ primaryOrAll primary entries ∧
            Some (language entry) =
              language <$> head (primaryOrAll primary entries)).
  { intros entry Hentry. eapply elem_of_sublist in Hentry; [|exact Hsub].
    apply list_elem_of_filter in Hentry. tauto. }
  unfold defaultSelection at 1. cbv zeta.
  rewrite (primaryOrAll_fixed entries).
  - apply filter_all. intros entry Hentry.
    destruct selection as [|first rest]; [by apply elem_of_nil in Hentry|].
    simpl. destruct (Hin first) as [_ Hfirst]; [by left|].
    destruct (Hin entry Hentry) as [_ Hlanguage]. congruence.
  - intros entry Hentry. by apply Hin.
  - intros entry Hentry. apply Hin in Hentry as [Hbase _].
    unfold primaryOrAll in Hbase.
    destruct (filter (λ entry, primary entry) entries) eqn:Hfilter;
      [done|].
    rewrite <- Hfilter in Hbase. by apply list_elem_of_filter in Hbase as [_ ?].
Qed.

Lemma defaultSelection_entries (entries : list A) entry :
  entry ∈ defaultSelection entries → entry ∈ entries.
Proof.
  intros [_ Hbase]%list_elem_of_filter. unfold primaryOrAll in Hbase.
  destruct (filter (λ entry, primary entry) entries) eqn:Hfilter; [done|].
  rewrite <- Hfilter in Hbase. by apply list_elem_of_filter in Hbase as [_ ?].
Qed.

Lemma tierMatches_of_sublist matchType p (entries selection : list A) :
  (∀ entry, entry ∈ selection → entry ∈ entries) →
  tierMatches language matchType p entries = [] →
  tierMatches language matchType p selection = [].
Proof.
  intros Hentries Hnone. apply filter_none. intros entry Hin Hmatch.
  assert (Hkept : entry ∈ tierMatches language matchType p entries)
    by (apply list_elem_of_filter; auto).
  rewrite Hnone in Hkept. by apply elem_of_nil in Hkept.
Qed.

Lemma tierMatches_fixed matchType p (entries selection : list A) :
  selection `sublist_of` tierMatches language matchType p entries →
  tierMatches language matchType p selection = selection.
Proof.
  intros Hsub. apply filter_all. intros entry Hin.
  eapply elem_of_sublist in Hin; [|exact Hsub].
  by apply list_elem_of_filter in Hin as [? _].
Qed.

Lemma tierMatches_entries matchType p (entries : list A) entry :
  entry ∈ tierMatches language matchType p entries → entry ∈ entries.
Proof. by intros [_ ?]%list_elem_of_filter. Qed.

Lemma languageSelection_entries preferred p (entries : list A) entry :
  entry ∈ languageSelection preferred p entries → entry ∈ entries.
Proof.
  unfold languageSelection, languageSearch, overwrite.
  destruct preferred; [|apply defaultSelection_entries].
  destruct (tierMatches language EXACT p entries) eqn:Hexact;
    [|rewrite <- Hexact; apply tierMatches_entries].
  destruct (tierMatches language BASE_LANGUAGE_OKAY p entries) eqn:Hbase;
    [|rewrite <- Hbase; apply tierMatches_entries].
  destruct (tierMatches language OTHER_SUB_LANGUAGE_OKAY p entries) eqn:Hother;
    [|rewrite <- Hother; apply tierMatches_entries].
  apply defaultSelection_entries.
Qed.

Lemma languageSelection_fixed preferred p (entries selection : list A) :
  selection `sublist_of` languageSelection preferred p entries →
  languageSelection preferred p selection = selection.
Proof.
  intros Hsub.
  assert (Hentries : ∀ entry, entry ∈ selection → entry ∈ entries).
  { intros entry Hin. eapply languageSelection_entries, elem_of_sublist;
      [exact Hin | exact Hsub]. }
  destruct (decide (selection = [])) as [->|Hnonempty].
  { unfold languageSelection, languageSearch, defaultSelection, tierMatches,
      primaryOrAll. by destruct preferred. }
  assert (Hoverwrite : ∀ other, overwrite other selection = selection)
    by (intros other; by destruct selection).
  unfold languageSelection, languageSearch in *.
  destruct preferred; [|by eapply defaultSelection_fixed].
  destruct (tierMatches language EXACT p entries) eqn:Hexact.
  2: { simpl in Hsub. rewrite <- Hexact in Hsub.
       by rewrite (tierMatches_fixed _ _ _ _ Hsub). }
  rewrite (tierMatches_of_sublist _ _ _ _ Hentries Hexact).
  destruct (tierMatches language BASE_LANGUAGE_OKAY p entries) eqn:Hbase.
  2: { simpl in Hsub. rewrite <- Hbase in Hsub.
       rewrite (tierMatches_fixed _ _ _ _ Hsub). simpl. apply Hoverwrite. }
  rewrite (tierMatches_of_sublist _ _ _ _ Hentries Hbase).
  destruct (tierMatches language OTHER_SUB_LANGUAGE_OKAY p entries) eqn:Hother.
  2: { simpl in Hsub. rewrite <- Hother in Hsub.
       rewrite (tierMatches_fixed _ _ _ _ Hsub). simpl. apply Hoverwrite. }
  rewrite (tierMatches_of_sublist _ _ _ _ Hentries Hother).
  simpl in *. by eapply defaultSelection_fixed.
Qed.

End ReselectLanguage.

Section ReselectRole.
Context {A : Type}.
Variable roles : A → list string.

Lemma firstRole_filter (selection : list A) role :
  firstRole (map roles selection) = Some role →
  firstRole (map roles (filter (λ entry, role ∈ roles entry) selection)) =
  Some role.
Proof.
  induction selection as [|entry selection IH]; [done|]. simpl.
  rewrite filter_cons.
  destruct (roles entry) as [|first rest] eqn:Hroles.
  - intros Hfirst. rewrite decide_False by apply not_elem_of_nil.
    by apply IH.
  - intros [= ->]. rewrite decide_True by by left.
    simpl. by rewrite Hroles.
Qed.

Lemma pickRole_fixed (selection : list A) :
  pickRole roles (pickRole roles selection) = pickRole roles selection.
Proof.
  destruct (firstRole (map roles selection)) as [role|] eqn:Hfirst.
  - assert (Hpicked : pickRole roles selection =
                      filter (λ entry, role ∈ roles entry) selection)
      by (unfold pickRole; by rewrite Hfirst).
    rewrite Hpicked. unfold pickRole. rewrite (firstRole_filter _ _ Hfirst).
    apply filter_all. intros entry Hin.
    by apply list_elem_of_filter in Hin as [? _].
  - assert (Hpicked : pickRole roles selection = selection)
      by (unfold pickRole; by rewrite Hfirst).
    by rewrite !Hpicked.
Qed.

Lemma refineByRole_fixed (selection : list A) preferredRole :
  refineByRole roles (refineByRole roles selection preferredRole)
    preferredRole =
  refineByRole roles selection preferredRole.
Proof.
  destruct (JS.nonEmpty preferredRole) eqn:Hpreferred.
  - destruct (decide (Exists (λ entry, preferredRole ∈ roles entry)
                        selection)) as [Hsat|Hunsat].
    + apply Exists_exists in Hsat.
      rewrite (refineByRole_satisfied _ _ _ Hpreferred Hsat).
      destruct Hsat as (entry & Hin & Hrole).
      rewrite refineByRole_satisfied; [|done|].
      * apply filter_all. intros entry' Hin'.
        by apply list_elem_of_filter in Hin' as [? _].
      * exists entry. split; [by apply list_elem_of_filter | done].
    + assert (Hnone : ∀ entry, entry ∈ selection →
                        preferredRole ∉ roles entry).
      { intros entry Hin Hrole. apply Hunsat, Exists_exists. eauto. }
      rewrite (refineByRole_unsatisfied _ _ _ Hnone).
      rewrite refineByRole_unsatisfied; [apply pickRole_fixed|].
      intros entry Hin. apply Hnone.
      eapply elem_of_sublist; [exact Hin | apply pickRole_sublist].
  - unfold refineByRole. rewrite Hpreferred. apply pickRole_fixed.
Qed.

End ReselectRole.

(** The selectors, in the specification's reading. *)
Definition selection `{LanguageUtils} {A : Type} (primary : A → bool)
    (language : A → string) (roles : A → list string) (preferred : bool)
    (p preferredRole : string) (entries : list A) : list A :=
  refineByRole roles (languageSelection primary language preferred p entries)
    preferredRole.

Lemma selection_fixed `{LanguageUtils} {A : Type} (primary : A → bool)
    (language : A → string) (roles : A → list string) preferred p
    preferredRole (entries : list A) :
  selection primary language roles preferred p preferredRole
    (selection primary language roles preferred p preferredRole entries) =
  selection primary language roles preferred p preferredRole entries.
Proof.
  unfold selection at 1.
  rewrite (languageSelection_fixed primary language _ _ entries);
    [apply refineByRole_fixed | apply refineByRole_sublist].
Qed.


Lemma filterStreamsByLanguageAndRole_selection `{LanguageUtils} streams
    preferredLanguage preferredRole :
  filterStreamsByLanguageAndRole streams preferredLanguage preferredRole =
  selection Stream.primary Stream.language Stream.roles
    (JS.nonEmpty preferredLanguage) (normalize preferredLanguage)
    preferredRole streams.
Proof.
  unfold filterStreamsByLanguageAndRole, selection, languageSelection.
  rewrite refineStreamsByRole_spec. f_equal.
  destruct (JS.nonEmpty preferredLanguage) eqn:Hpreferred.
  - rewrite (proj1 (selectStreamsByLanguage_spec _ _ Hpreferred)).
    by rewrite selectStreamsByLanguage_default.
  - destruct preferredLanguage; [|done].
    apply selectStreamsByLanguage_default.
Qed.

Lemma filterVariantsByLanguageAndRole_selection `{LanguageUtils} variants
    preferredLanguage preferredRole :
  (∀ s, normalize (normalize s) = normalize s) →
  filterVariantsByLanguageAndRole variants preferredLanguage preferredRole =
  selection Variant.primary Variant.language variantRoles
    (JS.nonEmpty preferredLanguage) (normalize preferredLanguage)
    preferredRole (getPlayableVariants variants).
Proof.
  intros Hidem.
  unfold filterVariantsByLanguageAndRole, selection, languageSelection.
  rewrite refineVariantsByRole_spec. f_equal.
  destruct (JS.nonEmpty preferredLanguage) eqn:Hpreferred.
  - rewrite (proj1 (selectVariantsByLanguage_spec _ _ Hidem Hpreferred)).
    by rewrite selectVariantsByLanguage_default.
  - destruct preferredLanguage; [|done].
    apply selectVariantsByLanguage_default.
Qed.

(** X21.  Selecting from a selection changes nothing: applied to its own
    output with the same preferences, [filterStreamsByLanguageAndRole]
    returns that output, and so does [filterVariantsByLanguageAndRole] when
    [normalize] leaves normalized tags alone. *)
Theorem selector_idempotent :
  ∀ (utils : LanguageUtils) (variants : list Variant.t)
    (streams : list Stream.t) (preferredLanguage preferredRole : string),
    filterStreamsByLanguageAndRole
      (filterStreamsByLanguageAndRole streams preferredLanguage preferredRole)
      preferredLanguage preferredRole =
    filterStreamsByLanguageAndRole streams preferredLanguage preferredRole ∧
    ((∀ s, normalize (normalize s) = normalize s) →
     filterVariantsByLanguageAndRole
       (filterVariantsByLanguageAndRole variants preferredLanguage
          preferredRole)
       preferredLanguage preferredRole =
     filterVariantsByLanguageAndRole variants preferredLanguage preferredRole).
Proof.
  intros utils variants streams preferredLanguage preferredRole. split.
  - rewrite !filterStreamsByLanguageAndRole_selection.
    apply selection_fixed.
  - intros Hidem. rewrite !filterVariantsByLanguageAndRole_selection by done.
    set (output := selection _ _ _ _ _ _ (getPlayableVariants variants)).
    replace (getPlayableVariants output) with output;
      [apply selection_fixed|].
    symmetry. apply filter_all. intros variant Hin.
    assert (Hplayable : variant ∈ getPlayableVariants variants).
    { eapply languageSelection_entries, elem_of_sublist;
        [exact Hin | apply refineByRole_sublist]. }
    by apply list_elem_of_filter in Hplayable as [? _].
Qed.

Lemma selector_idempotent_witness :
  filterVariantsByLanguageAndRole (H := referenceLanguageUtils)
    (filterVariantsByLanguageAndRole (H := referenceLanguageUtils)
       sampleLanguageVariants "en-GB" "sign")
    "en-GB" "sign" =
  filterVariantsByLanguageAndRole (H := referenceLanguageUtils)
    sampleLanguageVariants "en-GB" "sign".
Proof.
  apply (proj2 (selector_idempotent referenceLanguageUtils
                  sampleLanguageVariants [] "en-GB" "sign")
               lowerCase_idempotent).
Defined.

Example selector_twice :
  filterVariantsByLanguageAndRole (H := referenceLanguageUtils)
    sampleLanguageVariants "en-GB" "sign" =
    [sampleAudioVariant 1 "en" ["main"]] ∧
  filterVariantsByLanguageAndRole (H := referenceLanguageUtils)
    [sampleAudioVariant 1 "en" ["main"]] "en-GB" "sign" =
    [sampleAudioVariant 1 "en" ["main"]].
Proof. split; vm_compute; reflexivity. Qed.
